(** * The specializer of the Scopes compiler (src/prover.cpp)

    A shallow embedding of the pass that turns the untyped value graph into
    typed values, and the properties of it that the specification states.

    The embedding follows prover.cpp function by function.  Function objects
    and loops are mutable and shared by pointer in the source, so they live in
    an explicit store and are referred to by address; every other node is
    built once, typed once and never changed, so it is a plain tree.  Every
    specialization step is a computation in a state-and-error monad over that
    store.  Recursion through templates is not structural, so [specialize]
    takes fuel. *)

From stdpp Require Import base option list gmap strings.
From Stdlib Require Import NArith ZArith Lia.

Local Open Scope string_scope.
Local Open Scope list_scope.

(** ** Shared substrate: anchors and symbols *)

(** A source location; the specializer only passes anchors along. *)
Definition Anchor := nat.

(** Interned names, compared by their text.  [SYM_Unnamed] is the empty
    name. *)
Definition Symbol := string.
Definition SYM_Unnamed : Symbol := EmptyString.
Definition SYM_SPIRV_StorageClassFunction : Symbol := "Function".

(** ** Types *)

#[local] Set Warnings "-register-all".

(** Modelled from the spec: the type system (types.hpp and the files it
    includes are not among the sources).  A type is an interned object, so
    pointer equality of types in the source is equality here.  The
    arguments tuple of a multi-value is the constructor [TArguments]; named
    opaque types such as [TYPE_Closure] are [TName]s. *)
Inductive Ty : Type :=
| TYPE_NoReturn
| TYPE_Nothing
| TYPE_Unknown
| TName (name : string)
| TInteger (width : N) (issigned : bool)
| TReal (width : N)
| TPointer (element_type : Ty) (flags : N) (storage_class : Symbol)
| TArray (element_type : Ty) (count : N)
| TVector (element_type : Ty) (count : N)
| TTuple (names : list Symbol) (values : list Ty)
| TUnion (values : list Ty)
| TFunction (except_type : Ty) (return_type : Ty) (argument_types : list Ty)
| TArguments (values : list Ty)
| TTypename (name : string) (storage : Ty).

Fixpoint Ty_eq_dec (a b : Ty) {struct a} : {a = b} + {a <> b}.
Proof.
  decide equality;
    first [ apply N.eq_dec | apply Bool.bool_dec | apply String.string_dec
          | apply (List.list_eq_dec String.string_dec)
          | apply (List.list_eq_dec Ty_eq_dec) ].
Defined.

(** Equality of types is decidable: the source compares them by pointer. *)
#[global] Instance Ty_eq_decision : EqDecision Ty := Ty_eq_dec.

(** Modelled from the spec: the named types prover.cpp refers to. *)
Definition TYPE_Bool : Ty := TInteger 1 false.
Definition TYPE_I32 : Ty := TInteger 32 true.
Definition TYPE_F32 : Ty := TReal 32.
Definition TYPE_F64 : Ty := TReal 64.
Definition TYPE_Closure : Ty := TName "Closure".
Definition TYPE_ASTMacro : Ty := TName "ASTMacro".
Definition TYPE_Builtin : Ty := TName "Builtin".
Definition TYPE_Type : Ty := TName "type".
Definition TYPE_Symbol : Ty := TName "Symbol".
Definition TYPE_String : Ty := TName "string".
Definition TYPE_List : Ty := TName "list".
Definition TYPE_Scope : Ty := TName "Scope".
Definition TYPE_Error : Ty := TName "Error".

(** Modelled from the spec: the kinds a type exposes to the specializer
    (the [TypeKind] enumeration is declared with the types). *)
Inductive TypeKind : Type :=
| TK_Integer | TK_Real | TK_Pointer | TK_Array | TK_Vector | TK_Tuple
| TK_Union | TK_Typename | TK_Function | TK_Arguments
| TK_Nothing | TK_NoReturn | TK_Unknown.

#[global] Instance TypeKind_eq_decision : EqDecision TypeKind.
Proof. solve_decision. Defined.

(** Modelled from the spec: [Type::kind]. *)
Definition kind (T : Ty) : TypeKind :=
  match T with
  | TYPE_NoReturn => TK_NoReturn
  | TYPE_Nothing => TK_Nothing
  | TYPE_Unknown => TK_Unknown
  | TName _ | TTypename _ _ => TK_Typename
  | TInteger _ _ => TK_Integer
  | TReal _ => TK_Real
  | TPointer _ _ _ => TK_Pointer
  | TArray _ _ => TK_Array
  | TVector _ _ => TK_Vector
  | TTuple _ _ => TK_Tuple
  | TUnion _ => TK_Union
  | TFunction _ _ _ => TK_Function
  | TArguments _ => TK_Arguments
  end.

(** Reduce a kind to the one it is compatible with. *)
Definition canonical_typekind (k : TypeKind) : TypeKind :=
  if bool_decide (k = TK_Real) then TK_Integer else k.

(** Modelled from the spec: [is_returning]; a returning type is any type
    other than [NoReturn]. *)
Definition is_returning (T : Ty) : bool := negb (bool_decide (T = TYPE_NoReturn)).

(** Modelled from the spec: [is_arguments_type]. *)
Definition is_arguments_type (T : Ty) : bool :=
  match T with TArguments _ => true | _ => false end.

(** Modelled from the spec: [arguments_type], the type of a multi-value.
    The rule table of the call specializer reads [arguments_type({T})] as [T]
    ("result = D", "result = pointee"), so a single type stands for itself. *)
Definition arguments_type (types : list Ty) : Ty :=
  match types with
  | [T] => T
  | _ => TArguments types
  end.

(** Modelled from the spec: [empty_arguments_type]. *)
Definition empty_arguments_type : Ty := arguments_type [].

(** Modelled from the spec: the flag of a pointer that may not be written;
    the flags are bits of the flag word of the pointer type. *)
Definition PTF_NonWritable : N := 2.
(** Modelled from the spec: the flag of a pointer that may not be read. *)
Definition PTF_NonReadable : N := 4.

(** Modelled from the spec: [pointer_type]. *)
Definition pointer_type (T : Ty) (flags : N) (storage_class : Symbol) : Ty :=
  TPointer T flags storage_class.
(** Modelled from the spec: [native_ro_pointer_type], read-only and unnamed. *)
Definition native_ro_pointer_type (T : Ty) : Ty := pointer_type T PTF_NonWritable SYM_Unnamed.
(** Modelled from the spec: [native_pointer_type], unnamed. *)
Definition native_pointer_type (T : Ty) : Ty := pointer_type T 0 SYM_Unnamed.
(** Modelled from the spec: [local_pointer_type], of the function-local class. *)
Definition local_pointer_type (T : Ty) : Ty :=
  pointer_type T 0 SYM_SPIRV_StorageClassFunction.

(** Modelled from the spec: [PointerType::is_readable]. *)
Definition is_readable (flags : N) : bool := N.eqb (N.land flags PTF_NonReadable) 0.
(** Modelled from the spec: [PointerType::is_writable]. *)
Definition is_writable (flags : N) : bool := N.eqb (N.land flags PTF_NonWritable) 0.

(** Modelled from the spec: [vector_type]. *)
Definition vector_type (T : Ty) (count : N) : Ty := TVector T count.

(** Modelled from the spec: [raising_function_type]. *)
Definition raising_function_type (except_type return_type : Ty) (args : list Ty) : Ty :=
  TFunction except_type return_type args.
(** Modelled from the spec: [function_type], of a function that does not raise. *)
Definition function_type (return_type : Ty) (args : list Ty) : Ty :=
  raising_function_type TYPE_NoReturn return_type args.
(** Modelled from the spec: [raising_function_type] without an exception
    type, which raises [TYPE_Error]. *)
Definition raising_function_type_default (return_type : Ty) (args : list Ty) : Ty :=
  raising_function_type TYPE_Error return_type args.
(** Modelled from the spec: [FunctionType::has_exception]. *)
Definition has_exception (except_type : Ty) : bool := is_returning except_type.

(** Modelled from the spec: [is_function_pointer]. *)
Definition is_function_pointer (T : Ty) : bool :=
  match T with
  | TPointer (TFunction _ _ _) _ _ => true
  | _ => false
  end.

(** Modelled from the spec: [pointer_storage_classes_compatible]; an unnamed
    destination accepts any source class, otherwise equality. *)
Definition pointer_storage_classes_compatible (dest src : Symbol) : bool :=
  bool_decide (dest = SYM_Unnamed) || bool_decide (dest = src).

(** Modelled from the spec: a variadic parameter is one whose name ends in
    three dots. *)
Fixpoint ends_with_dots (s : string) : bool :=
  match s with
  | EmptyString => false
  | String _ rest => if String.eqb s "..." then true else ends_with_dots rest
  end.

(** ** Values *)

(** Modelled from the spec: [SymbolValue], a named binding reference
    (value.hpp is not among the sources).  [sym_addr] stands for the address
    of the node: binding tables are keyed by node identity, and only symbols
    are ever bound. *)
Record SymbolValue : Type := mkSymbolValue {
  sym_anchor : Anchor;
  sym_addr : nat;
  sym_name : Symbol;
  sym_type : option Ty;
}.

(** Modelled from the spec: [SymbolValue::is_variadic]. *)
Definition is_variadic (s : SymbolValue) : bool := ends_with_dots (sym_name s).

(** Modelled from the spec: the node classes (value.hpp is not among the
    sources), with the fields prover.cpp reads and writes.  Every node has an
    anchor and an optional inferred type; constants are typed from the
    start.  [VFunction] and the loop of an [ASTContext] are addresses into
    the store declared further down. *)
Inductive Value : Type :=
| VTemplate (t : Template)
| VFunction (fn : nat)
| VSymbolValue (s : SymbolValue)
| ConstInt (anchor : Anchor) (type : Ty) (value : N)
| ConstReal (anchor : Anchor) (type : Ty) (bits : N)
| ConstPointer (anchor : Anchor) (type : Ty) (value : Pointer)
| ConstTuple (anchor : Anchor) (type : Ty) (values : list Value)
| ConstArray (anchor : Anchor) (type : Ty) (values : list Value)
| ConstVector (anchor : Anchor) (type : Ty) (values : list Value)
| Extern (anchor : Anchor) (type : Ty) (name : Symbol)
| ArgumentList (anchor : Anchor) (type : option Ty) (values : list Value)
| ExtractArgument (anchor : Anchor) (type : option Ty) (value : Value) (index : nat)
| Call (anchor : Anchor) (type : option Ty) (callee : Value) (args : list Value)
| Let (anchor : Anchor) (type : option Ty) (params : list SymbolValue) (args : list Value)
| Loop (anchor : Anchor) (type : option Ty) (params : list SymbolValue)
       (args : list Value) (value : Value) (return_type : option Ty)
| If (anchor : Anchor) (type : option Ty) (clauses : list Clause) (else_clause : Clause)
| Break (anchor : Anchor) (type : option Ty) (value : Value)
| Repeat (anchor : Anchor) (type : option Ty) (args : list Value)
| Return (anchor : Anchor) (type : option Ty) (value : Value)
| Raise (anchor : Anchor) (type : option Ty) (value : Value)
| Try (anchor : Anchor) (type : option Ty) (try_body except_body : Value)
| Block (anchor : Anchor) (type : option Ty) (body : list Value) (value : Value)
| Keyed (anchor : Anchor) (type : option Ty) (key : Symbol) (value : Value)
| SyntaxExtend (anchor : Anchor) (type : option Ty) (func : Template)
               (next : option (Anchor * N)) (env : N)
with Template : Type :=
| mkTemplate (anchor : Anchor) (addr : nat) (name : Symbol)
             (params : list SymbolValue) (value : Value)
             (scope : option nat) (inline : bool)
with Clause : Type :=
| mkClause (anchor : Anchor) (cond : option Value) (value : Value)
with Pointer : Type :=
| PtrType (T : Ty)
| PtrClosure (func : Template) (frame : option nat)
| PtrASTMacro (fptr : nat)
| PtrString (s : string)
| PtrList (l : N)
| PtrRaw (address : N).

(** The fields of a template and of a clause. *)
Definition template_anchor (t : Template) : Anchor := let 'mkTemplate a _ _ _ _ _ _ := t in a.
Definition template_addr (t : Template) : nat := let 'mkTemplate _ a _ _ _ _ _ := t in a.
Definition template_name (t : Template) : Symbol := let 'mkTemplate _ _ n _ _ _ _ := t in n.
Definition template_params (t : Template) : list SymbolValue :=
  let 'mkTemplate _ _ _ ps _ _ _ := t in ps.
Definition template_value (t : Template) : Value := let 'mkTemplate _ _ _ _ v _ _ := t in v.
Definition template_scope (t : Template) : option nat := let 'mkTemplate _ _ _ _ _ s _ := t in s.
Definition is_inline (t : Template) : bool := let 'mkTemplate _ _ _ _ _ _ i := t in i.

Definition clause_anchor (c : Clause) : Anchor := let 'mkClause a _ _ := c in a.
Definition clause_cond (c : Clause) : option Value := let 'mkClause _ c _ := c in c.
Definition clause_value (c : Clause) : Value := let 'mkClause _ _ v := c in v.

(** Modelled from the spec: the [Builtin] tags (builtin.hpp is not among the
    sources): those the call specializer has a rule for, and any other
    symbol. *)
Inductive Builtin : Type :=
| FN_Dump | FN_Undef | FN_TypeOf | OP_Tertiary | FN_Bitcast
| FN_IntToPtr | FN_PtrToInt | FN_ITrunc | FN_FPTrunc | FN_FPExt
| FN_FPToUI | FN_FPToSI | FN_UIToFP | FN_SIToFP | FN_ZExt | FN_SExt
| FN_ExtractValue | FN_InsertValue | FN_GetElementPtr
| FN_VolatileLoad | FN_Load | FN_VolatileStore | FN_Store
| FN_Alloca | FN_AllocaArray | FN_Malloc | FN_MallocArray | FN_Free
| OP_ICmpEQ | OP_ICmpNE | OP_ICmpUGT | OP_ICmpUGE | OP_ICmpULT | OP_ICmpULE
| OP_ICmpSGT | OP_ICmpSGE | OP_ICmpSLT | OP_ICmpSLE
| OP_FCmpOEQ | OP_FCmpONE | OP_FCmpORD | OP_FCmpOGT | OP_FCmpOGE | OP_FCmpOLT
| OP_FCmpOLE | OP_FCmpUEQ | OP_FCmpUNE | OP_FCmpUNO | OP_FCmpUGT | OP_FCmpUGE
| OP_FCmpULT | OP_FCmpULE
| OP_Add | OP_AddNUW | OP_AddNSW | OP_Sub | OP_SubNUW | OP_SubNSW
| OP_Mul | OP_MulNUW | OP_MulNSW
| OP_SDiv | OP_UDiv | OP_SRem | OP_URem | OP_BAnd | OP_BOr | OP_BXor
| OP_Shl | OP_LShr | OP_AShr
| OP_FAdd | OP_FSub | OP_FMul | OP_FDiv | OP_FRem
| OP_FAbs | OP_SSign | OP_FSign
| OP_Radians | OP_Degrees | OP_Sin | OP_Cos | OP_Tan
| OP_Asin | OP_Acos | OP_Atan | OP_Atan2
| OP_Exp | OP_Log | OP_Exp2 | OP_Log2
| OP_Trunc | OP_Floor | OP_Step | OP_Pow | OP_Sqrt | OP_InverseSqrt
| OP_FMix
| KnownSymbol_other (value : N).

(** ** Errors and results *)

(** Modelled from the spec: the errors (error.hpp is not among the sources),
    by the names prover.cpp raises them with; the last three are those of the
    checks on types and of the external collaborators. *)
Inductive ErrorKind : Type :=
| error_cannot_merge_expression_types (T1 T2 : Ty)
| error_noreturn_not_last_expression
| error_variadic_symbol_not_in_last_place
| error_illegal_break_outside_loop
| error_illegal_repeat_outside_loop
| error_illegal_return_in_inline
| error_cannot_find_frame (t : Template)
| error_unbound_symbol (s : SymbolValue)
| error_invalid_condition_type (v : Value)
| error_constant_expected (v : Value)
| error_invalid_call_type (v : Value)
| error_invalid_operands (A B : Ty)
| error_argument_count_mismatch (need got : nat)
| error_argument_type_mismatch (expected got : Ty)
| error_untyped_recursive_call
| error_cannot_type_builtin (b : Builtin)
| location_error (msg : string)
| error_type_verification (what : string) (T : Ty)
| error_type_mismatch (expected got : Ty)
| error_external (code : N).

(** Modelled from the spec: what gets reported, the primary error and the
    chain of calls and functions that were being specialized
    ([add_error_trace]). *)
Record Error : Type := mkError {
  err_kind : ErrorKind;
  err_trace : list Value;
}.

(** Modelled from the spec: [add_error_trace]. *)
Definition add_error_trace (v : Value) (e : Error) : Error :=
  mkError (err_kind e) (err_trace e ++ [v]).

(** The outcome of a step: a value, a reported error ([SCOPES_RESULT]), a
    failed assertion or other undefined behaviour, or not enough fuel. *)
Inductive Result (A : Type) : Type :=
| Ok (a : A)
| Fail (e : Error)
| Abort (why : string)
| OutOfFuel.
Arguments Ok {A} a.
Arguments Fail {A} e.
Arguments Abort {A} why.
Arguments OutOfFuel {A}.

Definition raise_error {A} (k : ErrorKind) : Result A := Fail (mkError k []).

Definition result_bind {A B} (r : Result A) (k : A -> Result B) : Result B :=
  match r with
  | Ok a => k a
  | Fail e => Fail e
  | Abort w => Abort w
  | OutOfFuel => OutOfFuel
  end.

Notation "'let+' x ':=' c1 'in' c2" := (result_bind c1 (fun x => c2))
  (at level 10, x pattern, c1 at level 100, c2 at level 200).

(** ** The store *)

Inductive EvalTarget : Type :=
| EvalTarget_Void
| EvalTarget_Symbol
| EvalTarget_Return.

#[global] Instance EvalTarget_eq_decision : EqDecision EvalTarget.
Proof. solve_decision. Defined.

Record ASTContext : Type := mkASTContext {
  frame : option nat;
  target : EvalTarget;
  loop : option nat;
  _try : option nat;
}.

(** Modelled from the spec: a [Function] object (value.hpp is not among the
    sources), with the fields prover.cpp reads and writes: a specialized
    function instance and at the same time the frame of its own
    specialization. *)
Record Function : Type := mkFunction {
  fn_anchor : Anchor;
  fn_name : Symbol;
  fn_params : list SymbolValue;
  fn_value : Value;
  fn_original : option Template;
  fn_frame : option nat;
  fn_return_type : option Ty;
  fn_except_type : option Ty;
  fn_instance_args : list Ty;
  fn_complete : bool;
  fn_type : option Ty;
  fn_map : gmap nat Value;
}.

(** A queued job; [job_slot] is where its result goes. *)
Record SpecializeJob : Type := mkSpecializeJob {
  job_ctx : ASTContext;
  job_node : Value;
  job_slot : nat;
}.

Record State : Type := mkState {
  heap : list Function;
  functions : list nat;
  loops : list (option Ty);
  jobs : list SpecializeJob;
  slots : list (option (Value + Error));
  next_addr : nat;
}.

Definition with_heap (h : list Function) (st : State) : State :=
  mkState h (functions st) (loops st) (jobs st) (slots st) (next_addr st).
Definition with_functions (fs : list nat) (st : State) : State :=
  mkState (heap st) fs (loops st) (jobs st) (slots st) (next_addr st).
Definition with_loops (ls : list (option Ty)) (st : State) : State :=
  mkState (heap st) (functions st) ls (jobs st) (slots st) (next_addr st).
Definition with_jobs (js : list SpecializeJob) (st : State) : State :=
  mkState (heap st) (functions st) (loops st) js (slots st) (next_addr st).
Definition with_slots (ss : list (option (Value + Error))) (st : State) : State :=
  mkState (heap st) (functions st) (loops st) (jobs st) ss (next_addr st).
Definition with_next_addr (n : nat) (st : State) : State :=
  mkState (heap st) (functions st) (loops st) (jobs st) (slots st) n.

Definition empty_state : State := mkState [] [] [] [] [] 0.

(** The monad of specialization steps. *)
Definition M (A : Type) : Type := State -> Result A * State.

Definition ret {A} (a : A) : M A := fun st => (Ok a, st).
Definition lift {A} (r : Result A) : M A := fun st => (r, st).
Definition bind {A B} (m : M A) (k : A -> M B) : M B :=
  fun st =>
    match m st with
    | (Ok a, st') => k a st'
    | (Fail e, st') => (Fail e, st')
    | (Abort w, st') => (Abort w, st')
    | (OutOfFuel, st') => (OutOfFuel, st')
    end.
Definition get_state : M State := fun st => (Ok st, st).
Definition modify (f : State -> State) : M unit := fun st => (Ok tt, f st).
Definition throw {A} (k : ErrorKind) : M A := lift (raise_error k).
Definition abort {A} (why : string) : M A := lift (Abort why).

Notation "'let*' x ':=' c1 'in' c2" := (bind c1 (fun x => c2))
  (at level 10, x pattern, c1 at level 100, c2 at level 200).
Notation "c1 ';;' c2" := (bind c1 (fun _ => c2))
  (at level 100, c2 at level 200, right associativity).

(** ** External collaborators

    What the specializer uses of the expander, the code generator, the printer
    and the symbol tables, by interface only; sources of none of them are at
    hand, so they are parameters. *)
Class Externals : Type := {
  (** [Builtin((KnownSymbol)x->value)]: the tag a constant of type
      [TYPE_Builtin] stands for. *)
  Builtin_wrap : N -> Builtin;
  (** [Symbol::wrap]: the symbol a constant of type [TYPE_Symbol] stands for. *)
  Symbol_wrap : N -> Symbol;
  (** How a type is printed in a message. *)
  type_repr : Ty -> string;
  (** [Block::canonicalize]. *)
  Block_canonicalize : Value -> Value;
  pointer_flags_compatible : N -> N -> bool;
  (** Running an AST macro on the specialized arguments. *)
  call_ast_macro : nat -> list Value -> Value + Error;
  (** [compile], and running the compiled syntax-extend function on a scope:
      a plain function yields a scope, a raising one a scope or an error. *)
  compile : State -> nat -> nat + Error;
  call_scope_function : nat -> N -> N;
  call_raising_scope_function : nat -> N -> N + Error;
  (** [expand_inline] of the rest of a syntax-extend against the new scope. *)
  expand_inline : option Template -> option (Anchor * N) -> N -> Template + Error;
}.

(** ** Reading nodes *)

(** Modelled from the spec: [Value::_type], null when the node is untyped. *)
Definition type_of (st : State) (v : Value) : option Ty :=
  match v with
  | VTemplate _ => None
  | VFunction a => f ← heap st !! a; fn_type f
  | VSymbolValue s => sym_type s
  | ConstInt _ T _ | ConstReal _ T _ | ConstPointer _ T _ | ConstTuple _ T _
  | ConstArray _ T _ | ConstVector _ T _ | Extern _ T _ => Some T
  | ArgumentList _ T _ | ExtractArgument _ T _ _ | Call _ T _ _ | Let _ T _ _
  | Loop _ T _ _ _ _ | If _ T _ _ | Break _ T _ | Repeat _ T _ | Return _ T _
  | Raise _ T _ | Try _ T _ _ | Block _ T _ _ | Keyed _ T _ _
  | SyntaxExtend _ T _ _ _ => T
  end.

(** Modelled from the spec: [Value::is_typed]. *)
Definition is_typed (st : State) (v : Value) : bool := bool_decide (is_Some (type_of st v)).

(** Modelled from the spec: [Value::get_type], which asserts that the node is
    typed. *)
Definition get_type (st : State) (v : Value) : Result Ty :=
  match type_of st v with
  | Some T => Ok T
  | None => Abort "get_type: the node is untyped"
  end.

(** Modelled from the spec: [Value::anchor]. *)
Definition value_anchor (st : State) (v : Value) : Anchor :=
  match v with
  | VTemplate t => template_anchor t
  | VFunction a => from_option fn_anchor 0 (heap st !! a)
  | VSymbolValue s => sym_anchor s
  | ConstInt a _ _ | ConstReal a _ _ | ConstPointer a _ _ | ConstTuple a _ _
  | ConstArray a _ _ | ConstVector a _ _ | Extern a _ _
  | ArgumentList a _ _ | ExtractArgument a _ _ _ | Call a _ _ _ | Let a _ _ _
  | Loop a _ _ _ _ _ | If a _ _ _ | Break a _ _ | Repeat a _ _ | Return a _ _
  | Raise a _ _ | Try a _ _ _ | Block a _ _ _ | Keyed a _ _ _
  | SyntaxExtend a _ _ _ _ => a
  end.

(** Modelled from the spec: [Const::classof], the typed constants. *)
Definition is_Const (v : Value) : bool :=
  match v with
  | ConstInt _ _ _ | ConstReal _ _ _ | ConstPointer _ _ _ | ConstTuple _ _ _
  | ConstArray _ _ _ | ConstVector _ _ _ | Extern _ _ _ => true
  | _ => false
  end.

(** Modelled from the spec: [Value::is_symbolic]; a symbolic value is a
    constant, template, symbol or function. *)
Definition is_symbolic (v : Value) : bool :=
  is_Const v ||
  match v with
  | VTemplate _ | VFunction _ | VSymbolValue _ => true
  | _ => false
  end.

(** Modelled from the spec: [ConstTuple::none_from], the [none] constant. *)
Definition ConstTuple_none_from (anchor : Anchor) : Value :=
  ConstTuple anchor TYPE_Nothing [].

(** ** Frames *)

Definition set_return_type (T : option Ty) (f : Function) : Function :=
  mkFunction (fn_anchor f) (fn_name f) (fn_params f) (fn_value f) (fn_original f)
    (fn_frame f) T (fn_except_type f) (fn_instance_args f) (fn_complete f)
    (fn_type f) (fn_map f).
Definition set_except_type (T : option Ty) (f : Function) : Function :=
  mkFunction (fn_anchor f) (fn_name f) (fn_params f) (fn_value f) (fn_original f)
    (fn_frame f) (fn_return_type f) T (fn_instance_args f) (fn_complete f)
    (fn_type f) (fn_map f).
Definition set_value (v : Value) (f : Function) : Function :=
  mkFunction (fn_anchor f) (fn_name f) (fn_params f) v (fn_original f)
    (fn_frame f) (fn_return_type f) (fn_except_type f) (fn_instance_args f)
    (fn_complete f) (fn_type f) (fn_map f).
Definition set_complete (T : Ty) (f : Function) : Function :=
  mkFunction (fn_anchor f) (fn_name f) (fn_params f) (fn_value f) (fn_original f)
    (fn_frame f) (fn_return_type f) (fn_except_type f) (fn_instance_args f)
    true (Some T) (fn_map f).
(** [Function::append_param]. *)
Definition append_param (p : SymbolValue) (f : Function) : Function :=
  mkFunction (fn_anchor f) (fn_name f) (fn_params f ++ [p]) (fn_value f)
    (fn_original f) (fn_frame f) (fn_return_type f) (fn_except_type f)
    (fn_instance_args f) (fn_complete f) (fn_type f) (fn_map f).
(** [Function::bind]: enter a replacement into the binding table. *)
Definition bind_in (key : nat) (v : Value) (f : Function) : Function :=
  mkFunction (fn_anchor f) (fn_name f) (fn_params f) (fn_value f) (fn_original f)
    (fn_frame f) (fn_return_type f) (fn_except_type f) (fn_instance_args f)
    (fn_complete f) (fn_type f) (<[key := v]> (fn_map f)).

Definition set_origin (original : Template) (fr : option nat) (f : Function) : Function :=
  mkFunction (fn_anchor f) (fn_name f) (fn_params f) (fn_value f) (Some original)
    fr (fn_return_type f) (fn_except_type f) (fn_instance_args f) (fn_complete f)
    (fn_type f) (fn_map f).
Definition set_instance_args (types : list Ty) (f : Function) : Function :=
  mkFunction (fn_anchor f) (fn_name f) (fn_params f) (fn_value f) (fn_original f)
    (fn_frame f) (fn_return_type f) (fn_except_type f) types (fn_complete f)
    (fn_type f) (fn_map f).

(** Dereferencing a [Function *]. *)
Definition deref (a : option nat) : M Function :=
  fun st =>
    match a with
    | None => (Abort "null frame", st)
    | Some a =>
        match heap st !! a with
        | Some f => (Ok f, st)
        | None => (Abort "dangling function pointer", st)
        end
    end.

Definition update (a : nat) (g : Function -> Function) : M unit :=
  fun st =>
    match heap st !! a with
    | Some f => (Ok tt, with_heap (<[a := g f]> (heap st)) st)
    | None => (Abort "dangling function pointer", st)
    end.

(** Modelled from the spec: [Function::from] (value.cpp is not among the
    sources).  A fresh frame has no original template and no enclosing
    frame yet; its [return_type] and [except_type] are both initialized to
    [NoReturn]; it is incomplete, untyped, and binds nothing. *)
Definition Function_from (anchor : Anchor) (name : Symbol) (params : list SymbolValue)
    (value : Value) : M nat :=
  fun st =>
    (Ok (length (heap st)),
     with_heap (heap st ++ [mkFunction anchor name params value None None
                              (Some TYPE_NoReturn) (Some TYPE_NoReturn)
                              [] false None ∅]) st).

(** Modelled from the spec: [Function::resolve] (value.cpp is not among the
    sources): look the node up in the binding table of the frame, then in
    those of the enclosing lexical frames.  [n] bounds the walk. *)
Fixpoint resolve_in (n : nat) (h : list Function) (fr : option nat) (key : nat) : option Value :=
  match n, fr with
  | S n, Some a =>
      match h !! a with
      | Some f =>
          match fn_map f !! key with
          | Some v => Some v
          | None => resolve_in n h (fn_frame f) key
          end
      | None => None
      end
  | _, _ => None
  end.

Definition resolve (st : State) (fr : nat) (node : Value) : option Value :=
  match node with
  | VSymbolValue s => resolve_in (length (heap st)) (heap st) (Some fr) (sym_addr s)
  | _ => None
  end.

(** [ctx.frame->resolve(node)]. *)
Definition frame_resolve (ctx : ASTContext) (node : Value) : M (option Value) :=
  fun st =>
    match frame ctx with
    | None => (Abort "null frame", st)
    | Some a => (Ok (resolve st a node), st)
    end.

(** [ctx.frame->bind(oldsym, newval)]. *)
Definition frame_bind (ctx : ASTContext) (oldsym : SymbolValue) (v : Value) : M unit :=
  match frame ctx with
  | None => abort "null frame"
  | Some a => update a (bind_in (sym_addr oldsym) v)
  end.

(** Modelled from the spec: [Function::find_frame]: the nearest enclosing
    frame that specializes the template [scope]. *)
Fixpoint find_frame_in (n : nat) (h : list Function) (fr : option nat) (scope : nat) : option nat :=
  match n, fr with
  | S n, Some a =>
      match h !! a with
      | Some f =>
          if bool_decide (template_addr <$> fn_original f = Some scope) then Some a
          else find_frame_in n h (fn_frame f) scope
      | None => None
      end
  | _, _ => None
  end.

Definition find_frame (ctx : ASTContext) (scope : nat) : M (option nat) :=
  fun st =>
    match frame ctx with
    | None => (Abort "null frame", st)
    | Some a => (Ok (find_frame_in (length (heap st)) (heap st) (Some a) scope), st)
    end.

(** Modelled from the spec: [SymbolValue::from], a fresh symbol node. *)
Definition SymbolValue_from (anchor : Anchor) (name : Symbol) (T : Ty) : M SymbolValue :=
  fun st =>
    (Ok (mkSymbolValue anchor (next_addr st) name (Some T)),
     with_next_addr (S (next_addr st)) st).

(** ** Evaluation context *)

Definition is_target_void (ctx : ASTContext) : bool :=
  bool_decide (target ctx = EvalTarget_Void).

Definition transform_return_type (ctx : ASTContext) (T : Ty) : Ty :=
  if is_returning T && is_target_void ctx then empty_arguments_type else T.

Definition with_target (ctx : ASTContext) (t : EvalTarget) : ASTContext :=
  mkASTContext (frame ctx) t (loop ctx) (_try ctx).
Definition with_return_target (ctx : ASTContext) := with_target ctx EvalTarget_Return.
Definition with_void_target (ctx : ASTContext) := with_target ctx EvalTarget_Void.
Definition with_symbol_target (ctx : ASTContext) := with_target ctx EvalTarget_Symbol.
Definition for_loop (ctx : ASTContext) (l : nat) : ASTContext :=
  mkASTContext (frame ctx) EvalTarget_Symbol (Some l) (_try ctx).
Definition for_try (ctx : ASTContext) (t : nat) : ASTContext :=
  mkASTContext (frame ctx) (target ctx) (loop ctx) (Some t).

(** ** Joining types *)

Definition merge_value_type (ctx : ASTContext) (T1 T2 : option Ty) : Result Ty :=
  match T2 with
  | None => Abort "assert(T2)"
  | Some T2 =>
      let T2 := transform_return_type ctx T2 in
      match T1 with
      | None => Ok T2
      | Some T1 =>
          if bool_decide (T1 = T2) then Ok T1
          else if negb (is_returning T1) then Ok T2
          else if negb (is_returning T2) then Ok T1
          else raise_error (error_cannot_merge_expression_types T1 T2)
      end
  end.

Definition merge_return_type (T1 T2 : option Ty) : Result Ty :=
  match T2 with
  | None => Abort "assert(T2)"
  | Some T2 =>
      match T1 with
      | None => Ok T2
      | Some T1 =>
          if bool_decide (T1 = T2) then Ok T1
          else if negb (is_returning T1) then Ok T2
          else if negb (is_returning T2) then Ok T1
          else raise_error (error_cannot_merge_expression_types T1 T2)
      end
  end.

Definition get_type_of (v : Value) : M Ty := fun st => (get_type st v, st).
Definition anchor_of (v : Value) : M Anchor := fun st => (Ok (value_anchor st v), st).

Definition is_useless (node : Value) : bool :=
  if is_Const node then true
  else match node with
       | VTemplate _ | VFunction _ | VSymbolValue _ => true
       | Let _ _ params _ => bool_decide (length params = 0)
       | _ => false
       end.

(** ** Multi-values *)

(** Modelled from the spec: [TupleType::type_at_index_or_nothing]. *)
Definition type_at_index_or_nothing (values : list Ty) (index : nat) : Ty :=
  default TYPE_Nothing (values !! index).

(** Modelled from the spec: [storage_type]; the storage of an arguments
    type is the tuple of its elements, that of a typename its declared
    storage; an opaque name has none. *)
Definition storage_type (T : Ty) : Result Ty :=
  match T with
  | TArguments values => Ok (TTuple [] values)
  | TTypename _ storage => Ok storage
  | TName _ => raise_error (error_type_verification "opaque type has no storage" T)
  | _ => Ok T
  end.

(** [cast<TupleType>(storage_type(T).assert_ok())]. *)
Definition tuple_storage (T : Ty) : Result (list Ty) :=
  match storage_type T with
  | Ok (TTuple _ values) => Ok values
  | _ => Abort "cast<TupleType>(storage_type(T).assert_ok())"
  end.

Definition extract_argument (st : State) (value : Value) (index : nat) : Result Value :=
  let anchor := value_anchor st value in
  result_bind (get_type st value) (fun T =>
  if negb (is_returning T) then Ok value
  else if is_arguments_type T then
    result_bind (tuple_storage T) (fun rt =>
    let T := type_at_index_or_nothing rt index in
    if bool_decide (T = TYPE_Nothing) then Ok (ConstTuple_none_from anchor)
    else match value with
         | ArgumentList _ _ values =>
             match values !! index with
             | Some v => Ok v
             | None => Abort "arglist->values[index] out of range"
             end
         | _ => Ok (ExtractArgument anchor (Some T) value index)
         end)
  else if bool_decide (index = 0) then Ok value
  else Ok (ConstTuple_none_from anchor)).

Fixpoint types_of (st : State) (values : list Value) : Result (list Ty) :=
  match values with
  | [] => Ok []
  | arg :: rest =>
      result_bind (get_type st arg) (fun T =>
      result_bind (types_of st rest) (fun Ts => Ok (T :: Ts)))
  end.

Definition arguments_type_from_arguments (st : State) (values : list Value) : Result Ty :=
  result_bind (types_of st values) (fun types => Ok (arguments_type types)).

Definition build_argument_list (st : State) (anchor : Anchor) (values : list Value)
  : Result Value :=
  match values with
  | [v] => Ok v
  | _ =>
      result_bind (arguments_type_from_arguments st values) (fun T =>
      Ok (ArgumentList anchor (Some T) values))
  end.

(** [extract_argument(value, j)] for [j = from .. from + n - 1]. *)
Fixpoint extract_arguments (st : State) (value : Value) (from n : nat) : Result (list Value) :=
  match n with
  | 0 => Ok []
  | S n =>
      result_bind (extract_argument st value from) (fun v =>
      result_bind (extract_arguments st value (S from) n) (fun vs => Ok (v :: vs)))
  end.

(** Turning a reported error into a value: what a job keeps in its slot. *)
Definition catch {A} (m : M A) : M (A + Error) :=
  fun st =>
    match m st with
    | (Ok a, st') => (Ok (inl a), st')
    | (Fail e, st') => (Ok (inr e), st')
    | (Abort w, st') => (Abort w, st')
    | (OutOfFuel, st') => (OutOfFuel, st')
    end.

Definition uncatch {A} (r : A + Error) : M A :=
  match r with
  | inl a => ret a
  | inr e => lift (Fail e)
  end.

(** ** The rules, one per node kind

    Inside the rules [self] is [specialize] on nodes, and [fuel] bounds the
    loop of [process_jobs]; [specialize] further down ties the knot. *)
Section Rules.
Context `{Externals}.
Variable self : ASTContext -> Value -> M Value.
Variable fuel : nat.

(** *** The cooperative scheduler

    A job never suspends half way: the only yield point,
    [wait_for_return_type], runs the queue from inside the job.  So the
    coroutines are nested calls and the queue is the only state. *)

Definition specialize_coroutine (job : SpecializeJob) : M unit :=
  let* r := catch (self (job_ctx job) (job_node job)) in
  modify (fun st => with_slots (<[job_slot job := Some r]> (slots st)) st).

Fixpoint process_jobs_loop (n : nat) : M nat :=
  let* st := get_state in
  match jobs st with
  | [] => ret 0
  | job :: rest =>
      match n with
      | 0 => lift OutOfFuel
      | S n =>
          modify (with_jobs rest);;
          specialize_coroutine job;;
          let* processed := process_jobs_loop n in
          ret (S processed)
      end
  end.

Definition process_jobs : M nat := process_jobs_loop fuel.

Definition wait_for_return_type (f : nat) : M bool :=
  let* processed := process_jobs in
  let* fn := deref (Some f) in
  ret (bool_decide (is_Some (fn_return_type fn))).

(** The results of the jobs in slots [base ..], in order; the first
    reported error is returned. *)
Fixpoint collect_jobs (slot count : nat) : M (list Value) :=
  match count with
  | 0 => ret []
  | S count =>
      let* st := get_state in
      match slots st !! slot with
      | Some (Some r) =>
          let* v := uncatch r in
          let* vs := collect_jobs (S slot) count in
          ret (v :: vs)
      | _ => abort "assert(local_jobs[i].done)"
      end
  end.

Definition all_done (st : State) (base count : nat) : bool :=
  forallb (fun i => bool_decide (is_Some (mjoin (slots st !! (base + i))))) (seq 0 count).

Definition specialize_jobs (ctx : ASTContext) (nodes : list Value) : M (list Value) :=
  let count := length nodes in
  let* st := get_state in
  let base := length (slots st) in
  modify (fun st =>
    with_jobs (jobs st ++ imap (fun i node => mkSpecializeJob ctx node (base + i)) nodes)
      (with_slots (slots st ++ replicate count None) st));;
  process_jobs;;
  let* st := get_state in
  if all_done st base count then collect_jobs base count
  else abort "assert(local_jobs[i].done)".

(** *** Blocks *)

Fixpoint specialize_Block_body (subctx : ASTContext) (body newbody : list Value)
  : M (list Value) :=
  match body with
  | [] => ret newbody
  | src :: rest =>
      let* newsrc := self subctx src in
      let* T := get_type_of newsrc in
      (if negb (is_returning T) then throw error_noreturn_not_last_expression
       else ret tt);;
      specialize_Block_body subctx rest
        (if negb (is_useless newsrc) then newbody ++ [newsrc] else newbody)
  end.

Definition specialize_Block (ctx : ASTContext) (anchor : Anchor) (body : list Value)
    (value : Value) : M Value :=
  let subctx := with_void_target ctx in
  let* newbody := specialize_Block_body subctx body [] in
  let* newvalue := self ctx value in
  let* T := get_type_of newvalue in
  let rtype := transform_return_type ctx T in
  ret (Block_canonicalize (Block anchor (Some rtype) newbody newvalue)).

(** *** Argument lists *)

Fixpoint specialize_arguments_loop (subctx : ASTContext) (outargs : list Value)
    (values : list Value) : M (list Value) :=
  match values with
  | [] => ret outargs
  | v :: rest =>
      let* value := self subctx v in
      let* T := get_type_of value in
      if negb (is_returning T) then throw error_noreturn_not_last_expression
      else if is_arguments_type T then
        let* rt := lift (tuple_storage T) in
        match rest with
        | [] =>
            (* last argument is appended in full *)
            let* st := get_state in
            let* vs := lift (extract_arguments st value 0 (length rt)) in
            ret (outargs ++ vs)
        | _ =>
            let* st := get_state in
            let* value := lift (extract_argument st value 0) in
            specialize_arguments_loop subctx (outargs ++ [value]) rest
        end
      else specialize_arguments_loop subctx (outargs ++ [value]) rest
  end.

Definition specialize_arguments (ctx : ASTContext) (outargs values : list Value)
  : M (list Value) :=
  specialize_arguments_loop (with_symbol_target ctx) outargs values.

Definition specialize_ArgumentList (ctx : ASTContext) (anchor : Anchor)
    (values : list Value) : M Value :=
  let* values := specialize_arguments ctx [] values in
  let* st := get_state in
  lift (build_argument_list st anchor values).

Definition specialize_ExtractArgument (ctx : ASTContext) (value : Value) (index : nat)
  : M Value :=
  let* value := self ctx value in
  let* st := get_state in
  lift (extract_argument st value index).

(** *** Binding parameters (Let, Loop and inlined functions) *)

Fixpoint specialize_bind_specialized_arguments_loop (ctx : ASTContext)
    (i : nat) (params : list SymbolValue) (tmpargs : list Value)
    (inline_constants : bool) (outparams : list SymbolValue) (outargs : list Value)
  : M (list SymbolValue * list Value) :=
  match params with
  | [] => ret (outparams, outargs)
  | oldsym :: rest =>
      let* newval :=
        if is_variadic oldsym then
          match rest with
          | _ :: _ => throw error_variadic_symbol_not_in_last_place
          | [] =>
              if bool_decide (i + 1 = length tmpargs) then
                match tmpargs !! i with
                | Some v => ret v
                | None => abort "tmpargs[i] out of range"
                end
              else
                let values := drop i tmpargs in
                let* st := get_state in
                let* T := lift (arguments_type_from_arguments st values) in
                ret (ArgumentList (sym_anchor oldsym) (Some T) values)
          end
        else
          match tmpargs !! i with
          | Some v => ret v
          | None => ret (ConstTuple_none_from (sym_anchor oldsym))
          end in
      if inline_constants && is_symbolic newval then
        frame_bind ctx oldsym newval;;
        specialize_bind_specialized_arguments_loop ctx (S i) rest tmpargs
          inline_constants outparams outargs
      else
        let* T := get_type_of newval in
        let* newsym := SymbolValue_from (sym_anchor oldsym) (sym_name oldsym) T in
        frame_bind ctx oldsym (VSymbolValue newsym);;
        specialize_bind_specialized_arguments_loop ctx (S i) rest tmpargs
          inline_constants (outparams ++ [newsym]) (outargs ++ [newval])
  end.

Definition specialize_bind_specialized_arguments (ctx : ASTContext)
    (outparams : list SymbolValue) (outargs : list Value)
    (params : list SymbolValue) (tmpargs : list Value) (inline_constants : bool)
  : M (list SymbolValue * list Value) :=
  specialize_bind_specialized_arguments_loop ctx 0 params tmpargs inline_constants
    outparams outargs.

Definition specialize_bind_arguments (ctx : ASTContext)
    (outparams : list SymbolValue) (outargs : list Value)
    (params : list SymbolValue) (values : list Value) (inline_constants : bool)
  : M (list SymbolValue * list Value) :=
  let* tmpargs := specialize_arguments ctx [] values in
  specialize_bind_specialized_arguments ctx outparams outargs params tmpargs
    inline_constants.

(** *** Try, Let, Loop *)

Definition specialize_Try (ctx : ASTContext) (try_body except_body : Value) : M Value :=
  let* try_body := self ctx try_body in
  let* except_body := self ctx except_body in
  abort "assert(false)".

Definition specialize_Let (ctx : ASTContext) (anchor : Anchor)
    (params : list SymbolValue) (args : list Value) : M Value :=
  let* (newparams, newargs) := specialize_bind_arguments ctx [] [] params args true in
  ret (Let anchor (Some empty_arguments_type) newparams newargs).

(** Modelled from the spec: [Loop::from], the new loop, of which only
    [return_type] is shared with the body while the body is being
    specialized. *)
Definition Loop_from : M nat :=
  fun st => (Ok (length (loops st)), with_loops (loops st ++ [None]) st).

Definition loop_return_type (l : nat) : M (option Ty) :=
  fun st =>
    match loops st !! l with
    | Some T => (Ok T, st)
    | None => (Abort "dangling loop pointer", st)
    end.

Definition set_loop_return_type (l : nat) (T : Ty) : M unit :=
  modify (fun st => with_loops (<[l := Some T]> (loops st)) st).

Definition specialize_Loop (ctx : ASTContext) (anchor : Anchor)
    (params : list SymbolValue) (args : list Value) (value : Value) : M Value :=
  let* newloop := Loop_from in
  let* (newparams, newargs) := specialize_bind_arguments ctx [] [] params args false in
  let* newvalue := self (for_loop ctx newloop) value in
  let* rtype := get_type_of newvalue in
  let* T1 := loop_return_type newloop in
  let* T := lift (merge_value_type ctx T1 (Some rtype)) in
  set_loop_return_type newloop T;;
  ret (Loop anchor (Some T) newparams newargs newvalue (Some T)).

(** *** Control transfers *)

Definition specialize_Break (ctx : ASTContext) (anchor : Anchor) (value : Value)
  : M Value :=
  match loop ctx with
  | None => throw error_illegal_break_outside_loop
  | Some l =>
      let subctx := with_symbol_target ctx in
      let* value := self subctx value in
      let* T2 := get_type_of value in
      let* T1 := loop_return_type l in
      let* T := lift (merge_value_type subctx T1 (Some T2)) in
      set_loop_return_type l T;;
      ret (Break anchor (Some TYPE_NoReturn) value)
  end.

Definition specialize_Repeat (ctx : ASTContext) (anchor : Anchor) (args : list Value)
  : M Value :=
  match loop ctx with
  | None => throw error_illegal_repeat_outside_loop
  | Some _ =>
      let* newargs := specialize_arguments ctx [] args in
      ret (Repeat anchor (Some TYPE_NoReturn) newargs)
  end.

(** The frame a return leaves: the nearest one whose template is not
    marked inline. *)
Fixpoint return_frame (n : nat) (h : list Function) (fr : nat) : Result nat :=
  match h !! fr with
  | None => Abort "dangling function pointer"
  | Some f =>
      if from_option is_inline false (fn_original f) then
        match n, fn_frame f with
        | 0, _ => OutOfFuel
        | S n, Some up => return_frame n h up
        | S _, None => Abort "assert(frame)"
        end
      else Ok fr
  end.

Definition make_return (ctx : ASTContext) (anchor : Anchor) (value : Value) : M Value :=
  match frame ctx with
  | None => abort "assert(frame)"
  | Some fr =>
      let* st := get_state in
      let* fr := lift (return_frame (length (heap st)) (heap st) fr) in
      let* f := deref (Some fr) in
      let* T2 := get_type_of value in
      let* T := lift (merge_return_type (fn_return_type f) (Some T2)) in
      update fr (set_return_type (Some T));;
      ret (Return anchor (Some TYPE_NoReturn) value)
  end.

Definition specialize_Return (ctx : ASTContext) (anchor : Anchor) (value : Value)
  : M Value :=
  let* f := deref (frame ctx) in
  if from_option is_inline false (fn_original f) then
    throw error_illegal_return_in_inline
  else
    let* value := self (with_symbol_target ctx) value in
    if bool_decide (target ctx = EvalTarget_Return) then ret value
    else make_return ctx anchor value.

Definition specialize_Raise (ctx : ASTContext) (anchor : Anchor) (value : Value)
  : M Value :=
  match frame ctx with
  | None => abort "assert(ctx.frame)"
  | Some fr =>
      let* value := self (with_symbol_target ctx) value in
      let* f := deref (Some fr) in
      let* T2 := get_type_of value in
      let* T := lift (merge_return_type (fn_except_type f) (Some T2)) in
      update fr (set_except_type (Some T));;
      ret (Raise anchor (Some TYPE_NoReturn) value)
  end.

(** *** Specializing a template for given argument types *)

Fixpoint param_types (params : list SymbolValue) : Result (list Ty) :=
  match params with
  | [] => Ok []
  | p :: rest =>
      match sym_type p with
      | Some T => result_bind (param_types rest) (fun Ts => Ok (T :: Ts))
      | None => Abort "get_type: the node is untyped"
      end
  end.

Definition get_function_type (fn : Function) : Result Ty :=
  result_bind (param_types (fn_params fn)) (fun params =>
  match fn_except_type fn, fn_return_type fn with
  | Some except_type, Some return_type =>
      Ok (native_ro_pointer_type (raising_function_type except_type return_type params))
  | _, _ => Abort "null type"
  end).

(** Equality of cache keys: identity of frame and template, equality of
    the instance argument types. *)
Definition KeyEqual (fr : option nat) (original : Template) (types : list Ty)
    (rhs : Function) : bool :=
  bool_decide (fr = fn_frame rhs)
  && bool_decide (Some (template_addr original) = template_addr <$> fn_original rhs)
  && bool_decide (types = fn_instance_args rhs).

(** [functions.find(&key)]. *)
Definition find_function (st : State) (fr : option nat) (original : Template)
    (types : list Ty) : option nat :=
  List.find (fun a => from_option (KeyEqual fr original types) false (heap st !! a))
    (functions st).

(** Modelled from the spec: [verify(a, b)]; the two types must be the
    same. *)
Definition verify (expected got : Ty) : Result unit :=
  if bool_decide (expected = got) then Ok tt
  else raise_error (error_type_mismatch expected got).

(** One fresh parameter per type, all named like the variadic one. *)
Fixpoint variadic_params (fn : nat) (oldparam : SymbolValue) (vtypes : list Ty)
  : M (list Value) :=
  match vtypes with
  | [] => ret []
  | T :: rest =>
      let* newparam := SymbolValue_from (sym_anchor oldparam) (sym_name oldparam) T in
      update fn (append_param newparam);;
      let* args := variadic_params fn oldparam rest in
      ret (VSymbolValue newparam :: args)
  end.

Fixpoint specialize_instance_params (fn : nat) (i : nat) (params : list SymbolValue)
    (types : list Ty) : M unit :=
  match params with
  | [] => ret tt
  | oldparam :: rest =>
      (if is_variadic oldparam then
         match rest with
         | _ :: _ => throw error_variadic_symbol_not_in_last_place
         | [] =>
             if bool_decide (i + 1 = length types) then
               match types !! i with
               | Some T =>
                   let* newparam :=
                     SymbolValue_from (sym_anchor oldparam) (sym_name oldparam) T in
                   update fn (append_param newparam);;
                   update fn (bind_in (sym_addr oldparam) (VSymbolValue newparam))
               | None => abort "types[i] out of range"
               end
             else
               let vtypes := drop i types in
               let* args := variadic_params fn oldparam vtypes in
               update fn (bind_in (sym_addr oldparam)
                 (ArgumentList (sym_anchor oldparam) (Some (arguments_type vtypes)) args))
         end
       else
         let T := default TYPE_Nothing (types !! i) in
         (match sym_type oldparam with
          | Some Tp => lift (verify Tp T)
          | None => ret tt
          end);;
         let* newparam := SymbolValue_from (sym_anchor oldparam) (sym_name oldparam) T in
         update fn (append_param newparam);;
         update fn (bind_in (sym_addr oldparam) (VSymbolValue newparam)));;
      specialize_instance_params fn (S i) rest types
  end.

(** [specialize(Function *frame, Template *func, const ArgTypes &types)]. *)
Definition specialize_instance (fr : option nat) (func : Template) (types : list Ty)
  : M nat :=
  let* st := get_state in
  match find_function st fr func types with
  | Some fn => ret fn
  | None =>
      let* fn := Function_from (template_anchor func) (template_name func) []
                   (template_value func) in
      update fn (set_return_type (Some TYPE_NoReturn));;
      update fn (set_except_type (Some TYPE_NoReturn));;
      update fn (set_origin func fr);;
      update fn (set_instance_args types);;
      specialize_instance_params fn 0 (template_params func) types;;
      modify (fun st => with_functions (functions st ++ [fn]) st);;
      let subctx := mkASTContext (Some fn) EvalTarget_Return None None in
      let* f := deref (Some fn) in
      let* result := catch (self subctx (fn_value f)) in
      match result with
      | inr e => lift (Fail (add_error_trace (VFunction fn) e))
      | inl value =>
          update fn (set_value value);;
          let* T := get_type_of value in
          if is_returning T then abort "assert(!is_returning(fn->value->get_type()))"
          else
            let* f := deref (Some fn) in
            let* ftype := lift (get_function_type f) in
            update fn (set_complete ftype);;
            ret fn
      end
  end.

Definition specialize_inline (ctx : ASTContext) (fr : option nat) (func : Template)
    (nodes : list Value) : M Value :=
  let* fn := Function_from (template_anchor func) (template_name func) []
               (template_value func) in
  update fn (set_origin func fr);;
  let subctx := mkASTContext (Some fn) (target ctx) None None in
  let* (params, args) :=
    specialize_bind_specialized_arguments subctx [] [] (template_params func) nodes true in
  let* f := deref (Some fn) in
  let* result := catch (self subctx (fn_value f)) in
  match result with
  | inr e => lift (Fail (add_error_trace (VFunction fn) e))
  | inl result_value =>
      match params with
      | _ :: _ =>
          let* T := get_type_of result_value in
          let rtype := transform_return_type subctx T in
          let let_ := Let (fn_anchor f) (Some empty_arguments_type) params args in
          let block := Block (template_anchor func) (Some rtype) [let_] result_value in
          update fn (set_value (Block_canonicalize block));;
          ret (Block_canonicalize block)
      | [] =>
          update fn (set_value result_value);;
          ret result_value
      end
  end.

(** *** SyntaxExtend and Keyed *)

Definition specialize_SyntaxExtend (ctx : ASTContext) (anchor : Anchor)
    (func : Template) (next : option (Anchor * N)) (env : N) : M Value :=
  match template_scope func with
  | None => abort "assert(sx->func->scope)"
  | Some scope =>
      let* fr := find_frame ctx scope in
      match fr with
      | None => throw (error_cannot_find_frame func)
      | Some fr =>
          let* fn := specialize_instance (Some fr) func [TYPE_Scope] in
          let ftype := native_ro_pointer_type (function_type TYPE_Scope [TYPE_Scope]) in
          let* st := get_state in
          match compile st fn with
          | inr e => lift (Fail e)
          | inl ptr =>
              let* fnT := get_type_of (VFunction fn) in
              let* env :=
                if bool_decide (fnT = ftype) then ret (call_scope_function ptr env)
                else
                  let ftype2 := native_ro_pointer_type
                                  (raising_function_type_default TYPE_Scope [TYPE_Scope]) in
                  if bool_decide (fnT = ftype2) then
                    match call_raising_scope_function ptr env with
                    | inl env => ret env
                    | inr e => lift (Fail e)
                    end
                  else
                    throw (location_error
                      ("syntax-extend has wrong return type (expected function of type "
                       +:+ type_repr ftype +:+ " or " +:+ type_repr ftype2
                       +:+ ", got " +:+ type_repr fnT +:+ ")")) in
              let* f := deref (frame ctx) in
              match expand_inline (fn_original f) next env with
              | inr e => lift (Fail e)
              | inl nextfn => self ctx (template_value nextfn)
              end
          end
      end
  end.

(** [Keyed::from(anchor, key, value)] builds the node; no type is set on
    it. *)
Definition specialize_Keyed (ctx : ASTContext) (anchor : Anchor) (key : Symbol)
    (value : Value) : M Value :=
  let* value := self ctx value in
  ret (Keyed anchor None key value).

(** *** Constants out of values *)

Definition extract_type_constant (value : Value) : Result Ty :=
  match value with
  | ConstPointer _ T p =>
      let+ _ := verify T TYPE_Type in
      match p with
      | PtrType t => Ok t
      | _ => Abort "(const Type *)x->value"
      end
  | _ => raise_error (error_constant_expected value)
  end.

Definition extract_closure_constant (value : Value) : Result (Template * option nat) :=
  match value with
  | ConstPointer _ T p =>
      let+ _ := verify T TYPE_Closure in
      match p with
      | PtrClosure func fr => Ok (func, fr)
      | _ => Abort "(const Closure *)x->value"
      end
  | _ => raise_error (error_constant_expected value)
  end.

Definition extract_astmacro_constant (value : Value) : Result nat :=
  match value with
  | ConstPointer _ T p =>
      let+ _ := verify T TYPE_ASTMacro in
      match p with
      | PtrASTMacro fptr => Ok fptr
      | _ => Abort "(sc_ast_macro_func_t)x->value"
      end
  | _ => raise_error (error_constant_expected value)
  end.

Definition extract_list_constant (value : Value) : Result N :=
  match value with
  | ConstPointer _ T p =>
      let+ _ := verify T TYPE_List in
      match p with
      | PtrList l => Ok l
      | _ => Abort "(const List *)x->value"
      end
  | _ => raise_error (error_constant_expected value)
  end.

Definition extract_string_constant (value : Value) : Result string :=
  match value with
  | ConstPointer _ T p =>
      let+ _ := verify T TYPE_String in
      match p with
      | PtrString s => Ok s
      | _ => Abort "(const String *)x->value"
      end
  | _ => raise_error (error_constant_expected value)
  end.

Definition extract_builtin_constant (value : Value) : Result Builtin :=
  match value with
  | ConstInt _ T v =>
      let+ _ := verify T TYPE_Builtin in
      Ok (Builtin_wrap v)
  | _ => raise_error (error_constant_expected value)
  end.

Definition extract_symbol_constant (value : Value) : Result Symbol :=
  match value with
  | ConstInt _ T v =>
      let+ _ := verify T TYPE_Symbol in
      Ok (Symbol_wrap v)
  | _ => raise_error (error_constant_expected value)
  end.

Definition extract_integer_constant (value : Value) : Result N :=
  match value with
  | ConstInt _ _ v => Ok v
  | _ => raise_error (error_constant_expected value)
  end.

Definition try_get_const_type (st : State) (node : Value) : Ty :=
  if is_Const node then default TYPE_Unknown (type_of st node) else TYPE_Unknown.

Definition try_extract_string (node : Value) : option string :=
  match node with
  | ConstPointer _ T (PtrString s) =>
      if bool_decide (T = TYPE_String) then Some s else None
  | _ => None
  end.

(** *** Checks on operand types *)

(** Modelled from the spec: [verify_kind] of verify_tools.inc, which is not
    among the sources; like the checks after it, by what its name and the rule
    table say. *)
Definition verify_kind (k : TypeKind) (T : Ty) : Result unit :=
  if bool_decide (kind T = k) then Ok tt
  else raise_error (error_type_verification "type is not of the expected kind" T).
(** Modelled from the spec: [verify_integer]. *)
Definition verify_integer (T : Ty) : Result unit := verify_kind TK_Integer T.
(** Modelled from the spec: [verify_real]. *)
Definition verify_real (T : Ty) : Result unit := verify_kind TK_Real T.

(** The scalar a check on a scalar or a vector of scalars looks at. *)
Definition vector_element (T : Ty) : Ty :=
  match T with TVector e _ => e | _ => T end.
(** Modelled from the spec: [verify_integer_vector]. *)
Definition verify_integer_vector (T : Ty) : Result unit :=
  verify_integer (vector_element T).
(** Modelled from the spec: [verify_real_vector]. *)
Definition verify_real_vector (T : Ty) : Result unit :=
  verify_real (vector_element T).
(** Modelled from the spec: [verify_bool_vector]. *)
Definition verify_bool_vector (T : Ty) : Result unit :=
  if bool_decide (vector_element T = TYPE_Bool) then Ok tt
  else raise_error (error_type_verification "bool or vector of bool expected" T).
(** Modelled from the spec: [verify_vector_sizes]. *)
Definition verify_vector_sizes (T1 T2 : Ty) : Result unit :=
  match T1, T2 with
  | TVector _ n1, TVector _ n2 =>
      if bool_decide (n1 = n2) then Ok tt
      else raise_error (error_invalid_operands T1 T2)
  | TVector _ _, _ | _, TVector _ _ => raise_error (error_invalid_operands T1 T2)
  | _, _ => Ok tt
  end.

(** Modelled from the spec: [checkargs<mincount, maxcount>(argcount)]; no
    [maxcount] is [-1]. *)
Definition checkargs (mincount : nat) (maxcount : option nat) (argcount : nat)
  : Result unit :=
  match maxcount with
  | Some maxcount =>
      if bool_decide (maxcount < argcount) then
        raise_error (error_argument_count_mismatch maxcount argcount)
      else if bool_decide (argcount < mincount) then
        raise_error (error_argument_count_mismatch mincount argcount)
      else Ok tt
  | None =>
      if bool_decide (argcount < mincount) then
        raise_error (error_argument_count_mismatch mincount argcount)
      else Ok tt
  end.

Definition verify_readable (T : Ty) : Result unit :=
  match T with
  | TPointer _ flags _ =>
      if negb (is_readable flags) then
        raise_error (location_error
          ("can not load value from address of type " +:+ type_repr T
           +:+ " because the target is non-readable"))
      else Ok tt
  | _ => Abort "cast<PointerType>(T)"
  end.

Definition verify_writable (T : Ty) : Result unit :=
  match T with
  | TPointer _ flags _ =>
      if negb (is_writable flags) then
        raise_error (location_error
          ("can not store value at address of type " +:+ type_repr T
           +:+ " because the target is non-writable"))
      else Ok tt
  | _ => Abort "cast<PointerType>(T)"
  end.

Definition bool_op_return_type (T : Ty) : Result Ty :=
  let+ T := storage_type T in
  match T with
  | TVector _ count => Ok (vector_type TYPE_Bool count)
  | _ => Ok TYPE_Bool
  end.

Definition verify_integer_ops1 (x : Ty) : Result unit :=
  let+ ST := storage_type x in verify_integer_vector ST.
Definition verify_real_ops1 (x : Ty) : Result unit :=
  let+ ST := storage_type x in verify_real_vector ST.
Definition verify_integer_ops (a b : Ty) : Result unit :=
  let+ ST := storage_type a in
  let+ _ := verify_integer_vector ST in
  verify a b.
Definition verify_real_ops (a b : Ty) : Result unit :=
  let+ ST := storage_type a in
  let+ _ := verify_real_vector ST in
  verify a b.
Definition verify_real_ops3 (a b c : Ty) : Result unit :=
  let+ ST := storage_type a in
  let+ _ := verify_real_vector ST in
  let+ _ := verify a b in
  verify a c.

(** *** Calls: the builtins *)

(** [READ_TYPEOF], [READ_STORAGETYPEOF], [READ_INT_CONST] and
    [READ_TYPE_CONST] read [values[argn]]; the running [argn] of the source
    is the position written out in each rule. *)
Definition READ_VALUE (values : list Value) (argn : nat) : Result Value :=
  match values !! argn with
  | Some v => Ok v
  | None => Abort "assert(argn < argcount)"
  end.
Definition READ_TYPEOF (st : State) (values : list Value) (argn : nat) : Result Ty :=
  let+ v := READ_VALUE values argn in get_type st v.
Definition READ_STORAGETYPEOF (st : State) (values : list Value) (argn : nat)
  : Result Ty :=
  let+ T := READ_TYPEOF st values argn in storage_type T.
Definition READ_INT_CONST (values : list Value) (argn : nat) : Result N :=
  let+ v := READ_VALUE values argn in extract_integer_constant v.
Definition READ_TYPE_CONST (values : list Value) (argn : nat) : Result Ty :=
  let+ v := READ_VALUE values argn in extract_type_constant v.

(** [RETARGTYPES(...)]: the typed call. *)
Definition RETARGTYPES (anchor : Anchor) (callee : Value) (values : list Value)
    (types : list Ty) : Result Value :=
  Ok (Call anchor (Some (arguments_type types)) callee values).

(** Modelled from the spec: [cast<RealType>(T)->width]. *)
Definition real_width (T : Ty) : Result N :=
  match T with
  | TReal w => Ok w
  | _ => Abort "cast<RealType>(T)"
  end.

(** Modelled from the spec: [type_at_index] of arrays, tuples and unions. *)
Definition type_at_index (T : Ty) (idx : N) : Result Ty :=
  match T with
  | TArray e count =>
      if bool_decide (idx < count)%N then Ok e
      else raise_error (error_type_verification "index out of range" T)
  | TTuple _ values | TUnion values =>
      match values !! N.to_nat idx with
      | Some e => Ok e
      | None => raise_error (error_type_verification "index out of range" T)
      end
  | _ => Abort "cast to an aggregate type"
  end.

(** Modelled from the spec: [TupleType::field_index], the position of a
    named field. *)
Fixpoint field_index (names : list Symbol) (sym : Symbol) : option nat :=
  match names with
  | [] => None
  | n :: rest =>
      if bool_decide (n = sym) then Some 0 else S <$> field_index rest sym
  end.

(** The [while (argn < argcount)] loop of [FN_GetElementPtr]; [n] is
    [argcount - argn]. *)
Fixpoint GetElementPtr_loop (st : State) (n argn : nat) (T : Ty) (values : list Value)
  : Result (Ty * list Value) :=
  match n with
  | 0 => Ok (T, values)
  | S n =>
      let+ ST := storage_type T in
      match ST with
      | TArray element_type _ =>
          let+ arg := READ_STORAGETYPEOF st values argn in
          let+ _ := verify_integer arg in
          GetElementPtr_loop st n (S argn) element_type values
      | TTuple names _ =>
          let+ _arg := READ_VALUE values argn in
          let+ arg := extract_integer_constant _arg in
          let+ argT := get_type st _arg in
          if bool_decide (argT = TYPE_Symbol) then
            let sym := Symbol_wrap arg in
            match field_index names sym with
            | None =>
                raise_error (location_error
                  ("no such field " +:+ sym +:+ " in storage type " +:+ type_repr ST))
            | Some idx =>
                (* rewrite field *)
                let values :=
                  <[argn := ConstInt (value_anchor st _arg) TYPE_I32 (N.of_nat idx)]> values in
                let+ T := type_at_index ST (N.of_nat idx) in
                GetElementPtr_loop st n (S argn) T values
            end
          else
            let+ T := type_at_index ST arg in
            GetElementPtr_loop st n (S argn) T values
      | _ =>
          raise_error (location_error
            ("can not get element pointer from type " +:+ type_repr T))
      end
  end.

(** The [switch (b.value())] of [specialize_call_interior]: every case
    returns the typed call or an error. *)
Definition specialize_builtin_call (st : State) (anchor : Anchor) (callee : Value)
    (values : list Value) (b : Builtin) : Result Value :=
  let argcount := length values in
  match b with
  | FN_Dump => build_argument_list st anchor values
  | FN_Undef =>
      let+ _ := checkargs 1 (Some 1) argcount in
      let+ T := READ_TYPE_CONST values 0 in
      RETARGTYPES anchor callee values [T]
  | FN_TypeOf =>
      let+ _ := checkargs 1 (Some 1) argcount in
      let+ A := READ_TYPEOF st values 0 in
      Ok (ConstPointer anchor TYPE_Type (PtrType A))
  | OP_Tertiary =>
      let+ _ := checkargs 3 (Some 3) argcount in
      let+ T1 := READ_STORAGETYPEOF st values 0 in
      let+ T2 := READ_TYPEOF st values 1 in
      let+ T3 := READ_TYPEOF st values 2 in
      let+ _ := verify_bool_vector T1 in
      let+ _ := (if bool_decide (kind T1 = TK_Vector) then verify_vector_sizes T1 T2
                 else Ok tt) in
      let+ _ := verify T2 T3 in
      RETARGTYPES anchor callee values [T2]
  | FN_Bitcast =>
      let+ _ := checkargs 2 (Some 2) argcount in
      let+ _SrcT := READ_VALUE values 0 in
      let+ SrcT := get_type st _SrcT in
      let+ DestT := READ_TYPE_CONST values 1 in
      if bool_decide (SrcT = DestT) then Ok _SrcT
      else
        let+ SSrcT := storage_type SrcT in
        let+ SDestT := storage_type DestT in
        if bool_decide (canonical_typekind (kind SSrcT) <> canonical_typekind (kind SDestT))
        then
          raise_error (location_error
            ("can not bitcast value of type " +:+ type_repr SrcT
             +:+ " to type " +:+ type_repr DestT
             +:+ " because storage types are not of compatible category"))
        else
          let+ _ :=
            (if bool_decide (SSrcT <> SDestT) then
               match kind SDestT with
               | TK_Array | TK_Tuple | TK_Union =>
                   raise_error (location_error
                     ("can not bitcast value of type " +:+ type_repr SrcT
                      +:+ " to type " +:+ type_repr DestT
                      +:+ " with aggregate storage type " +:+ type_repr SDestT))
               | _ => Ok tt
               end
             else Ok tt) in
          RETARGTYPES anchor callee values [DestT]
  | FN_IntToPtr =>
      let+ _ := checkargs 2 (Some 2) argcount in
      let+ T := READ_STORAGETYPEOF st values 0 in
      let+ DestT := READ_TYPE_CONST values 1 in
      let+ _ := verify_integer T in
      let+ SDestT := storage_type DestT in
      let+ _ := verify_kind TK_Pointer SDestT in
      RETARGTYPES anchor callee values [DestT]
  | FN_PtrToInt =>
      let+ _ := checkargs 2 (Some 2) argcount in
      let+ T := READ_STORAGETYPEOF st values 0 in
      let+ DestT := READ_TYPE_CONST values 1 in
      let+ _ := verify_kind TK_Pointer T in
      let+ SDestT := storage_type DestT in
      let+ _ := verify_integer SDestT in
      RETARGTYPES anchor callee values [DestT]
  | FN_ITrunc | FN_ZExt | FN_SExt =>
      let+ _ := checkargs 2 (Some 2) argcount in
      let+ T := READ_STORAGETYPEOF st values 0 in
      let+ DestT := READ_TYPE_CONST values 1 in
      let+ _ := verify_integer T in
      let+ SDestT := storage_type DestT in
      let+ _ := verify_integer SDestT in
      RETARGTYPES anchor callee values [DestT]
  | FN_FPTrunc =>
      let+ _ := checkargs 2 (Some 2) argcount in
      let+ T := READ_STORAGETYPEOF st values 0 in
      let+ DestT := READ_TYPE_CONST values 1 in
      let+ _ := verify_real T in
      let+ SDestT := storage_type DestT in
      let+ _ := verify_real SDestT in
      let+ w := real_width T in
      let+ dw := real_width DestT in
      if bool_decide (w < dw)%N then raise_error (error_invalid_operands T DestT)
      else RETARGTYPES anchor callee values [DestT]
  | FN_FPExt =>
      let+ _ := checkargs 2 (Some 2) argcount in
      let+ T := READ_STORAGETYPEOF st values 0 in
      let+ DestT := READ_TYPE_CONST values 1 in
      let+ _ := verify_real T in
      let+ SDestT := storage_type DestT in
      let+ _ := verify_real SDestT in
      let+ w := real_width T in
      let+ dw := real_width DestT in
      if bool_decide (dw < w)%N then raise_error (error_invalid_operands T DestT)
      else RETARGTYPES anchor callee values [DestT]
  | FN_FPToUI | FN_FPToSI =>
      let+ _ := checkargs 2 (Some 2) argcount in
      let+ T := READ_STORAGETYPEOF st values 0 in
      let+ DestT := READ_TYPE_CONST values 1 in
      let+ _ := verify_real T in
      let+ SDestT := storage_type DestT in
      let+ _ := verify_integer SDestT in
      if bool_decide (T <> TYPE_F32) && bool_decide (T <> TYPE_F64) then
        raise_error (error_invalid_operands T DestT)
      else RETARGTYPES anchor callee values [DestT]
  | FN_UIToFP | FN_SIToFP =>
      let+ _ := checkargs 2 (Some 2) argcount in
      let+ T := READ_STORAGETYPEOF st values 0 in
      let+ DestT := READ_TYPE_CONST values 1 in
      let+ _ := verify_integer T in
      let+ SDestT := storage_type DestT in
      let+ _ := verify_real SDestT in
      if bool_decide (DestT <> TYPE_F32) && bool_decide (DestT <> TYPE_F64) then
        raise_error (error_invalid_operands T DestT)
      else RETARGTYPES anchor callee values [DestT]
  | FN_ExtractValue =>
      let+ _ := checkargs 2 (Some 2) argcount in
      let+ T := READ_STORAGETYPEOF st values 0 in
      let+ idx := READ_INT_CONST values 1 in
      match kind T with
      | TK_Array | TK_Tuple | TK_Union =>
          let+ E := type_at_index T idx in
          RETARGTYPES anchor callee values [E]
      | _ =>
          raise_error (location_error ("can not extract value from type " +:+ type_repr T))
      end
  | FN_InsertValue =>
      let+ _ := checkargs 3 (Some 3) argcount in
      let+ AT := READ_TYPEOF st values 0 in
      let+ ET := READ_STORAGETYPEOF st values 1 in
      let+ idx := READ_INT_CONST values 2 in
      let+ T := storage_type AT in
      match kind T with
      | TK_Array | TK_Tuple | TK_Union =>
          let+ E := type_at_index T idx in
          let+ SE := storage_type E in
          let+ _ := verify SE ET in
          RETARGTYPES anchor callee values [AT]
      | _ =>
          raise_error (location_error ("can not insert value into type " +:+ type_repr T))
      end
  | FN_GetElementPtr =>
      let+ _ := checkargs 2 None argcount in
      let+ T := READ_STORAGETYPEOF st values 0 in
      let+ _ := verify_kind TK_Pointer T in
      match T with
      | TPointer element_type flags storage_class =>
          let+ arg := READ_STORAGETYPEOF st values 1 in
          let+ _ := verify_integer arg in
          let+ (T, values) := GetElementPtr_loop st (argcount - 2) 2 element_type values in
          RETARGTYPES anchor callee values [pointer_type T flags storage_class]
      | _ => Abort "cast<PointerType>(T)"
      end
  | FN_VolatileLoad | FN_Load =>
      let+ _ := checkargs 1 (Some 1) argcount in
      let+ T := READ_STORAGETYPEOF st values 0 in
      let+ _ := verify_kind TK_Pointer T in
      let+ _ := verify_readable T in
      match T with
      | TPointer element_type _ _ => RETARGTYPES anchor callee values [element_type]
      | _ => Abort "cast<PointerType>(T)"
      end
  | FN_VolatileStore | FN_Store =>
      let+ _ := checkargs 2 (Some 2) argcount in
      let+ ElemT := READ_STORAGETYPEOF st values 0 in
      let+ DestT := READ_STORAGETYPEOF st values 1 in
      let+ _ := verify_kind TK_Pointer DestT in
      let+ _ := verify_writable DestT in
      match DestT with
      | TPointer element_type _ _ =>
          let+ SE := storage_type element_type in
          let+ _ := verify SE ElemT in
          RETARGTYPES anchor callee values []
      | _ => Abort "cast<PointerType>(DestT)"
      end
  | FN_Alloca =>
      let+ _ := checkargs 1 (Some 1) argcount in
      let+ T := READ_TYPE_CONST values 0 in
      RETARGTYPES anchor callee values [local_pointer_type T]
  | FN_AllocaArray =>
      let+ _ := checkargs 2 (Some 2) argcount in
      let+ T := READ_TYPE_CONST values 0 in
      let+ size := READ_STORAGETYPEOF st values 1 in
      let+ _ := verify_integer size in
      RETARGTYPES anchor callee values [local_pointer_type T]
  | FN_Malloc =>
      let+ _ := checkargs 1 (Some 1) argcount in
      let+ T := READ_TYPE_CONST values 0 in
      RETARGTYPES anchor callee values [native_pointer_type T]
  | FN_MallocArray =>
      let+ _ := checkargs 2 (Some 2) argcount in
      let+ T := READ_TYPE_CONST values 0 in
      let+ size := READ_STORAGETYPEOF st values 1 in
      let+ _ := verify_integer size in
      RETARGTYPES anchor callee values [native_pointer_type T]
  | FN_Free =>
      let+ _ := checkargs 1 (Some 1) argcount in
      let+ T := READ_STORAGETYPEOF st values 0 in
      let+ _ := verify_writable T in
      match T with
      | TPointer _ _ storage_class =>
          if bool_decide (storage_class <> SYM_Unnamed) then
            raise_error (location_error "pointer is not a heap pointer")
          else RETARGTYPES anchor callee values []
      | _ => Abort "cast<PointerType>(T)"
      end
  | OP_ICmpEQ | OP_ICmpNE | OP_ICmpUGT | OP_ICmpUGE | OP_ICmpULT | OP_ICmpULE
  | OP_ICmpSGT | OP_ICmpSGE | OP_ICmpSLT | OP_ICmpSLE =>
      let+ _ := checkargs 2 (Some 2) argcount in
      let+ A := READ_TYPEOF st values 0 in
      let+ B := READ_TYPEOF st values 1 in
      let+ _ := verify_integer_ops A B in
      let+ R := bool_op_return_type A in
      RETARGTYPES anchor callee values [R]
  | OP_FCmpOEQ | OP_FCmpONE | OP_FCmpORD | OP_FCmpOGT | OP_FCmpOGE | OP_FCmpOLT
  | OP_FCmpOLE | OP_FCmpUEQ | OP_FCmpUNE | OP_FCmpUNO | OP_FCmpUGT | OP_FCmpUGE
  | OP_FCmpULT | OP_FCmpULE =>
      let+ _ := checkargs 2 (Some 2) argcount in
      let+ A := READ_TYPEOF st values 0 in
      let+ B := READ_TYPEOF st values 1 in
      let+ _ := verify_real_ops A B in
      let+ R := bool_op_return_type A in
      RETARGTYPES anchor callee values [R]
  | OP_Add | OP_AddNUW | OP_AddNSW | OP_Sub | OP_SubNUW | OP_SubNSW
  | OP_Mul | OP_MulNUW | OP_MulNSW
  | OP_SDiv | OP_UDiv | OP_SRem | OP_URem | OP_BAnd | OP_BOr | OP_BXor
  | OP_Shl | OP_LShr | OP_AShr =>
      let+ _ := checkargs 2 (Some 2) argcount in
      let+ A := READ_TYPEOF st values 0 in
      let+ B := READ_TYPEOF st values 1 in
      let+ _ := verify_integer_ops A B in
      RETARGTYPES anchor callee values [A]
  | OP_FAdd | OP_FSub | OP_FMul | OP_FDiv | OP_FRem | OP_Atan2 | OP_Step | OP_Pow =>
      let+ _ := checkargs 2 (Some 2) argcount in
      let+ A := READ_TYPEOF st values 0 in
      let+ B := READ_TYPEOF st values 1 in
      let+ _ := verify_real_ops A B in
      RETARGTYPES anchor callee values [A]
  | OP_FMix =>
      let+ _ := checkargs 3 (Some 3) argcount in
      let+ A := READ_TYPEOF st values 0 in
      let+ B := READ_TYPEOF st values 1 in
      let+ C := READ_TYPEOF st values 2 in
      let+ _ := verify_real_ops3 A B C in
      RETARGTYPES anchor callee values [A]
  | OP_SSign =>
      let+ _ := checkargs 1 (Some 1) argcount in
      let+ A := READ_TYPEOF st values 0 in
      let+ _ := verify_integer_ops1 A in
      RETARGTYPES anchor callee values [A]
  | OP_FAbs | OP_FSign | OP_Radians | OP_Degrees | OP_Sin | OP_Cos | OP_Tan
  | OP_Asin | OP_Acos | OP_Atan | OP_Exp | OP_Log | OP_Exp2 | OP_Log2
  | OP_Trunc | OP_Floor | OP_Sqrt | OP_InverseSqrt =>
      let+ _ := checkargs 1 (Some 1) argcount in
      let+ A := READ_TYPEOF st values 0 in
      let+ _ := verify_real_ops1 A in
      RETARGTYPES anchor callee values [A]
  | KnownSymbol_other _ => raise_error (error_cannot_type_builtin b)
  end.

(** *** Calls *)

(** Modelled from the spec: [extract_function_type], the function type a
    function pointer points to. *)
Definition extract_function_type (T : Ty) : Result (Ty * Ty * list Ty) :=
  match T with
  | TPointer (TFunction except_type return_type argument_types) _ _ =>
      Ok (except_type, return_type, argument_types)
  | _ => Abort "extract_function_type"
  end.

(** The loop that checks the arguments against the signature. *)
Fixpoint verify_function_argument_signature (st : State) (values : list Value)
    (argument_types : list Ty) : Result unit :=
  match values, argument_types with
  | v :: values, Tb :: argument_types =>
      let+ Ta := get_type st v in
      let+ _ :=
        (if bool_decide (Ta = Tb) then Ok tt
         else
           let+ Ta := storage_type Ta in
           let+ Tb := storage_type Tb in
           match Ta, Tb with
           | TPointer ea fa sa, TPointer eb fb sb =>
               if bool_decide (ea = eb) && pointer_flags_compatible fb fa
                  && pointer_storage_classes_compatible sb sa
               then Ok tt
               else raise_error (error_argument_type_mismatch Tb Ta)
           | _, _ => raise_error (error_argument_type_mismatch Tb Ta)
           end) in
      verify_function_argument_signature st values argument_types
  | _, _ => Ok tt
  end.

(** The end of [specialize_call_interior]: a call through a function
    pointer of type [T]. *)
Definition specialize_call_pointer (ctx : ASTContext) (anchor : Anchor)
    (callee : Value) (values : list Value) (T : Ty) : M Value :=
  if negb (is_function_pointer T) then throw (error_invalid_call_type callee)
  else
    let* (ft, argument_types) := lift (extract_function_type T) in
    let (except_type, return_type) := ft : Ty * Ty in
    let numargs := length argument_types in
    if bool_decide (length values <> numargs) then
      throw (error_argument_count_mismatch numargs (length values))
    else
      let* st := get_state in
      lift (verify_function_argument_signature st values argument_types);;
      let newcall := Call anchor (Some return_type) callee values in
      (if has_exception except_type then
         match frame ctx with
         | None => abort "assert(ctx.frame)"
         | Some fr =>
             let* f := deref (Some fr) in
             let* E := lift (merge_return_type (fn_except_type f) (Some except_type)) in
             update fr (set_except_type (Some E))
         end
       else ret tt);;
      ret newcall.

(** The type of a specialized closure callee: its final type when it is
    complete, else the type assembled from what is known of it so far. *)
Definition closure_callee_type (fn : nat) : M Ty :=
  let* f := deref (Some fn) in
  if fn_complete f then get_type_of (VFunction fn)
  else if bool_decide (is_Some (fn_return_type f)) then lift (get_function_type f)
  else
    let* ready := wait_for_return_type fn in
    if ready then
      let* f := deref (Some fn) in
      lift (get_function_type f)
    else throw error_untyped_recursive_call.

Definition specialize_call_interior (ctx : ASTContext) (anchor : Anchor)
    (callee : Value) (args : list Value) : M Value :=
  let subctx := with_symbol_target ctx in
  let* callee := self subctx callee in
  let* values := specialize_arguments ctx [] args in
  let* T := get_type_of callee in
  if bool_decide (T = TYPE_Closure) then
    let* (func, fr) := lift (extract_closure_constant callee) in
    if is_inline func then specialize_inline ctx fr func values
    else
      let* st := get_state in
      let* types := lift (types_of st values) in
      let* fn := specialize_instance fr func types in
      let callee := VFunction fn in
      let* T := closure_callee_type fn in
      specialize_call_pointer ctx anchor callee values T
  else if bool_decide (T = TYPE_ASTMacro) then
    let* fptr := lift (extract_astmacro_constant callee) in
    match call_ast_macro fptr values with
    | inl value => self ctx value
    | inr e => lift (Fail e)
    end
  else if bool_decide (T = TYPE_Builtin) then
    let* b := lift (extract_builtin_constant callee) in
    let* st := get_state in
    lift (specialize_builtin_call st anchor callee values b)
  else specialize_call_pointer ctx anchor callee values T.

Definition specialize_Call (ctx : ASTContext) (call : Value) (anchor : Anchor)
    (callee : Value) (args : list Value) : M Value :=
  let* result := catch (specialize_call_interior ctx anchor callee args) in
  match result with
  | inl v => ret v
  | inr e => lift (Fail (add_error_trace call e))
  end.

(** *** Symbols, conditionals, templates, functions *)

Definition specialize_SymbolValue (ctx : ASTContext) (sym : SymbolValue) : M Value :=
  let* value := frame_resolve ctx (VSymbolValue sym) in
  match value with
  | None => throw (error_unbound_symbol sym)
  | Some value => ret value
  end.

(** The first loop of [specialize_If]: resolve the conditions.  Returns the
    clauses that stay and the else clause. *)
Fixpoint specialize_If_clauses (subctx : ASTContext) (todo clauses : list Clause)
    (else_clause : Clause) : M (list Clause * Clause) :=
  match todo with
  | [] => ret (clauses, mkClause (clause_anchor else_clause) None (clause_value else_clause))
  | clause :: rest =>
      match clause_cond clause with
      | None => abort "null condition"
      | Some cond =>
          let* newcond := self subctx cond in
          let* T := get_type_of newcond in
          if bool_decide (T <> TYPE_Bool) then
            throw (error_invalid_condition_type newcond)
          else
            match newcond with
            | ConstInt _ _ value =>
                if negb (N.eqb value 0) then
                  (* always true - the remainder will not be evaluated *)
                  ret (clauses, mkClause (clause_anchor clause) None (clause_value clause))
                else
                  (* always false - this block will never be evaluated *)
                  specialize_If_clauses subctx rest clauses else_clause
            | _ =>
                specialize_If_clauses subctx rest
                  (clauses ++ [mkClause (clause_anchor clause) (Some newcond)
                                 (clause_value clause)])
                  else_clause
            end
      end
  end.

(** The last loop of [specialize_If]: join the types of the branches. *)
Fixpoint merge_branch_types (ctx : ASTContext) (st : State) (rtype : option Ty)
    (values : list Value) : Result (option Ty) :=
  match values with
  | [] => Ok rtype
  | v :: rest =>
      let+ T := get_type st v in
      let+ rtype := merge_value_type ctx rtype (Some T) in
      merge_branch_types ctx st (Some rtype) rest
  end.

Definition set_clause_value (c : Clause) (v : Value) : Clause :=
  mkClause (clause_anchor c) (clause_cond c) v.

Definition specialize_If (ctx : ASTContext) (anchor : Anchor) (_clauses : list Clause)
    (_else_clause : Clause) : M Value :=
  match _clauses with
  | [] => abort "assert(!_if->clauses.empty())"
  | _ =>
      let subctx := with_symbol_target ctx in
      let* (clauses, else_clause) :=
        specialize_If_clauses subctx _clauses [] _else_clause in
      (* run a suspendable job for each branch *)
      let values := (clause_value <$> clauses) ++ [clause_value else_clause] in
      let* values := specialize_jobs ctx values in
      let* st := get_state in
      let* rtype := lift (merge_branch_types ctx st None values) in
      let clauses := zip_with set_clause_value clauses values in
      match last values, rtype with
      | Some else_value, Some rtype =>
          let else_clause := set_clause_value else_clause else_value in
          match clauses with
          | [] =>
              (* else is always selected *)
              ret (clause_value else_clause)
          | _ =>
              ret (If anchor (Some (transform_return_type ctx rtype)) clauses else_clause)
          end
      | _, _ => abort "no branch"
      end
  end.

Definition specialize_Template (ctx : ASTContext) (_template : Template) : M Value :=
  match template_scope _template with
  | None => abort "assert(_template->scope)"
  | Some scope =>
      let* fr := find_frame ctx scope in
      match fr with
      | None => throw (error_cannot_find_frame _template)
      | Some fr =>
          ret (ConstPointer (template_anchor _template) TYPE_Closure
                 (PtrClosure _template (Some fr)))
      end
  end.

Definition specialize_Function (ctx : ASTContext) (fn : nat) : M Value :=
  ret (VFunction fn).

(** *** Dispatch *)

(** [switch(node->kind())]. *)
Definition specialize_kind (ctx : ASTContext) (node : Value) : M Value :=
  match node with
  | VTemplate t => specialize_Template ctx t
  | VFunction fn => specialize_Function ctx fn
  | VSymbolValue s => specialize_SymbolValue ctx s
  | ConstInt _ _ _ | ConstReal _ _ _ | ConstPointer _ _ _ | ConstTuple _ _ _
  | ConstArray _ _ _ | ConstVector _ _ _ | Extern _ _ _ => ret node
  | ArgumentList anchor _ values => specialize_ArgumentList ctx anchor values
  | ExtractArgument _ _ value index => specialize_ExtractArgument ctx value index
  | Call anchor _ callee args => specialize_Call ctx node anchor callee args
  | Let anchor _ params args => specialize_Let ctx anchor params args
  | Loop anchor _ params args value _ => specialize_Loop ctx anchor params args value
  | If anchor _ clauses else_clause => specialize_If ctx anchor clauses else_clause
  | Break anchor _ value => specialize_Break ctx anchor value
  | Repeat anchor _ args => specialize_Repeat ctx anchor args
  | Return anchor _ value => specialize_Return ctx anchor value
  | Raise anchor _ value => specialize_Raise ctx anchor value
  | Try _ _ try_body except_body => specialize_Try ctx try_body except_body
  | Block anchor _ body value => specialize_Block ctx anchor body value
  | Keyed anchor _ key value => specialize_Keyed ctx anchor key value
  | SyntaxExtend anchor _ func next env => specialize_SyntaxExtend ctx anchor func next env
  end.

(** The body of [specialize(ctx, node)]. *)
Definition specialize_node (ctx : ASTContext) (node : Value) : M Value :=
  let* resolved := frame_resolve ctx node in
  let* st := get_state in
  match resolved, is_typed st node with
  | None, true => ret node
  | _, typed =>
      let* result :=
        match resolved with
        | Some result => ret result
        | None => if typed then ret node else specialize_kind ctx node
        end in
      if bool_decide (target ctx = EvalTarget_Return) then
        let* T := get_type_of result in
        if is_returning T then
          let* anchor := anchor_of result in
          make_return ctx anchor result
        else ret result
      else ret result
  end.
End Rules.

(** ** Tying the knot *)

(** [specialize(ctx, node)], with fuel for the recursion through templates,
    macros and the job queue. *)
Fixpoint specialize `{Externals} (fuel : nat) (ctx : ASTContext) (node : Value) : M Value :=
  match fuel with
  | 0 => lift OutOfFuel
  | S fuel => specialize_node (specialize fuel) fuel ctx node
  end.

(** [specialize(frame, func, types)] from the outside. *)
Definition specialize_function `{Externals} (fuel : nat) (fr : option nat)
    (func : Template) (types : list Ty) : M nat :=
  specialize_instance (specialize fuel) fr func types.

(** ** A plain instance of the external collaborators

    Enough of them to run the specializer on concrete graphs: a short table
    of builtin tags, a printer that does not look at the type, no macros and
    no code generator. *)

Definition builtin_table : list Builtin :=
  [FN_Dump; FN_Undef; FN_TypeOf; OP_Tertiary; FN_Bitcast; FN_Load;
   FN_VolatileLoad; FN_Store; OP_Add; OP_Mul; OP_ICmpEQ].

Definition plain_externals : Externals := {|
  Builtin_wrap := fun n => default (KnownSymbol_other n) (builtin_table !! N.to_nat n);
  Symbol_wrap := fun n => "field";
  type_repr := fun T => "<type>";
  Block_canonicalize := fun v => match v with Block _ _ [] value => value | _ => v end;
  pointer_flags_compatible := fun dest src => N.eqb dest src;
  call_ast_macro := fun _ _ => inr (mkError (error_external 0) []);
  compile := fun _ _ => inr (mkError (error_external 1) []);
  call_scope_function := fun _ env => env;
  call_raising_scope_function := fun _ env => inl env;
  expand_inline := fun _ _ _ => inr (mkError (error_external 2) []);
|}.

(** ** Sample graphs *)

Definition const_one : Value := ConstInt 0 TYPE_I32 1.
Definition const_true : Value := ConstInt 0 TYPE_Bool 1.
Definition const_string : Value := ConstPointer 0 TYPE_String (PtrString "s").

(** A let that binds nothing, as [specialize_Let] types it. *)
Definition empty_let : Value := Let 0 (Some empty_arguments_type) [] [].

(** An already specialized return. *)
Definition typed_return : Value := Return 0 (Some TYPE_NoReturn) const_one.

(** A frame with nothing bound in it, and the store that holds just it. *)
Definition top_frame : Function :=
  mkFunction 0 "top" [] const_one None None (Some TYPE_NoReturn) (Some TYPE_NoReturn)
    [] false None ∅.
Definition top_state : State := mkState [top_frame] [] [] [] [] 0.
Definition symbol_ctx : ASTContext := mkASTContext (Some 0) EvalTarget_Symbol None None.
Definition return_ctx : ASTContext := mkASTContext (Some 0) EvalTarget_Return None None.

(** Parameters [x : i32], [rest...], [y]: the variadic one is not last. *)
Definition param_x : SymbolValue := mkSymbolValue 0 10 "x" (Some TYPE_I32).
Definition param_rest : SymbolValue := mkSymbolValue 0 11 "rest..." None.
Definition param_y : SymbolValue := mkSymbolValue 0 12 "y" None.
Definition misplaced_variadic : Template :=
  mkTemplate 0 100 "f" [param_x; param_rest; param_y] (Return 0 None const_one) None false.

(** A function that calls itself in its first branch and returns 1 in its
    else branch: [fn g (c) (if c (g c) (return 1))].  The name [g] is bound, in
    the enclosing frame, to the closure of the template. *)
Definition self_symbol : SymbolValue := mkSymbolValue 0 50 "g" None.
Definition cond_symbol : SymbolValue := mkSymbolValue 0 60 "c" None.
Definition recursive_template : Template :=
  mkTemplate 0 101 "g" [cond_symbol]
    (If 1 None
       [mkClause 2 (Some (VSymbolValue cond_symbol))
          (Call 3 None (VSymbolValue self_symbol) [VSymbolValue cond_symbol])]
       (mkClause 4 None (Return 5 None const_one)))
    None false.
Definition recursive_frame : Function :=
  mkFunction 0 "top" [] const_one None None (Some TYPE_NoReturn) (Some TYPE_NoReturn)
    [] false None
    (<[50 := ConstPointer 0 TYPE_Closure (PtrClosure recursive_template (Some 0))]> ∅).
Definition recursive_state : State := mkState [recursive_frame] [] [] [] [] 0.
(** The parameter [c] once it is specialized. *)
Definition cond_param : SymbolValue := mkSymbolValue 0 0 "c" (Some TYPE_Bool).

(** The function [g] as it stands when the call in its first branch is
    specialized: cached, incomplete, [return_type] still [NoReturn]; and the
    store at that moment, with the job of the else branch waiting. *)
Definition incomplete_function : Function :=
  mkFunction 0 "g" [cond_param] (template_value recursive_template)
    (Some recursive_template) (Some 0) (Some TYPE_NoReturn) (Some TYPE_NoReturn)
    [TYPE_Bool] false None (<[60 := VSymbolValue cond_param]> ∅).
Definition waiting_state : State :=
  mkState [recursive_frame; incomplete_function] [1] []
    [mkSpecializeJob (mkASTContext (Some 1) EvalTarget_Return None None)
       (Return 5 None const_one) 0]
    [None] 1.

(** A condition that is not a constant, an inline template that returns, and
    the builtin [Add] on a parameter. *)
Definition opaque_cond : Value := VSymbolValue cond_param.
Definition inline_template : Template :=
  mkTemplate 0 102 "h" [] (Return 5 None const_one) None true.
Definition inline_closure : Value :=
  ConstPointer 0 TYPE_Closure (PtrClosure inline_template (Some 0)).
Definition add_callee : Value := ConstInt 0 TYPE_Builtin 8.
Definition let_symbol : SymbolValue := mkSymbolValue 0 70 "x" None.

(** A function whose body is a typed constant: [fn f () 1]. *)
Definition constant_template : Template := mkTemplate 0 100 "f" [] const_one None false.

(** A value labelled with a key. *)
Definition keyed_one : Value := Keyed 0 None "key" const_one.

(** [if true 1 else "s"]. *)
Definition true_clause : Clause := mkClause 2 (Some const_true) const_one.
Definition string_else : Clause := mkClause 3 None const_string.

(** The builtins [Bitcast] and [Load] as callees, a pointer that may not be
    read, and the type [i32] as a constant. *)
Definition bitcast_callee : Value := ConstInt 0 TYPE_Builtin 4.
Definition load_callee : Value := ConstInt 0 TYPE_Builtin 5.
Definition unreadable_pointer : Value :=
  ConstPointer 0 (TPointer TYPE_I32 PTF_NonReadable SYM_Unnamed) (PtrRaw 0).
Definition i32_constant : Value := ConstPointer 0 TYPE_Type (PtrType TYPE_I32).

(** What a result carries when it is a value. *)
Definition merged (r : Result Ty) : option Ty :=
  match r with Ok T => Some T | _ => None end.

(** [needle] occurs in [hay]. *)
Definition includes (needle hay : string) : Prop :=
  exists pre post, hay = pre +:+ needle +:+ post.

(** The loop of [specialize_arguments] over arguments that are followed by
    another one: what it does to each argument that is not the last. *)
Fixpoint specialize_arguments_front (self : ASTContext -> Value -> M Value)
    (subctx : ASTContext) (outargs values : list Value) : M (list Value) :=
  match values with
  | [] => ret outargs
  | v :: rest =>
      let* value := self subctx v in
      let* T := get_type_of value in
      if negb (is_returning T) then throw error_noreturn_not_last_expression
      else if is_arguments_type T then
        let* rt := lift (tuple_storage T) in
        let* st := get_state in
        let* value := lift (extract_argument st value 0) in
        specialize_arguments_front self subctx (outargs ++ [value]) rest
      else specialize_arguments_front self subctx (outargs ++ [value]) rest
  end.

(** A variadic parameter that is not the last one. *)
Definition variadic_not_last (params : list SymbolValue) : Prop :=
  exists pre p post, params = pre ++ p :: post /\ is_variadic p = true /\ post <> [].

(** The typed parameters before the first variadic one have the types
    supplied for them; [i] is the position of the first of [params]. *)
Fixpoint typed_params_agree (i : nat) (params : list SymbolValue) (types : list Ty) : Prop :=
  match params with
  | [] => True
  | p :: rest =>
      if is_variadic p then True
      else match sym_type p with
           | Some Tp => Tp = default TYPE_Nothing (types !! i)
           | None => True
           end /\ typed_params_agree (S i) rest types
  end.

(** The store [st'] has the frames of [st], with the types they had. *)
Definition keeps_types (st st' : State) : Prop :=
  length (heap st') = length (heap st)
  /\ forall v T, type_of st v = Some T -> type_of st' v = Some T.

(** ** More sample graphs and vocabulary *)

(** The store of [top_state] seen from a statement position. *)
Definition void_ctx : ASTContext := mkASTContext (Some 0) EvalTarget_Void None None.

(** A frame that specializes the inline template [h], inside [top_frame]. *)
Definition inline_frame : Function :=
  mkFunction 0 "h" [] const_one (Some inline_template) (Some 0) (Some TYPE_NoReturn)
    (Some TYPE_NoReturn) [] false None ∅.
Definition inline_state : State := mkState [top_frame; inline_frame] [] [] [] [] 0.
Definition inline_ctx : ASTContext := mkASTContext (Some 1) EvalTarget_Symbol None None.

(** The builtins of [SCOPES_ARITH_OPS] that take two operands
    ([IARITH_NUW_NSW_OPS], [IARITH_OP] and [FARITH_OP]). *)
Definition is_binary_arithmetic (b : Builtin) : bool :=
  match b with
  | OP_Add | OP_AddNUW | OP_AddNSW | OP_Sub | OP_SubNUW | OP_SubNSW
  | OP_Mul | OP_MulNUW | OP_MulNSW
  | OP_SDiv | OP_UDiv | OP_SRem | OP_URem | OP_BAnd | OP_BOr | OP_BXor
  | OP_Shl | OP_LShr | OP_AShr
  | OP_FAdd | OP_FSub | OP_FMul | OP_FDiv | OP_FRem | OP_Atan2 | OP_Step | OP_Pow => true
  | _ => false
  end.

(** The integer and the real comparisons. *)
Definition is_comparison (b : Builtin) : bool :=
  match b with
  | OP_ICmpEQ | OP_ICmpNE | OP_ICmpUGT | OP_ICmpUGE | OP_ICmpULT | OP_ICmpULE
  | OP_ICmpSGT | OP_ICmpSGE | OP_ICmpSLT | OP_ICmpSLE
  | OP_FCmpOEQ | OP_FCmpONE | OP_FCmpORD | OP_FCmpOGT | OP_FCmpOGE | OP_FCmpOLT
  | OP_FCmpOLE | OP_FCmpUEQ | OP_FCmpUNE | OP_FCmpUNO | OP_FCmpUGT | OP_FCmpUGE
  | OP_FCmpULT | OP_FCmpULE => true
  | _ => false
  end.

(** Operands for the builtins: a vector of four [i32], a real, the type
    [f64] as a constant, a pointer that may not be written and a pointer into
    the stack. *)
Definition vector_of_i32 : Value := ConstVector 0 (TVector TYPE_I32 4) [].
Definition const_f32 : Value := ConstReal 0 TYPE_F32 0.
Definition f64_constant : Value := ConstPointer 0 TYPE_Type (PtrType TYPE_F64).
Definition readonly_pointer : Value :=
  ConstPointer 0 (TPointer TYPE_I32 PTF_NonWritable SYM_Unnamed) (PtrRaw 0).
Definition stack_pointer : Value :=
  ConstPointer 0 (TPointer TYPE_I32 0 SYM_SPIRV_StorageClassFunction) (PtrRaw 0).

(** A pointer to a tuple with the fields [first : i32] and [field : f32], and
    a field name as [GetElementPtr] takes it. *)
Definition pair_type : Ty := TTuple ["first"; "field"] [TYPE_I32; TYPE_F32].
Definition pair_pointer : Value :=
  ConstPointer 0 (TPointer pair_type PTF_NonWritable SYM_Unnamed) (PtrRaw 0).
Definition field_name : Value := ConstInt 9 TYPE_Symbol 0.

(** [element_path st T args T' args']: the indices [args], followed from a
    value of type [T], lead to an element of type [T'], and [args'] are the
    indices as [GetElementPtr] leaves them.  An array takes any index of an
    integer type and leads to its element type.  A tuple takes a constant:
    a field number leads to the type of that field and stays; a field name
    leads to the type of the field of that name, and the number of that field,
    as an [i32] constant at the anchor of the name, takes its place. *)
Inductive element_path `{Externals} (st : State)
  : Ty -> list Value -> Ty -> list Value -> Prop :=
| element_path_end T :
    element_path st T [] T []
| element_path_array T e n arg A SA args T' args' :
    storage_type T = Ok (TArray e n) ->
    type_of st arg = Some A ->
    storage_type A = Ok SA ->
    kind SA = TK_Integer ->
    element_path st e args T' args' ->
    element_path st T (arg :: args) T' (arg :: args')
| element_path_field_number T names Ts a AT idx E args T' args' :
    storage_type T = Ok (TTuple names Ts) ->
    AT <> TYPE_Symbol ->
    Ts !! N.to_nat idx = Some E ->
    element_path st E args T' args' ->
    element_path st T (ConstInt a AT idx :: args) T' (ConstInt a AT idx :: args')
| element_path_field_name T names Ts a name idx E args T' args' :
    storage_type T = Ok (TTuple names Ts) ->
    field_index names (Symbol_wrap name) = Some idx ->
    Ts !! idx = Some E ->
    element_path st E args T' args' ->
    element_path st T (ConstInt a TYPE_Symbol name :: args) T'
      (ConstInt a TYPE_I32 (N.of_nat idx) :: args').

(** The callee is none of the three kinds of constant a call is resolved
    for while specializing. *)
Definition called_by_pointer (T : Ty) : Prop :=
  T <> TYPE_Closure /\ T <> TYPE_ASTMacro /\ T <> TYPE_Builtin.

(** A pointer to a function from [i32] to [i32] that raises [Error]. *)
Definition raising_callee : Value :=
  Extern 0 (native_ro_pointer_type (raising_function_type TYPE_Error TYPE_I32 [TYPE_I32])) "f".

(** A new parameter has the type of the argument bound to it. *)
Definition typed_like (st : State) (p : SymbolValue) (a : Value) : Prop :=
  sym_type p = type_of st a.

(** A template declared in the scope of template 100, and a store whose one
    frame specializes template 100. *)
Definition nested_template : Template :=
  mkTemplate 0 103 "k" [] const_one (Some 100) false.
Definition scope_frame : Function :=
  mkFunction 0 "f" [] const_one (Some constant_template) None (Some TYPE_NoReturn)
    (Some TYPE_NoReturn) [] false None ∅.
Definition scope_state : State := mkState [scope_frame] [] [] [] [] 0.

(** A clause whose condition is the number 1. *)
Definition non_bool_clause : Clause := mkClause 2 (Some const_one) const_one.

(** An inline template without parameters whose body is a constant. *)
Definition constant_inline_template : Template :=
  mkTemplate 0 104 "one" [] const_one None true.

(** [leaves_inline h a b]: going up from frame [a] through frames whose
    template is marked inline, and only through them, reaches frame [b]. *)
Inductive leaves_inline (h : list Function) : nat -> nat -> Prop :=
| leaves_inline_here a : leaves_inline h a a
| leaves_inline_up a f up b :
    h !! a = Some f ->
    from_option is_inline false (fn_original f) = true ->
    fn_frame f = Some up ->
    leaves_inline h up b ->
    leaves_inline h a b.

(** Runs of the job queue. *)

(** The jobs [specialize_jobs] queues for [nodes]: one per node, in order,
    the result of job [i] going to slot [base + i]. *)
Definition branch_jobs (ctx : ASTContext) (base : nat) (nodes : list Value)
  : list SpecializeJob :=
  imap (fun i node => mkSpecializeJob ctx node (base + i)) nodes.

(** The store once [specialize_jobs] has queued the jobs of [nodes] and
    reserved their slots. *)
Definition queued (ctx : ASTContext) (nodes : list Value) (st : State) : State :=
  with_jobs (jobs st ++ branch_jobs ctx (length (slots st)) nodes)
    (with_slots (slots st ++ replicate (length nodes) None) st).

(** [jobs_run self q st rs st']: the queue of [st] is [q], and its jobs, run
    by [self] one after the other from [st], end in [st'] with the outcomes
    [rs], a value or a reported error each.  Every job finds the jobs after
    it in the queue and leaves them there, keeps the slots it finds, and has
    its outcome written to its slot before the next job starts. *)
Inductive jobs_run (self : ASTContext -> Value -> M Value)
  : list SpecializeJob -> State -> list (Value + Error) -> State -> Prop :=
| jobs_run_nil st :
    jobs st = [] ->
    jobs_run self [] st [] st
| jobs_run_cons job rest st r st1 rs st' :
    jobs st = job :: rest ->
    catch (self (job_ctx job) (job_node job)) (with_jobs rest st) = (Ok r, st1) ->
    jobs st1 = rest ->
    slots st `prefix_of` slots st1 ->
    jobs_run self rest (with_slots (<[job_slot job := Some r]> (slots st1)) st1) rs st' ->
    jobs_run self (job :: rest) st (r :: rs) st'.

(** The values of a list of outcomes, or the first error among them. *)
Fixpoint gathered (rs : list (Value + Error)) : Result (list Value) :=
  match rs with
  | [] => Ok []
  | inl v :: rs => let+ vs := gathered rs in Ok (v :: vs)
  | inr e :: _ => Fail e
  end.





(** A queue of two jobs, the first on a symbol nothing is bound to, and the
    error that job reports. *)
Definition unbound_job : SpecializeJob :=
  mkSpecializeJob symbol_ctx (VSymbolValue let_symbol) 0.
Definition constant_job : SpecializeJob := mkSpecializeJob symbol_ctx const_one 1.
Definition two_jobs_state : State :=
  mkState [top_frame] [] [] [unbound_job; constant_job] [None; None] 0.
Definition unbound_error : Error := mkError (error_unbound_symbol let_symbol) [].

(** ** Laws of the monad *)

Lemma bind_Ok {A B} (m : M A) (k : A -> M B) st a st' :
  m st = (Ok a, st') -> bind m k st = k a st'.
Proof. intros Hm. unfold bind. by rewrite Hm. Qed.

Lemma bind_Fail {A B} (m : M A) (k : A -> M B) st e st' :
  m st = (Fail e, st') -> bind m k st = (Fail e, st').
Proof. intros Hm. unfold bind. by rewrite Hm. Qed.

Lemma bind_assoc {A B C} (m : M A) (k : A -> M B) (g : B -> M C) st :
  bind (bind m k) g st = bind m (fun x => bind (k x) g) st.
Proof. unfold bind. destruct (m st) as [[a | e | w |] st']; reflexivity. Qed.

Lemma bind_ext {A B} (m : M A) (k1 k2 : A -> M B) st :
  (forall a st', k1 a st' = k2 a st') -> bind m k1 st = bind m k2 st.
Proof.
  intros Hk. unfold bind. destruct (m st) as [[a | e | w |] st']; auto.
Qed.

Lemma bind_ext_l {A B} (m1 m2 : M A) (k : A -> M B) st :
  (forall st', m1 st' = m2 st') -> bind m1 k st = bind m2 k st.
Proof. intros Hm. unfold bind. by rewrite Hm. Qed.

Lemma bind_throw {A B} (e : ErrorKind) (k : A -> M B) st :
  bind (throw e) k st = throw e st.
Proof. reflexivity. Qed.

Lemma bind_ret {A B} (a : A) (k : A -> M B) st : bind (ret a) k st = k a st.
Proof. reflexivity. Qed.

Lemma bind_get_state {B} (k : State -> M B) st : bind get_state k st = k st st.
Proof. reflexivity. Qed.

(** ** Properties of the joins *)

Ltac merge_cases :=
  unfold merge_return_type, is_returning, raise_error;
  repeat (case_bool_decide; simpl; subst; try congruence; try done).

Lemma merge_return_type_comm (a b : Ty) :
  merged (merge_return_type (Some a) (Some b))
  = merged (merge_return_type (Some b) (Some a)).
Proof. merge_cases. Qed.

Lemma merge_return_type_assoc (a b c : Ty) :
  merged (let+ x := merge_return_type (Some a) (Some b) in
          merge_return_type (Some x) (Some c))
  = merged (let+ y := merge_return_type (Some b) (Some c) in
            merge_return_type (Some a) (Some y)).
Proof. merge_cases. Qed.

Lemma merge_return_type_fails_iff (a b : Ty) (e : Error) :
  merge_return_type (Some a) (Some b) = Fail e
  <-> (is_returning a = true /\ is_returning b = true /\ a <> b
       /\ e = mkError (error_cannot_merge_expression_types a b) []).
Proof.
  split.
  - merge_cases; intros [= <-]; repeat split; auto.
  - intros (Ha & Hb & Hab & ->). revert Ha Hb. merge_cases.
Qed.

Lemma merge_return_type_total (T1 : option Ty) (b : Ty) :
  (exists T, merge_return_type T1 (Some b) = Ok T)
  \/ (exists e, merge_return_type T1 (Some b) = Fail e).
Proof. destruct T1 as [a|]; [|left; eauto]. merge_cases; eauto. Qed.

(** C6 (as stated, refuted): the claim lets either operand be null; with a
    null second operand and a non-null first one the merge does not succeed,
    it trips the assertion on [T2]. *)
Lemma merge_return_type_null_second_operand :
  merge_return_type (Some TYPE_I32) None = Abort "assert(T2)"
  /\ ~ (exists T, merge_return_type (Some TYPE_I32) None = Ok T).
Proof. split; [reflexivity|]. intros [T HT]. discriminate HT. Qed.

(** C6 (amended): on non-null operands [merge_return_type] is commutative
    and associative (either order and either grouping gives the same type, or
    none), it fails, with [cannot_merge_expression_types], exactly when both
    operands are returning and different, and it never does anything else
    than succeed or fail; a null first operand gives the second operand,
    equal operands give that operand, and when exactly one operand is
    [NoReturn] the other one wins. *)
Theorem merge_return_type_join (a b c : Ty) :
  merged (merge_return_type (Some a) (Some b))
    = merged (merge_return_type (Some b) (Some a))
  /\ merged (let+ x := merge_return_type (Some a) (Some b) in
             merge_return_type (Some x) (Some c))
     = merged (let+ y := merge_return_type (Some b) (Some c) in
               merge_return_type (Some a) (Some y))
  /\ (forall e, merge_return_type (Some a) (Some b) = Fail e
        <-> (is_returning a = true /\ is_returning b = true /\ a <> b
             /\ e = mkError (error_cannot_merge_expression_types a b) []))
  /\ (forall T1, (exists T, merge_return_type T1 (Some b) = Ok T)
                 \/ (exists e, merge_return_type T1 (Some b) = Fail e))
  /\ merge_return_type None (Some b) = Ok b
  /\ merge_return_type (Some a) (Some a) = Ok a
  /\ merge_return_type (Some TYPE_NoReturn) (Some b) = Ok b
  /\ merge_return_type (Some a) (Some TYPE_NoReturn) = Ok a.
Proof.
  split; [apply merge_return_type_comm|].
  split; [apply merge_return_type_assoc|].
  split; [intros e; apply merge_return_type_fails_iff|].
  split; [intros T1; apply merge_return_type_total|].
  repeat split; merge_cases.
Qed.

(** ** Properties of argument lists *)

(** C7 (as stated, refuted): a let that binds nothing has the empty arguments
    type; the list built from it alone is the let itself, but its argument 0
    is the [none] constant, not the let. *)
Lemma extract_argument_of_empty_let :
  build_argument_list top_state 0 [empty_let] = Ok empty_let
  /\ (let+ l := build_argument_list top_state 0 [empty_let] in
      extract_argument top_state l 0) = Ok (ConstTuple_none_from 0)
  /\ (let+ l := build_argument_list top_state 0 [empty_let] in
      extract_argument top_state l 0) <> Ok empty_let.
Proof. repeat split; try reflexivity. vm_compute. discriminate. Qed.

(** C7 (amended): for every value [x], typed or not,
    [build_argument_list] of the one-element sequence [x] is [x] itself; and
    argument 0 of that list is [x] again whenever the type of [x] is
    non-returning or is not an arguments tuple.  When the type of [x] is an
    arguments tuple, argument 0 is the [none] constant if the tuple has no
    element or its first element type is [Nothing]; otherwise it is the first
    value of [x] if [x] is an argument list, and else an [ExtractArgument]
    node of the first element type around [x]. *)
Theorem single_argument_list_collapses (st : State) (anchor : Anchor) (x : Value) :
  build_argument_list st anchor [x] = Ok x
  /\ (forall T, type_of st x = Some T ->
        is_returning T = false \/ is_arguments_type T = false ->
        (let+ l := build_argument_list st anchor [x] in extract_argument st l 0) = Ok x)
  /\ (forall Ts, type_of st x = Some (TArguments Ts) ->
        (let+ l := build_argument_list st anchor [x] in extract_argument st l 0)
        = match Ts with
          | [] => Ok (ConstTuple_none_from (value_anchor st x))
          | T0 :: _ =>
              if bool_decide (T0 = TYPE_Nothing)
              then Ok (ConstTuple_none_from (value_anchor st x))
              else match x with
                   | ArgumentList _ _ values =>
                       match values !! 0 with
                       | Some v => Ok v
                       | None => Abort "arglist->values[index] out of range"
                       end
                   | _ => Ok (ExtractArgument (value_anchor st x) (Some T0) x 0)
                   end
          end).
Proof.
  split; [reflexivity|]. split.
  - intros T HT Hkind. simpl.
    unfold extract_argument, get_type. rewrite HT. simpl.
    destruct Hkind as [-> | ->]; [reflexivity|].
    destruct (is_returning T); reflexivity.
  - intros Ts HT. simpl. unfold extract_argument, get_type. rewrite HT.
    destruct Ts as [|T0 Ts]; reflexivity.
Qed.

Lemma single_argument_list_collapses_witness :
  build_argument_list top_state 0 [const_one] = Ok const_one
  /\ (let+ l := build_argument_list top_state 0 [const_one] in
      extract_argument top_state l 0) = Ok const_one.
Proof.
  split.
  - apply (single_argument_list_collapses top_state 0 const_one).
  - apply (proj1 (proj2 (single_argument_list_collapses top_state 0 const_one)) TYPE_I32).
    + reflexivity.
    + right. reflexivity.
Defined.

(** ** Properties of builtin calls *)

Lemma append_assoc (s1 s2 s3 : string) : (s1 +:+ s2) +:+ s3 = s1 +:+ s2 +:+ s3.
Proof.
  induction s1 as [|c s1 IH]; [reflexivity|].
  change (String c ((s1 +:+ s2) +:+ s3) = String c (s1 +:+ s2 +:+ s3)).
  f_equal. exact IH.
Qed.

Lemma append_empty_r (s : string) : s +:+ EmptyString = s.
Proof.
  induction s as [|c s IH]; [reflexivity|].
  change (String c (s +:+ EmptyString) = String c s).
  f_equal. exact IH.
Qed.

Section BuiltinCalls.
Context `{Externals}.
Variable self : ASTContext -> Value -> M Value.
Variable fuel : nat.

(** A call whose callee specializes to a builtin constant is typed by the
    rule of that builtin, on the specialized arguments. *)
Lemma specialize_call_interior_builtin ctx anchor callee args st st1 st2 ca n values :
  self (with_symbol_target ctx) callee st = (Ok (ConstInt ca TYPE_Builtin n), st1) ->
  specialize_arguments self ctx [] args st1 = (Ok values, st2) ->
  specialize_call_interior self fuel ctx anchor callee args st
  = (specialize_builtin_call st2 anchor (ConstInt ca TYPE_Builtin n) values
       (Builtin_wrap n), st2).
Proof.
  intros Hcallee Hargs.
  unfold specialize_call_interior, bind. rewrite Hcallee, Hargs.
  unfold get_type_of, get_type. simpl type_of. cbv iota beta.
  rewrite !bool_decide_eq_false_2 by discriminate.
  rewrite bool_decide_eq_true_2 by reflexivity.
  unfold lift, extract_builtin_constant, verify.
  rewrite bool_decide_eq_true_2 by reflexivity.
  reflexivity.
Qed.

Lemma verify_readable_message T e :
  verify_readable T = Fail e ->
  exists msg, err_kind e = location_error msg /\ includes "non-readable" msg.
Proof.
  destruct T; try discriminate. simpl.
  destruct (is_readable flags); simpl; [discriminate|].
  intros [= <-]. eexists. split; [reflexivity|].
  exists ("can not load value from address of type "
          +:+ type_repr (TPointer T flags storage_class)
          +:+ " because the target is "), EmptyString.
  rewrite append_empty_r, !append_assoc. reflexivity.
Qed.

(** The rule of [Load] and [VolatileLoad] on one argument whose storage
    type is a pointer. *)
Lemma specialize_builtin_call_load st anchor callee v T b element_type flags storage_class :
  b = FN_Load \/ b = FN_VolatileLoad ->
  type_of st v = Some T ->
  storage_type T = Ok (TPointer element_type flags storage_class) ->
  specialize_builtin_call st anchor callee [v] b
  = let+ _ := verify_readable (TPointer element_type flags storage_class) in
    Ok (Call anchor (Some element_type) callee [v]).
Proof.
  intros Hb HT Hst.
  assert (specialize_builtin_call st anchor callee [v] b
          = specialize_builtin_call st anchor callee [v] FN_Load) as ->
    by (destruct Hb as [-> | ->]; reflexivity).
  unfold specialize_builtin_call, READ_STORAGETYPEOF, READ_TYPEOF, get_type.
  simpl. rewrite HT. simpl. rewrite Hst. simpl.
  destruct (is_readable flags); reflexivity.
Qed.

(** C9: specializing a call to the builtin [Load] or [VolatileLoad] whose
    one argument has a pointer as storage type fails, when the pointer lacks
    the readable flag, with an error whose message includes "non-readable";
    when the pointer is readable the result is a call whose type is the
    pointee type. *)
Theorem load_requires_readable_pointer
    ctx anchor callee args st st1 st2 ca n v T element_type flags storage_class :
  self (with_symbol_target ctx) callee st = (Ok (ConstInt ca TYPE_Builtin n), st1) ->
  Builtin_wrap n = FN_Load \/ Builtin_wrap n = FN_VolatileLoad ->
  specialize_arguments self ctx [] args st1 = (Ok [v], st2) ->
  type_of st2 v = Some T ->
  storage_type T = Ok (TPointer element_type flags storage_class) ->
  (is_readable flags = false ->
     exists e msg,
       specialize_call_interior self fuel ctx anchor callee args st = (Fail e, st2)
       /\ err_kind e = location_error msg
       /\ includes "non-readable" msg)
  /\ (is_readable flags = true ->
        exists call,
          specialize_call_interior self fuel ctx anchor callee args st = (Ok call, st2)
          /\ type_of st2 call = Some element_type).
Proof.
  intros Hcallee Hb Hargs HT Hst.
  rewrite (specialize_call_interior_builtin _ _ _ _ _ _ _ _ _ _ Hcallee Hargs).
  rewrite (specialize_builtin_call_load _ _ _ _ _ _ _ _ _ Hb HT Hst).
  split; intros Hflags.
  - destruct (verify_readable (TPointer element_type flags storage_class))
      as [| e | |] eqn:Hv;
      try (exfalso; simpl in Hv; rewrite Hflags in Hv; discriminate Hv).
    destruct (verify_readable_message _ _ Hv) as (msg & Hk & Hi).
    exists e, msg. auto.
  - simpl. rewrite Hflags. simpl. eexists. split; reflexivity.
Qed.

(** C10: a call to the builtin [Bitcast] whose source value already has the
    destination type gives back the source value itself: no call node is
    built and the storage types are not looked at. *)
Theorem bitcast_to_same_type_is_identity
    ctx anchor callee args st st1 st2 ca n v da T :
  self (with_symbol_target ctx) callee st = (Ok (ConstInt ca TYPE_Builtin n), st1) ->
  Builtin_wrap n = FN_Bitcast ->
  specialize_arguments self ctx [] args st1
    = (Ok [v; ConstPointer da TYPE_Type (PtrType T)], st2) ->
  type_of st2 v = Some T ->
  specialize_call_interior self fuel ctx anchor callee args st = (Ok v, st2).
Proof.
  intros Hcallee Hb Hargs HT.
  rewrite (specialize_call_interior_builtin _ _ _ _ _ _ _ _ _ _ Hcallee Hargs).
  rewrite Hb. unfold specialize_builtin_call, get_type. simpl.
  rewrite HT. simpl.
  rewrite bool_decide_eq_true_2 by reflexivity. reflexivity.
Qed.
End BuiltinCalls.

(** ** Properties of conditionals *)

(** ** Runs of the job queue *)

Section QueueRuns.
Context `{Externals}.
Variable self : ASTContext -> Value -> M Value.

Lemma jobs_run_queue q st rs st' : jobs_run self q st rs st' -> jobs st = q.
Proof. by destruct 1. Qed.

Lemma jobs_run_length q st rs st' : jobs_run self q st rs st' -> length rs = length q.
Proof. induction 1; simpl; congruence. Qed.

Lemma jobs_run_empties q st rs st' : jobs_run self q st rs st' -> jobs st' = [].
Proof. induction 1; auto. Qed.

(** Every outcome of a run is what [self] gave for the node of its job. *)
Lemma jobs_run_outcome q st rs st' i job r :
  jobs_run self q st rs st' -> q !! i = Some job -> rs !! i = Some r ->
  exists sa sb, catch (self (job_ctx job) (job_node job)) sa = (Ok r, sb).
Proof.
  intros Hrun. revert i. induction Hrun as [|job' rest st r' st1 rs st' Hq Hc Hj Hp Hrun IH];
    intros [|i] Hjob Hr; try discriminate.
  - injection Hjob as <-. injection Hr as <-. eauto.
  - by apply (IH i).
Qed.

(** The loop of [process_jobs] on a queue whose jobs run as [jobs_run]
    says. *)
Lemma jobs_run_loop q st rs st' n :
  jobs_run self q st rs st' -> length q <= n ->
  process_jobs_loop self n st = (Ok (length q), st').
Proof.
  intros Hrun. revert n.
  induction Hrun as [st Hq|job rest st r st1 rs st' Hq Hc Hj Hp Hrun IH]; intros n Hn.
  - destruct n; cbn [process_jobs_loop]; rewrite bind_get_state, Hq; reflexivity.
  - destruct n as [|n]; [simpl in Hn; lia|].
    cbn [process_jobs_loop]. rewrite bind_get_state, Hq.
    rewrite bind_Ok with (a := tt) (st' := with_jobs rest st) by reflexivity.
    unfold specialize_coroutine. rewrite bind_assoc.
    rewrite bind_Ok with (a := r) (st' := st1) by exact Hc.
    rewrite bind_Ok with (a := tt)
      (st' := with_slots (<[job_slot job := Some r]> (slots st1)) st1) by reflexivity.
    rewrite bind_Ok with (a := length rest) (st' := st')
      by (apply IH; simpl in Hn; lia).
    reflexivity.
Qed.

(** Where the outcomes of a run are afterwards, for jobs with slots of
    their own among those of the store. *)
Lemma jobs_run_slots q st rs st' :
  jobs_run self q st rs st' ->
  NoDup (job_slot <$> q) ->
  (forall job, job ∈ q -> job_slot job < length (slots st)) ->
  length (slots st) <= length (slots st')
  /\ (forall k, k < length (slots st) -> k ∉ job_slot <$> q ->
        slots st' !! k = slots st !! k)
  /\ (forall i job r, q !! i = Some job -> rs !! i = Some r ->
        slots st' !! job_slot job = Some (Some r)).
Proof.
  induction 1 as [st Hq|job rest st r st1 rs st' Hq Hc Hj Hp Hrun IH];
    intros Hnd Hin.
  - split; [lia|]. split; [done|]. intros i job r Hjob. discriminate Hjob.
  - rewrite fmap_cons in Hnd. apply NoDup_cons in Hnd as [Hfresh Hnd].
    pose proof (prefix_length _ _ Hp) as Hlen.
    assert (job_slot job < length (slots st)) as Hs by (apply Hin; apply list_elem_of_here).
    destruct IH as (IH1 & IH2 & IH3); [exact Hnd| |].
    { intros j Hjin. cbn [slots with_slots]. rewrite length_insert.
      specialize (Hin j (list_elem_of_further _ _ _ Hjin)). lia. }
    cbn [slots with_slots] in IH1, IH2. rewrite length_insert in IH1, IH2.
    split; [lia|]. split.
    + intros k Hk Hnot. rewrite fmap_cons in Hnot.
      apply not_elem_of_cons in Hnot as [Hne Hnot].
      rewrite IH2 by (auto; lia).
      rewrite list_lookup_insert_ne by congruence.
      symmetry. by apply prefix_lookup_lt.
    + intros [|i] j r' Hjob Hr.
      * injection Hjob as <-. injection Hr as <-.
        rewrite IH2 by (auto; lia).
        apply list_lookup_insert_eq. lia.
      * by apply (IH3 i).
Qed.

Lemma branch_jobs_slots ctx nodes base :
  job_slot <$> branch_jobs ctx base nodes = seq base (length nodes).
Proof.
  unfold branch_jobs. revert base. induction nodes as [|node nodes IH]; intros base.
  - reflexivity.
  - rewrite imap_cons. cbn [fmap list_fmap job_slot length seq].
    rewrite Nat.add_0_r. f_equal. rewrite <- IH. f_equal.
    apply imap_ext. intros i x _. simpl. f_equal. lia.
Qed.

Lemma branch_jobs_lookup ctx nodes base i job :
  branch_jobs ctx base nodes !! i = Some job ->
  exists node, nodes !! i = Some node /\ job = mkSpecializeJob ctx node (base + i).
Proof.
  unfold branch_jobs. rewrite list_lookup_imap.
  destruct (nodes !! i) as [node|]; [|discriminate].
  intros [= <-]. eauto.
Qed.

Lemma branch_jobs_length ctx nodes base :
  length (branch_jobs ctx base nodes) = length nodes.
Proof. unfold branch_jobs. apply length_imap. Qed.

Lemma all_done_filled st base rs :
  (forall i r, rs !! i = Some r -> slots st !! (base + i) = Some (Some r)) ->
  all_done st base (length rs) = true.
Proof.
  intros Hslots. unfold all_done. apply forallb_forall. intros i Hi.
  apply in_seq in Hi as [_ Hi]. simpl in Hi.
  destruct (lookup_lt_is_Some_2 rs i Hi) as [r Hr].
  rewrite (Hslots i r Hr). cbn [mjoin option_join]. apply bool_decide_eq_true_2. eauto.
Qed.

Lemma collect_jobs_filled rs :
  forall base st,
    (forall i r, rs !! i = Some r -> slots st !! (base + i) = Some (Some r)) ->
    collect_jobs base (length rs) st = (gathered rs, st).
Proof.
  induction rs as [|r rs IH]; intros base st Hslots; [reflexivity|].
  cbn [length collect_jobs]. rewrite bind_get_state.
  pose proof (Hslots 0 r eq_refl) as H0. rewrite Nat.add_0_r in H0. rewrite H0.
  assert (collect_jobs (S base) (length rs) st = (gathered rs, st)) as Hrest.
  { apply IH. intros i r' Hr. rewrite <- (Hslots (S i) r' Hr). f_equal. lia. }
  destruct r as [v|e]; cbn [uncatch gathered].
  - rewrite bind_ret. unfold bind at 1. rewrite Hrest.
    destruct (gathered rs); reflexivity.
  - reflexivity.
Qed.

Variable fuel : nat.

(** [specialize_jobs] on branches that run as [jobs_run] says: the values
    [self] gave for the nodes, in order, or the first error it reported. *)
Lemma specialize_jobs_run ctx nodes st rs st' :
  length nodes <= fuel ->
  jobs_run self (branch_jobs ctx (length (slots st)) nodes) (queued ctx nodes st) rs st' ->
  specialize_jobs self fuel ctx nodes st = (gathered rs, st').
Proof.
  intros Hfuel Hrun.
  pose proof (jobs_run_length _ _ _ _ Hrun) as Hlen.
  rewrite branch_jobs_length in Hlen.
  unfold specialize_jobs. rewrite bind_get_state.
  rewrite bind_Ok with (a := tt) (st' := queued ctx nodes st) by reflexivity.
  rewrite bind_Ok with (a := length (branch_jobs ctx (length (slots st)) nodes)) (st' := st').
  2:{ unfold process_jobs. apply (jobs_run_loop _ _ _ _ _ Hrun).
      by rewrite branch_jobs_length. }
  rewrite bind_get_state.
  destruct (jobs_run_slots _ _ _ _ Hrun) as (_ & _ & Hslots).
  { rewrite branch_jobs_slots. apply NoDup_seq. }
  { intros job Hjob. apply (list_elem_of_fmap_2 job_slot) in Hjob.
    rewrite branch_jobs_slots in Hjob. apply elem_of_seq in Hjob.
    unfold queued. cbn [slots with_slots with_jobs].
    rewrite length_app, length_replicate. lia. }
  assert (forall i r, rs !! i = Some r ->
            slots st' !! (length (slots st) + i) = Some (Some r)) as Hfilled.
  { intros i r Hr.
    destruct (lookup_lt_is_Some_2 (branch_jobs ctx (length (slots st)) nodes) i)
      as [job Hjob].
    { rewrite branch_jobs_length, <- Hlen. by apply lookup_lt_Some in Hr. }
    pose proof (Hslots i job r Hjob Hr) as Hs.
    apply branch_jobs_lookup in Hjob as (node & _ & ->). exact Hs. }
  rewrite <- Hlen. rewrite (all_done_filled st' _ rs Hfilled).
  by apply collect_jobs_filled.
Qed.
End QueueRuns.

(** ** Properties of [specialize_If] *)

Section Conditionals.
Context `{Externals}.
Variable self : ASTContext -> Value -> M Value.
Variable fuel : nat.




End Conditionals.

(** ** Properties of [specialize_arguments] *)

Lemma get_type_not_Fail st v e : get_type st v <> Fail e.
Proof. unfold get_type. destruct (type_of st v); discriminate. Qed.

Lemma tuple_storage_not_Fail T e : tuple_storage T <> Fail e.
Proof.
  unfold tuple_storage. destruct (storage_type T) as [S | | |]; try discriminate.
  destruct S; discriminate.
Qed.

Lemma extract_argument_not_Fail st v i e : extract_argument st v i <> Fail e.
Proof.
  unfold extract_argument. pose proof (get_type_not_Fail st v) as Hg.
  destruct (get_type st v) as [T | e' | |]; simpl; try discriminate.
  - destruct (negb (is_returning T)); [discriminate|].
    destruct (is_arguments_type T).
    + pose proof (tuple_storage_not_Fail T) as Ht.
      destruct (tuple_storage T) as [rt | e' | |]; simpl; try discriminate.
      * case_bool_decide; [discriminate|].
        destruct v; try discriminate.
        destruct (values !! i); discriminate.
      * by destruct (Ht e').
    + case_bool_decide; discriminate.
  - by destruct (Hg e').
Qed.

Lemma extract_arguments_not_Fail st v n from e : extract_arguments st v from n <> Fail e.
Proof.
  revert from. induction n as [|n IH]; intros from; simpl; [discriminate|].
  pose proof (extract_argument_not_Fail st v from) as He.
  destruct (extract_argument st v from) as [x | e' | |]; simpl; try discriminate.
  - specialize (IH (S from)).
    destruct (extract_arguments st v (S from) n) as [xs | e' | |]; simpl;
      try discriminate.
    intros [= ->]. by apply IH.
  - by destruct (He e').
Qed.

Section Arguments.
Variable self : ASTContext -> Value -> M Value.

(** What the loop does with its first argument [v], when [v] specializes
    to a value whose type is not returning. *)
Lemma specialize_arguments_loop_noreturn subctx outargs v rest st value st1 :
  self subctx v st = (Ok value, st1) ->
  type_of st1 value = Some TYPE_NoReturn ->
  specialize_arguments_loop self subctx outargs (v :: rest) st
  = (Fail (mkError error_noreturn_not_last_expression []), st1).
Proof.
  intros Hself HT. simpl. unfold bind at 1. rewrite Hself.
  unfold bind at 1, get_type_of, get_type. rewrite HT. reflexivity.
Qed.

Lemma specialize_arguments_loop_fail subctx outargs v rest st e st1 :
  self subctx v st = (Fail e, st1) ->
  specialize_arguments_loop self subctx outargs (v :: rest) st = (Fail e, st1).
Proof. intros Hself. simpl. unfold bind at 1. by rewrite Hself. Qed.

Lemma specialize_arguments_front_cons subctx v pre outargs st :
  specialize_arguments_front self subctx outargs (v :: pre) st
  = (let* out := specialize_arguments_front self subctx outargs [v] in
     specialize_arguments_front self subctx out pre) st.
Proof.
  simpl. rewrite bind_assoc. apply bind_ext. intros value st1.
  rewrite bind_assoc. apply bind_ext. intros T st2.
  destruct (negb (is_returning T)); [reflexivity|].
  destruct (is_arguments_type T); [|reflexivity].
  rewrite bind_assoc. apply bind_ext. intros rt st3.
  rewrite bind_assoc. apply bind_ext. intros st4 st5.
  rewrite bind_assoc. apply bind_ext. intros x0 st6.
  reflexivity.
Qed.

(** The loop on an argument followed by at least one more. *)
Lemma specialize_arguments_loop_cons subctx v rest outargs st :
  rest <> [] ->
  specialize_arguments_loop self subctx outargs (v :: rest) st
  = (let* out := specialize_arguments_front self subctx outargs [v] in
     specialize_arguments_loop self subctx out rest) st.
Proof.
  intros Hrest. destruct rest as [|x xs]; [done|].
  simpl. rewrite bind_assoc. apply bind_ext. intros value st1.
  rewrite bind_assoc. apply bind_ext. intros T st2.
  destruct (negb (is_returning T)); [reflexivity|].
  destruct (is_arguments_type T); [|reflexivity].
  rewrite bind_assoc. apply bind_ext. intros rt st3.
  rewrite bind_assoc. apply bind_ext. intros st4 st5.
  rewrite bind_assoc. apply bind_ext. intros x0 st6.
  reflexivity.
Qed.

Lemma specialize_arguments_loop_app subctx pre post outargs st :
  post <> [] ->
  specialize_arguments_loop self subctx outargs (pre ++ post) st
  = (let* out := specialize_arguments_front self subctx outargs pre in
     specialize_arguments_loop self subctx out post) st.
Proof.
  intros Hpost. revert outargs st.
  induction pre as [|v pre IH]; intros outargs st; [reflexivity|].
  change ((v :: pre) ++ post) with (v :: (pre ++ post)).
  rewrite specialize_arguments_loop_cons
    by (destruct pre; [exact Hpost | discriminate]).
  rewrite (bind_ext _ _ _ _ (fun out st' => IH out st')).
  rewrite <- bind_assoc. apply bind_ext_l. intros st'.
  symmetry. apply specialize_arguments_front_cons.
Qed.

(** C3 (amended): [specialize_arguments] fails, with the error [e], exactly
    when, the arguments before it having specialized to values of returning
    types, the specialization of an argument fails with [e], or an argument
    specializes to a value of non-returning type and [e] is
    [noreturn_not_last_expression]; the argument can be in any position,
    the last one included. *)
Theorem specialize_arguments_fails_iff ctx outargs values st e st' :
  specialize_arguments self ctx outargs values st = (Fail e, st')
  <-> exists pre v rest out st1,
        values = pre ++ v :: rest
        /\ specialize_arguments_front self (with_symbol_target ctx) outargs pre st
           = (Ok out, st1)
        /\ (self (with_symbol_target ctx) v st1 = (Fail e, st')
            \/ exists value,
                 self (with_symbol_target ctx) v st1 = (Ok value, st')
                 /\ type_of st' value = Some TYPE_NoReturn
                 /\ e = mkError error_noreturn_not_last_expression []).
Proof.
  unfold specialize_arguments. set (subctx := with_symbol_target ctx). split.
  - revert outargs st. induction values as [|v rest IH]; intros outargs st Hfail.
    { discriminate Hfail. }
    simpl in Hfail. unfold bind at 1 in Hfail.
    destruct (self subctx v st) as [[value | e0 | w |] st1] eqn:Hself;
      try discriminate Hfail.
    2:{ injection Hfail as -> ->. exists [], v, rest, outargs, st.
        repeat split; auto. }
    unfold bind at 1, get_type_of, get_type in Hfail.
    destruct (type_of st1 value) as [T|] eqn:HT; [|discriminate Hfail].
    destruct (is_returning T) eqn:Hret; simpl in Hfail.
    2:{ injection Hfail as <- <-. exists [], v, rest, outargs, st.
        repeat split; auto. right. exists value. repeat split; auto.
        rewrite HT. f_equal. unfold is_returning in Hret.
        by case_bool_decide. }
    assert (forall out,
               specialize_arguments_loop self subctx out rest st1 = (Fail e, st') ->
               specialize_arguments_front self subctx outargs [v] st = (Ok out, st1) ->
               exists pre v0 rest0 out0 st0,
                 v :: rest = pre ++ v0 :: rest0
                 /\ specialize_arguments_front self subctx outargs pre st = (Ok out0, st0)
                 /\ (self subctx v0 st0 = (Fail e, st')
                     \/ exists value0,
                          self subctx v0 st0 = (Ok value0, st')
                          /\ type_of st' value0 = Some TYPE_NoReturn
                          /\ e = mkError error_noreturn_not_last_expression []))
      as Hstep.
    { intros out Hrest Hfront.
      destruct (IH out st1 Hrest) as (pre & v0 & rest0 & out0 & st0 & -> & Hpre & Hv0).
      exists (v :: pre), v0, rest0, out0, st0. repeat split; auto.
      rewrite specialize_arguments_front_cons.
      by rewrite (bind_Ok _ _ _ _ _ Hfront). }
    destruct (is_arguments_type T) eqn:Harg.
    + unfold bind at 1, lift in Hfail.
      pose proof (tuple_storage_not_Fail T) as Hts.
      destruct (tuple_storage T) as [rt | e0 | w |] eqn:Hrt; try discriminate Hfail.
      2:{ by destruct (Hts e0). }
      destruct rest as [|x xs].
      * exfalso. unfold bind at 1 in Hfail. unfold get_state at 1 in Hfail.
        cbv iota beta in Hfail. unfold bind at 1 in Hfail.
        pose proof (extract_arguments_not_Fail st1 value (length rt) 0) as Hex.
        destruct (extract_arguments st1 value 0 (length rt)) as [vs | e0 | w |];
          try discriminate Hfail.
        injection Hfail as -> _. by destruct (Hex e).
      * unfold bind at 1 in Hfail. unfold get_state at 1 in Hfail.
        cbv iota beta in Hfail. unfold bind at 1 in Hfail.
        pose proof (extract_argument_not_Fail st1 value 0) as Hex.
        destruct (extract_argument st1 value 0) as [x0 | e0 | w |] eqn:Hx0;
          try discriminate Hfail.
        2:{ injection Hfail as -> _. by destruct (Hex e). }
        apply (Hstep _ Hfail). simpl. unfold bind at 1. rewrite Hself.
        unfold bind at 1, get_type_of, get_type. rewrite HT. cbv iota beta.
        rewrite Hret, Harg. simpl. unfold bind at 1, lift. rewrite Hrt.
        unfold bind at 1. unfold get_state at 1. cbv iota beta.
        unfold bind at 1. rewrite Hx0. reflexivity.
    + apply (Hstep _ Hfail). simpl. unfold bind at 1. rewrite Hself.
      unfold bind at 1, get_type_of, get_type. rewrite HT. cbv iota beta.
      rewrite Hret, Harg. reflexivity.
  - intros (pre & v & rest & out & st1 & -> & Hpre & Hv).
    rewrite specialize_arguments_loop_app by discriminate.
    unfold bind at 1. rewrite Hpre.
    destruct Hv as [Hv | (value & Hv & HT & ->)].
    + by apply specialize_arguments_loop_fail.
    + by apply specialize_arguments_loop_noreturn with (value := value).
Qed.
End Arguments.

(** C3 (as stated, refuted): the claim accepts a non-returning value in the
    last position.  Here the only argument, which is therefore the last one,
    specializes to a value of type [NoReturn], and [specialize_arguments]
    fails with [noreturn_not_last_expression]. *)
Lemma specialize_arguments_rejects_noreturn_last :
  specialize (H := plain_externals) 1 (with_symbol_target symbol_ctx) typed_return top_state
    = (Ok typed_return, top_state)
  /\ type_of top_state typed_return = Some TYPE_NoReturn
  /\ specialize_arguments (specialize (H := plain_externals) 1) symbol_ctx [] [typed_return]
       top_state
     = (Fail (mkError error_noreturn_not_last_expression []), top_state)
  /\ ~ (exists out st',
          specialize_arguments (specialize (H := plain_externals) 1) symbol_ctx []
            [typed_return] top_state = (Ok out, st')).
Proof.
  assert (specialize_arguments (specialize (H := plain_externals) 1) symbol_ctx []
            [typed_return] top_state
          = (Fail (mkError error_noreturn_not_last_expression []), top_state)) as Hrun
    by (vm_compute; reflexivity).
  repeat split; try (vm_compute; reflexivity); try exact Hrun.
  intros (out & st' & Hok). rewrite Hrun in Hok. discriminate Hok.
Qed.

(** ** Properties of parameter binding *)

Lemma keeps_types_refl st : keeps_types st st.
Proof. split; auto. Qed.

Lemma keeps_types_trans st1 st2 st3 :
  keeps_types st1 st2 -> keeps_types st2 st3 -> keeps_types st1 st3.
Proof. intros [H1 H2] [H3 H4]. split; [congruence | auto]. Qed.

Lemma update_keeps_types a g st :
  a < length (heap st) ->
  (forall f, fn_type (g f) = fn_type f) ->
  exists st', update a g st = (Ok tt, st') /\ keeps_types st st'.
Proof.
  intros Ha Hg. unfold update.
  destruct (lookup_lt_is_Some_2 (heap st) a Ha) as [f Hf]. rewrite Hf.
  eexists. split; [reflexivity|]. split.
  - simpl. by rewrite length_insert.
  - intros v T. destruct v; simpl; auto.
    destruct (decide (a = fn)) as [<- | Hne].
    + rewrite list_lookup_insert_eq by exact Ha. rewrite Hf. simpl. by rewrite Hg.
    + by rewrite list_lookup_insert_ne.
Qed.

Lemma SymbolValue_from_keeps_types anchor name T st :
  exists s st', SymbolValue_from anchor name T st = (Ok s, st')
                /\ keeps_types st st' /\ sym_type s = Some T.
Proof.
  eexists _, _. split; [reflexivity|]. split; [|reflexivity].
  split; [reflexivity|]. intros v T'. by destruct v.
Qed.

Lemma frame_bind_keeps_types ctx fr oldsym v st :
  frame ctx = Some fr -> fr < length (heap st) ->
  exists st', frame_bind ctx oldsym v st = (Ok tt, st') /\ keeps_types st st'.
Proof.
  intros Hfr Hlt. unfold frame_bind. rewrite Hfr.
  by apply update_keeps_types.
Qed.

Lemma types_of_typed st values :
  Forall (fun v => is_Some (type_of st v)) values ->
  exists Ts, types_of st values = Ok Ts.
Proof.
  induction 1 as [|v values [T HT] _ [Ts IH]]; simpl; [eauto|].
  unfold get_type. rewrite HT. simpl. rewrite IH. simpl. eauto.
Qed.

Lemma Forall_typed_keeps st st' values :
  keeps_types st st' ->
  Forall (fun v => is_Some (type_of st v)) values ->
  Forall (fun v => is_Some (type_of st' v)) values.
Proof.
  intros [_ Hk] HF. eapply Forall_impl; [exact HF|].
  intros v [T HT]. exists T. auto.
Qed.

Lemma variadic_not_last_head p rest :
  is_variadic p = true -> variadic_not_last (p :: rest) -> rest <> [].
Proof.
  intros _ (pre & q & post & Heq & _ & Hpost).
  destruct pre as [|x pre]; simpl in Heq; injection Heq as _ ->; [exact Hpost|].
  by destruct pre.
Qed.

Lemma variadic_not_last_tail p rest :
  is_variadic p = false -> variadic_not_last (p :: rest) -> variadic_not_last rest.
Proof.
  intros Hp (pre & q & post & Heq & Hq & Hpost).
  destruct pre as [|x pre]; simpl in Heq; injection Heq as -> ->.
  - congruence.
  - by exists pre, q, post.
Qed.

Lemma variadic_not_last_cons p rest :
  variadic_not_last rest -> variadic_not_last (p :: rest).
Proof.
  intros (pre & q & post & -> & Hq & Hpost). by exists (p :: pre), q, post.
Qed.

Section Binding.
Context `{Externals}.
Variable self : ASTContext -> Value -> M Value.

(** With a variadic parameter in a non-final position, binding for Let,
    Loop and inlined functions fails on it. *)
Lemma bind_specialized_arguments_misplaced ctx fr inline_constants tmpargs params :
  frame ctx = Some fr ->
  variadic_not_last params ->
  forall i outparams outargs st,
    fr < length (heap st) ->
    Forall (fun v => is_Some (type_of st v)) tmpargs ->
    exists st',
      specialize_bind_specialized_arguments_loop ctx i params tmpargs inline_constants
        outparams outargs st
      = (Fail (mkError error_variadic_symbol_not_in_last_place []), st').
Proof.
  intros Hfr. induction params as [|oldsym rest IH];
    intros Hmis i outparams outargs st Hlt Htyped.
  { destruct Hmis as (pre & p & post & Heq & _). by destruct pre. }
  simpl. destruct (is_variadic oldsym) eqn:Hvar.
  - pose proof (variadic_not_last_head _ _ Hvar Hmis) as Hrest.
    destruct rest as [|x xs]; [done|]. eexists. reflexivity.
  - pose proof (variadic_not_last_tail _ _ Hvar Hmis) as Hmis'.
    set (newval := default (ConstTuple_none_from (sym_anchor oldsym)) (tmpargs !! i)).
    assert (is_Some (type_of st newval)) as [T HT].
    { unfold newval. destruct (tmpargs !! i) as [v|] eqn:Hv; simpl; [|eauto].
      eapply Forall_lookup_1 in Htyped; eauto. }
    assert ((match tmpargs !! i with
             | Some v => ret v
             | None => ret (ConstTuple_none_from (sym_anchor oldsym))
             end : M Value) = ret newval) as ->.
    { unfold newval. by destruct (tmpargs !! i). }
    rewrite bind_ret.
    destruct (inline_constants && is_symbolic newval).
    + destruct (frame_bind_keeps_types ctx fr oldsym newval st Hfr Hlt)
        as (st1 & Hb & Hk).
      rewrite (bind_Ok _ _ _ _ _ Hb).
      apply IH; auto.
      * destruct Hk as [-> _]. exact Hlt.
      * by apply (Forall_typed_keeps st).
    + unfold get_type_of at 1, get_type. rewrite bind_Ok with (a := T) (st' := st)
        by (by rewrite HT).
      destruct (SymbolValue_from_keeps_types (sym_anchor oldsym) (sym_name oldsym) T st)
        as (newsym & st1 & Hs & Hk1 & _).
      rewrite (bind_Ok _ _ _ _ _ Hs).
      assert (fr < length (heap st1)) as Hlt1 by (destruct Hk1 as [-> _]; exact Hlt).
      destruct (frame_bind_keeps_types ctx fr oldsym (VSymbolValue newsym) st1 Hfr Hlt1)
        as (st2 & Hb & Hk2).
      rewrite (bind_Ok _ _ _ _ _ Hb).
      apply IH; auto.
      * destruct Hk2 as [-> _]. exact Hlt1.
      * apply (Forall_typed_keeps st); [|exact Htyped].
        by apply keeps_types_trans with st1.
Qed.

(** With no variadic parameter before the last one, that binding
    succeeds. *)
Lemma bind_specialized_arguments_well_placed ctx fr inline_constants tmpargs params :
  frame ctx = Some fr ->
  ~ variadic_not_last params ->
  forall i outparams outargs st,
    fr < length (heap st) ->
    Forall (fun v => is_Some (type_of st v)) tmpargs ->
    exists r st',
      specialize_bind_specialized_arguments_loop ctx i params tmpargs inline_constants
        outparams outargs st = (Ok r, st').
Proof.
  intros Hfr. induction params as [|oldsym rest IH];
    intros Hwell i outparams outargs st Hlt Htyped.
  { eexists _, _. reflexivity. }
  assert (~ variadic_not_last rest) as Hwell'
    by (intros Hmis; apply Hwell; by apply variadic_not_last_cons).
  assert (exists newval T st0,
            type_of st0 newval = Some T /\ keeps_types st st0
            /\ forall B (k : Value -> M B),
                 bind (if is_variadic oldsym then
                         match rest with
                         | _ :: _ => throw error_variadic_symbol_not_in_last_place
                         | [] =>
                             if bool_decide (i + 1 = length tmpargs) then
                               match tmpargs !! i with
                               | Some v => ret v
                               | None => abort "tmpargs[i] out of range"
                               end
                             else
                               let values := drop i tmpargs in
                               let* st := get_state in
                               let* T := lift (arguments_type_from_arguments st values) in
                               ret (ArgumentList (sym_anchor oldsym) (Some T) values)
                         end
                       else
                         match tmpargs !! i with
                         | Some v => ret v
                         | None => ret (ConstTuple_none_from (sym_anchor oldsym))
                         end) k st = k newval st0)
    as (newval & T & st0 & HT & Hk0 & Hstep).
  { destruct (is_variadic oldsym) eqn:Hvar.
    - destruct rest as [|x xs].
      2:{ exfalso. apply Hwell. by exists [], oldsym, (x :: xs). }
      case_bool_decide as Hlen.
      + destruct (lookup_lt_is_Some_2 tmpargs i) as [v Hv]; [lia|].
        destruct (Forall_lookup_1 _ _ _ _ Htyped Hv) as [T HT].
        exists v, T, st. rewrite Hv. repeat split; auto using keeps_types_refl.
      + destruct (types_of_typed st (drop i tmpargs)) as [Ts HTs].
        { by apply Forall_drop. }
        exists (ArgumentList (sym_anchor oldsym) (Some (arguments_type Ts)) (drop i tmpargs)),
          (arguments_type Ts), st.
        repeat split; auto using keeps_types_refl.
        intros B k. cbv zeta. rewrite bind_assoc, bind_get_state, bind_assoc.
        unfold lift at 1, arguments_type_from_arguments. rewrite HTs. reflexivity.
    - destruct (tmpargs !! i) as [v|] eqn:Hv.
      + destruct (Forall_lookup_1 _ _ _ _ Htyped Hv) as [T HT].
        exists v, T, st. repeat split; auto using keeps_types_refl.
      + exists (ConstTuple_none_from (sym_anchor oldsym)), TYPE_Nothing, st.
        repeat split; auto using keeps_types_refl. }
  cbn [specialize_bind_specialized_arguments_loop]. rewrite Hstep.
  assert (fr < length (heap st0)) as Hlt0 by (destruct Hk0 as [-> _]; exact Hlt).
  destruct (inline_constants && is_symbolic newval).
  - destruct (frame_bind_keeps_types ctx fr oldsym newval st0 Hfr Hlt0)
      as (st1 & Hb & Hk).
    rewrite (bind_Ok _ _ _ _ _ Hb).
    apply IH; auto.
    + destruct Hk as [-> _]. exact Hlt0.
    + apply (Forall_typed_keeps st); [|exact Htyped].
      by apply keeps_types_trans with st0.
  - unfold get_type_of at 1, get_type. rewrite bind_Ok with (a := T) (st' := st0)
      by (by rewrite HT).
    destruct (SymbolValue_from_keeps_types (sym_anchor oldsym) (sym_name oldsym) T st0)
      as (newsym & st1 & Hs & Hk1 & _).
    rewrite (bind_Ok _ _ _ _ _ Hs).
    assert (fr < length (heap st1)) as Hlt1 by (destruct Hk1 as [-> _]; exact Hlt0).
    destruct (frame_bind_keeps_types ctx fr oldsym (VSymbolValue newsym) st1 Hfr Hlt1)
      as (st2 & Hb & Hk2).
    rewrite (bind_Ok _ _ _ _ _ Hb).
    apply IH; auto.
    + destruct Hk2 as [-> _]. exact Hlt1.
    + apply (Forall_typed_keeps st); [|exact Htyped].
      apply keeps_types_trans with st0; [exact Hk0|].
      by apply keeps_types_trans with st1.
Qed.
End Binding.

Lemma variadic_params_keeps_types fn oldparam vtypes st :
  fn < length (heap st) ->
  exists args st', variadic_params fn oldparam vtypes st = (Ok args, st')
                   /\ keeps_types st st'.
Proof.
  revert st. induction vtypes as [|T vtypes IH]; intros st Hlt; simpl.
  { eexists _, _. split; [reflexivity | apply keeps_types_refl]. }
  destruct (SymbolValue_from_keeps_types (sym_anchor oldparam) (sym_name oldparam) T st)
    as (newparam & st1 & Hs & Hk1 & _).
  rewrite (bind_Ok _ _ _ _ _ Hs).
  assert (fn < length (heap st1)) as Hlt1 by (destruct Hk1 as [-> _]; exact Hlt).
  destruct (update_keeps_types fn (append_param newparam) st1 Hlt1) as (st2 & Hu & Hk2);
    [reflexivity|].
  rewrite (bind_Ok _ _ _ _ _ Hu).
  assert (fn < length (heap st2)) as Hlt2 by (destruct Hk2 as [-> _]; exact Hlt1).
  destruct (IH st2 Hlt2) as (args & st3 & Hv & Hk3).
  rewrite (bind_Ok _ _ _ _ _ Hv). eexists _, _. split; [reflexivity|].
  eauto using keeps_types_trans.
Qed.

(** Entering one new parameter of type [T] for [oldparam]. *)
Lemma instance_param_keeps_types fn oldparam T st :
  fn < length (heap st) ->
  exists st',
    (let* newparam := SymbolValue_from (sym_anchor oldparam) (sym_name oldparam) T in
     update fn (append_param newparam);;
     update fn (bind_in (sym_addr oldparam) (VSymbolValue newparam))) st = (Ok tt, st')
    /\ keeps_types st st'.
Proof.
  intros Hlt.
  destruct (SymbolValue_from_keeps_types (sym_anchor oldparam) (sym_name oldparam) T st)
    as (newparam & st1 & Hs & Hk1 & _).
  rewrite (bind_Ok _ _ _ _ _ Hs).
  assert (fn < length (heap st1)) as Hlt1 by (destruct Hk1 as [-> _]; exact Hlt).
  destruct (update_keeps_types fn (append_param newparam) st1 Hlt1) as (st2 & Hu & Hk2);
    [reflexivity|].
  rewrite (bind_Ok _ _ _ _ _ Hu).
  assert (fn < length (heap st2)) as Hlt2 by (destruct Hk2 as [-> _]; exact Hlt1).
  destruct (update_keeps_types fn (bind_in (sym_addr oldparam) (VSymbolValue newparam))
              st2 Hlt2) as (st3 & Hu' & Hk3); [reflexivity|].
  exists st3. split; [exact Hu'|]. eauto using keeps_types_trans.
Qed.

(** A parameter that is not variadic, whose type, if it has one, is the
    supplied one. *)
Lemma instance_plain_param_keeps_types fn oldparam T st :
  fn < length (heap st) ->
  match sym_type oldparam with Some Tp => Tp = T | None => True end ->
  exists st',
    ((match sym_type oldparam with
      | Some Tp => lift (verify Tp T)
      | None => ret tt
      end);;
     let* newparam := SymbolValue_from (sym_anchor oldparam) (sym_name oldparam) T in
     update fn (append_param newparam);;
     update fn (bind_in (sym_addr oldparam) (VSymbolValue newparam))) st = (Ok tt, st')
    /\ keeps_types st st'.
Proof.
  intros Hlt Hagree.
  assert ((match sym_type oldparam with
           | Some Tp => lift (verify Tp T)
           | None => ret tt
           end) st = (Ok tt, st)) as Hv.
  { destruct (sym_type oldparam) as [Tp|]; [|reflexivity].
    subst Tp. unfold lift, verify. by rewrite bool_decide_eq_true_2. }
  rewrite (bind_Ok _ _ _ _ _ Hv).
  by apply instance_param_keeps_types.
Qed.

Section TopLevel.
Context `{Externals}.
Variable self : ASTContext -> Value -> M Value.

Lemma specialize_instance_params_misplaced fn types params :
  variadic_not_last params ->
  forall i st,
    fn < length (heap st) ->
    typed_params_agree i params types ->
    exists st',
      specialize_instance_params fn i params types st
      = (Fail (mkError error_variadic_symbol_not_in_last_place []), st').
Proof.
  induction params as [|oldparam rest IH]; intros Hmis i st Hlt Hagree.
  { destruct Hmis as (pre & p & post & Heq & _). by destruct pre. }
  simpl. simpl in Hagree. destruct (is_variadic oldparam) eqn:Hvar.
  - pose proof (variadic_not_last_head _ _ Hvar Hmis) as Hrest.
    destruct rest as [|x xs]; [done|]. eexists. reflexivity.
  - pose proof (variadic_not_last_tail _ _ Hvar Hmis) as Hmis'.
    destruct Hagree as [Hty Hagree].
    destruct (instance_plain_param_keeps_types fn oldparam
                (default TYPE_Nothing (types !! i)) st Hlt Hty) as (st1 & Hstep & Hk).
    erewrite bind_Ok; [|exact Hstep].
    apply IH; auto. destruct Hk as [-> _]. exact Hlt.
Qed.

Lemma specialize_instance_params_well_placed fn types params :
  ~ variadic_not_last params ->
  forall i st,
    fn < length (heap st) ->
    typed_params_agree i params types ->
    exists st', specialize_instance_params fn i params types st = (Ok tt, st').
Proof.
  induction params as [|oldparam rest IH]; intros Hwell i st Hlt Hagree.
  { eexists. reflexivity. }
  assert (~ variadic_not_last rest) as Hwell'
    by (intros Hmis; apply Hwell; by apply variadic_not_last_cons).
  simpl. simpl in Hagree. destruct (is_variadic oldparam) eqn:Hvar.
  - destruct rest as [|x xs].
    2:{ exfalso. apply Hwell. by exists [], oldparam, (x :: xs). }
    case_bool_decide as Hlen.
    + destruct (lookup_lt_is_Some_2 types i) as [T HT]; [lia|]. rewrite HT.
      destruct (instance_param_keeps_types fn oldparam T st Hlt) as (st1 & Hstep & Hk).
      erewrite bind_Ok; [|exact Hstep]. eexists. reflexivity.
    + cbv zeta.
      destruct (variadic_params_keeps_types fn oldparam (drop i types) st Hlt)
        as (args & st1 & Hv & Hk1).
      assert (fn < length (heap st1)) as Hlt1 by (destruct Hk1 as [-> _]; exact Hlt).
      destruct (update_keeps_types fn
                  (bind_in (sym_addr oldparam)
                     (ArgumentList (sym_anchor oldparam)
                        (Some (arguments_type (drop i types))) args)) st1 Hlt1)
        as (st2 & Hu & Hk2); [reflexivity|].
      rewrite bind_assoc. rewrite (bind_Ok _ _ _ _ _ Hv).
      rewrite (bind_Ok _ _ _ _ _ Hu). eexists. reflexivity.
  - destruct Hagree as [Hty Hagree].
    destruct (instance_plain_param_keeps_types fn oldparam
                (default TYPE_Nothing (types !! i)) st Hlt Hty) as (st1 & Hstep & Hk).
    erewrite bind_Ok; [|exact Hstep].
    apply IH; auto. destruct Hk as [-> _]. exact Hlt.
Qed.

(** On a cache miss, a template with a misplaced variadic parameter is
    rejected before its body is looked at. *)
Lemma specialize_instance_misplaced fr func types st :
  find_function st fr func types = None ->
  variadic_not_last (template_params func) ->
  typed_params_agree 0 (template_params func) types ->
  exists st',
    specialize_instance self fr func types st
    = (Fail (mkError error_variadic_symbol_not_in_last_place []), st').
Proof.
  intros Hmiss Hmis Hagree. unfold specialize_instance.
  rewrite bind_get_state, Hmiss.
  set (st0 := (Function_from (template_anchor func) (template_name func) []
                 (template_value func) st).2).
  assert (Function_from (template_anchor func) (template_name func) []
            (template_value func) st = (Ok (length (heap st)), st0)) as Hnew
    by reflexivity.
  rewrite (bind_Ok _ _ _ _ _ Hnew).
  set (fn := length (heap st)).
  assert (fn < length (heap st0)) as Hlt0.
  { unfold st0, fn. simpl. rewrite length_app. simpl. lia. }
  destruct (update_keeps_types fn (set_return_type (Some TYPE_NoReturn)) st0 Hlt0)
    as (st1 & Hu1 & Hk1); [reflexivity|].
  rewrite (bind_Ok _ _ _ _ _ Hu1).
  assert (fn < length (heap st1)) as Hlt1 by (destruct Hk1 as [-> _]; exact Hlt0).
  destruct (update_keeps_types fn (set_except_type (Some TYPE_NoReturn)) st1 Hlt1)
    as (st2 & Hu2 & Hk2); [reflexivity|].
  rewrite (bind_Ok _ _ _ _ _ Hu2).
  assert (fn < length (heap st2)) as Hlt2 by (destruct Hk2 as [-> _]; exact Hlt1).
  destruct (update_keeps_types fn (set_origin func fr) st2 Hlt2)
    as (st3 & Hu3 & Hk3); [reflexivity|].
  rewrite (bind_Ok _ _ _ _ _ Hu3).
  assert (fn < length (heap st3)) as Hlt3 by (destruct Hk3 as [-> _]; exact Hlt2).
  destruct (update_keeps_types fn (set_instance_args types) st3 Hlt3)
    as (st4 & Hu4 & Hk4); [reflexivity|].
  rewrite (bind_Ok _ _ _ _ _ Hu4).
  assert (fn < length (heap st4)) as Hlt4 by (destruct Hk4 as [-> _]; exact Hlt3).
  destruct (specialize_instance_params_misplaced fn types _ Hmis 0 st4 Hlt4 Hagree)
    as (st5 & Hp).
  rewrite (bind_Fail _ _ _ _ _ Hp). eauto.
Qed.

(** C8 (amended): a parameter list with a variadic parameter in a
    non-final position makes the binding of Let, Loop and inlined functions
    fail with [variadic_symbol_not_in_last_place] (in a live frame, on typed
    arguments), and makes top-level function specialization fail with it on
    a cache miss, provided the typed parameters before the first variadic
    one have the types supplied for them; a list whose only variadic
    parameter, if any, is the last one is bound successfully in both
    places. *)
Theorem variadic_parameter_placement ctx fr inline_constants tmpargs params
    outparams outargs st fr' func types st2 :
  frame ctx = Some fr ->
  fr < length (heap st) ->
  Forall (fun v => is_Some (type_of st v)) tmpargs ->
  find_function st2 fr' func types = None ->
  typed_params_agree 0 (template_params func) types ->
  (variadic_not_last params ->
     exists st',
       specialize_bind_specialized_arguments ctx outparams outargs params tmpargs
         inline_constants st
       = (Fail (mkError error_variadic_symbol_not_in_last_place []), st'))
  /\ (~ variadic_not_last params ->
        exists r st',
          specialize_bind_specialized_arguments ctx outparams outargs params tmpargs
            inline_constants st = (Ok r, st'))
  /\ (variadic_not_last (template_params func) ->
        exists st',
          specialize_instance self fr' func types st2
          = (Fail (mkError error_variadic_symbol_not_in_last_place []), st'))
  /\ (~ variadic_not_last (template_params func) ->
        forall fn, fn < length (heap st2) ->
          exists st',
            specialize_instance_params fn 0 (template_params func) types st2
            = (Ok tt, st')).
Proof.
  intros Hfr Hlt Htyped Hmiss Hagree. repeat split.
  - intros Hmis. by apply bind_specialized_arguments_misplaced with (fr := fr).
  - intros Hwell. by apply bind_specialized_arguments_well_placed with (fr := fr).
  - intros Hmis. by apply specialize_instance_misplaced.
  - intros Hwell fn Hfn. by apply specialize_instance_params_well_placed.
Qed.
End TopLevel.

(** C8 (as stated, refuted): the parameters are [x : i32], [rest...] and [y],
    so the variadic one is not last, and the one type supplied is [bool];
    top-level specialization fails, but with the mismatch on [x], which is
    met first. *)
Lemma misplaced_variadic_reports_mismatch_first :
  variadic_not_last (template_params misplaced_variadic)
  /\ fst (specialize_function (H := plain_externals) 1 None misplaced_variadic [TYPE_Bool]
            empty_state)
     = Fail (mkError (error_type_mismatch TYPE_I32 TYPE_Bool) [])
  /\ fst (specialize_function (H := plain_externals) 1 None misplaced_variadic [TYPE_Bool]
            empty_state)
     <> Fail (mkError error_variadic_symbol_not_in_last_place []).
Proof.
  split; [|split].
  - exists [param_x], param_rest, [param_y]. repeat split; discriminate.
  - vm_compute. reflexivity.
  - vm_compute. discriminate.
Qed.

(** ** Witnesses *)


Lemma variadic_parameter_placement_witness :
  (exists st',
     specialize_bind_specialized_arguments symbol_ctx [] [] [param_rest; param_y]
       [const_one] true top_state
     = (Fail (mkError error_variadic_symbol_not_in_last_place []), st'))
  /\ (exists st',
        specialize_instance (specialize (H := plain_externals) 1) None misplaced_variadic
          [TYPE_I32] empty_state
        = (Fail (mkError error_variadic_symbol_not_in_last_place []), st')).
Proof.
  assert (variadic_not_last [param_rest; param_y]) as Hmis1.
  { exists [], param_rest, [param_y]. repeat split; discriminate. }
  assert (variadic_not_last (template_params misplaced_variadic)) as Hmis2.
  { exists [param_x], param_rest, [param_y]. repeat split; discriminate. }
  destruct (variadic_parameter_placement
              (specialize (H := plain_externals) 1) symbol_ctx 0 true [const_one]
              [param_rest; param_y] [] [] top_state None misplaced_variadic [TYPE_I32]
              empty_state) as (Hbind & _ & Htop & _).
  - reflexivity.
  - vm_compute. lia.
  - repeat constructor. by exists TYPE_I32.
  - reflexivity.
  - vm_compute. split; [reflexivity | exact I].
  - split; [exact (Hbind Hmis1) | exact (Htop Hmis2)].
Defined.

Lemma load_requires_readable_pointer_witness :
  exists e msg,
    specialize_call_interior (H := plain_externals)
      (specialize (H := plain_externals) 1) 1 symbol_ctx 0
      load_callee [unreadable_pointer] top_state = (Fail e, top_state)
    /\ err_kind e = location_error msg
    /\ includes "non-readable" msg.
Proof.
  refine (proj1 (load_requires_readable_pointer (H := plain_externals)
            (specialize (H := plain_externals) 1) 1 symbol_ctx 0 load_callee
            [unreadable_pointer] top_state top_state top_state 0 5 unreadable_pointer
            (TPointer TYPE_I32 PTF_NonReadable SYM_Unnamed) TYPE_I32 PTF_NonReadable
            SYM_Unnamed _ _ _ _ _) _);
    try (vm_compute; reflexivity).
  left. reflexivity.
Defined.

Lemma bitcast_to_same_type_is_identity_witness :
  specialize_call_interior (H := plain_externals)
    (specialize (H := plain_externals) 1) 1 symbol_ctx 0
    bitcast_callee [const_one; i32_constant] top_state = (Ok const_one, top_state).
Proof.
  apply (bitcast_to_same_type_is_identity (H := plain_externals)
           (specialize (H := plain_externals) 1) 1 symbol_ctx 0 bitcast_callee
           [const_one; i32_constant] top_state top_state top_state 0 4 const_one 0 TYPE_I32);
    vm_compute; reflexivity.
Defined.

(** ** Where the code departs from the specification *)

(** A typed node that is not bound is returned at once, whatever the
    target. *)
Lemma specialize_typed_unbound `{Externals} fuel ctx fr node st :
  frame ctx = Some fr ->
  resolve st fr node = None ->
  is_typed st node = true ->
  specialize (S fuel) ctx node st = (Ok node, st).
Proof.
  intros Hfr Hres Htyped. simpl. unfold specialize_node.
  unfold frame_resolve. rewrite Hfr.
  rewrite bind_Ok with (a := resolve st fr node) (st' := st) by reflexivity.
  rewrite bind_get_state, Hres, Htyped. reflexivity.
Qed.

(** The type of a closure callee that is still being specialized is
    assembled from its [return_type] as soon as that is not null, without
    running a job; [specialize_instance] starts every function with
    [NoReturn] there. *)
Lemma closure_callee_type_without_waiting `{Externals} self fuel fn f st :
  heap st !! fn = Some f ->
  fn_complete f = false ->
  is_Some (fn_return_type f) ->
  closure_callee_type self fuel fn st = (get_function_type f, st).
Proof.
  intros Hf Hc Hr. unfold closure_callee_type.
  rewrite bind_Ok with (a := f) (st' := st) by (unfold deref; by rewrite Hf).
  rewrite Hc. by rewrite bool_decide_eq_true_2.
Qed.

(** Only with a null [return_type] does the specializer wait: it runs the
    queue, and raises [untyped_recursive_call] if the type is still not
    there. *)
Lemma closure_callee_type_null_return_type `{Externals} self fuel fn f st :
  heap st !! fn = Some f ->
  fn_complete f = false ->
  fn_return_type f = None ->
  closure_callee_type self fuel fn st
  = (let* ready := wait_for_return_type self fuel fn in
     if ready then
       let* f := deref (Some fn) in
       lift (get_function_type f)
     else throw error_untyped_recursive_call) st.
Proof.
  intros Hf Hc Hr. unfold closure_callee_type.
  rewrite bind_Ok with (a := f) (st' := st) by (unfold deref; by rewrite Hf).
  rewrite Hc, Hr. rewrite bool_decide_eq_false_2; [reflexivity|].
  by intros [T HT].
Qed.

(** Whatever the labelled value specializes to, the keyed node built around
    it has no type. *)
Lemma specialize_Keyed_untyped self ctx anchor key value st v st' :
  self ctx value st = (Ok v, st') ->
  exists r, specialize_Keyed self ctx anchor key value st = (Ok r, st')
            /\ forall st'', type_of st'' r = None.
Proof.
  intros Hself. exists (Keyed anchor None key v). split; [|reflexivity].
  unfold specialize_Keyed. by rewrite (bind_Ok _ _ _ _ _ Hself).
Qed.

(** C1 (the code departs): [g] calls itself in its first branch and returns
    1 in its else branch.  When the call is specialized the cached function is
    incomplete, its [return_type] is still [NoReturn] and the job of the else
    branch is waiting in the queue; no job is run and no
    [untyped_recursive_call] is raised: the type of the callee is assembled at
    once, with return type [NoReturn], and the call is emitted with it,
    although running the waiting job would have set the return type to [i32],
    which is what the function ends up with. *)
Theorem recursive_call_typed_before_return_type_known :
  closure_callee_type (specialize (H := plain_externals) 3) 3 1 waiting_state
    = (Ok (native_ro_pointer_type
             (raising_function_type TYPE_NoReturn TYPE_NoReturn [TYPE_Bool])),
       waiting_state)
  /\ (let st' := snd (process_jobs (specialize (H := plain_externals) 3) 3 waiting_state) in
      (fn_return_type <$> heap st' !! 1) = Some (Some TYPE_I32) /\ jobs st' = [])
  /\ (let '(r, st') := specialize_function (H := plain_externals) 6 (Some 0)
                          recursive_template [TYPE_Bool] recursive_state in
      r = Ok 1
      /\ (fn_return_type <$> heap st' !! 1) = Some (Some TYPE_I32)
      /\ (fn_value <$> heap st' !! 1)
         = Some (If 1 (Some TYPE_NoReturn)
                   [mkClause 2 (Some (VSymbolValue cond_param))
                      (Call 3 (Some TYPE_NoReturn) (VFunction 1)
                         [VSymbolValue cond_param])]
                   (mkClause 4 None (Return 0 (Some TYPE_NoReturn) const_one)))).
Proof. vm_compute. repeat split; reflexivity. Qed.

(** C2 (the code departs): the rule of [Keyed] builds its node without a
    type, so the value [specialize] returns for a keyed constant carries
    neither a concrete type nor [NoReturn]; as an argument, and under the
    return target, the same node trips the assertion of [get_type]. *)
Theorem specialize_Keyed_returns_untyped_value :
  specialize (H := plain_externals) 2 symbol_ctx keyed_one top_state
    = (Ok keyed_one, top_state)
  /\ type_of top_state keyed_one = None
  /\ fst (specialize_arguments (specialize (H := plain_externals) 2) symbol_ctx []
            [keyed_one] top_state)
     = Abort "get_type: the node is untyped"
  /\ fst (specialize (H := plain_externals) 2 return_ctx keyed_one top_state)
     = Abort "get_type: the node is untyped".
Proof. repeat split; vm_compute; reflexivity. Qed.

(** C4 (the code departs): under the return target a typed constant that is
    not bound comes back as it is, not wrapped in a [Return], and the
    [return_type] of the frame is not joined with its type; a function whose
    body is such a constant then trips the assertion that its body does not
    return. *)
Theorem typed_unbound_node_not_wrapped_in_Return :
  specialize (H := plain_externals) 1 return_ctx const_one top_state
    = (Ok const_one, top_state)
  /\ type_of top_state const_one = Some TYPE_I32
  /\ (fn_return_type <$> heap top_state !! 0) = Some (Some TYPE_NoReturn)
  /\ fst (specialize_function (H := plain_externals) 2 None constant_template []
            empty_state)
     = Abort "assert(!is_returning(fn->value->get_type()))".
Proof. repeat split; vm_compute; reflexivity. Qed.

(** ** The scenarios of the specification, run *)

(** [let x = 1] then [x + 2]: the let binds a constant, so it leaves nothing
    behind, and what stays is the typed call of [Add]. *)
Example scenario_let_then_add :
  fst (specialize (H := plain_externals) 6 symbol_ctx
         (Block 1 None [Let 2 None [let_symbol] [const_one]]
            (Call 3 None add_callee [VSymbolValue let_symbol; ConstInt 0 TYPE_I32 2]))
         top_state)
  = Ok (Call 3 (Some TYPE_I32) add_callee [const_one; ConstInt 0 TYPE_I32 2]).
Proof. vm_compute. reflexivity. Qed.

(** [if true 1 else "s"]: the else branch is dropped, its type is never
    compared with [i32]. *)
Example scenario_if_true :
  fst (specialize (H := plain_externals) 3 symbol_ctx (If 1 None [true_clause] string_else)
         top_state)
  = Ok const_one.
Proof. vm_compute. reflexivity. Qed.

(** [if c 1 else "s"] with [c] not a constant: the two branches do not
    merge. *)
Example scenario_if_opaque :
  fst (specialize (H := plain_externals) 3 symbol_ctx
         (If 1 None [mkClause 2 (Some opaque_cond) const_one] string_else) top_state)
  = Fail (mkError (error_cannot_merge_expression_types TYPE_I32 TYPE_String) []).
Proof. vm_compute. reflexivity. Qed.

(** A return inside an inline template. *)
Example scenario_return_in_inline :
  err_kind <$> (match fst (specialize (H := plain_externals) 4 symbol_ctx
                             (Call 7 None inline_closure []) top_state) with
                | Fail e => Some e
                | _ => None
                end)
  = Some error_illegal_return_in_inline.
Proof. vm_compute. reflexivity. Qed.

(** * Further properties of the specializer

    What the rules of prover.cpp do beyond the statements of the
    specification: their errors, the invariants of what they build, and how
    they work together. *)

(** ** More laws of the monad *)

Lemma bind_Ok_inv {A B} (m : M A) (k : A -> M B) st b st' :
  bind m k st = (Ok b, st') ->
  exists a st1, m st = (Ok a, st1) /\ k a st1 = (Ok b, st').
Proof. unfold bind. destruct (m st) as [[a | e | w |] st1]; try discriminate. eauto. Qed.

Lemma bind_ret_r {A} (m : M A) st : bind m ret st = m st.
Proof. unfold bind, ret. destruct (m st) as [[a | e | w |] st']; reflexivity. Qed.

Lemma ret_Ok_inv {A} (a b : A) st st' : ret a st = (Ok b, st') -> b = a /\ st' = st.
Proof. unfold ret. intros Heq. by inversion Heq. Qed.

Lemma lift_Ok_inv {A} (r : Result A) st a st' :
  lift r st = (Ok a, st') -> r = Ok a /\ st' = st.
Proof. unfold lift. intros [= -> ->]. auto. Qed.

Lemma result_bind_Ok_inv {A B} (r : Result A) (k : A -> Result B) b :
  result_bind r k = Ok b -> exists a, r = Ok a /\ k a = Ok b.
Proof. destruct r; try discriminate. eauto. Qed.

Lemma catch_not_Fail {A} (m : M A) st e st' : catch m st <> (Fail e, st').
Proof. unfold catch. destruct (m st) as [[a | e' | w |] st1]; discriminate. Qed.

(** ** Reading types *)

Lemma is_returning_false T : is_returning T = false -> T = TYPE_NoReturn.
Proof. unfold is_returning. case_bool_decide; [done | discriminate]. Qed.

Lemma get_type_Ok st v T : get_type st v = Ok T -> type_of st v = Some T.
Proof. unfold get_type. destruct (type_of st v); [congruence | discriminate]. Qed.

Lemma is_typed_false st v : type_of st v = None -> is_typed st v = false.
Proof.
  intros Hv. unfold is_typed. rewrite Hv. by apply bool_decide_eq_false_2, is_Some_None.
Qed.

Lemma is_typed_true st v T : type_of st v = Some T -> is_typed st v = true.
Proof. intros Hv. unfold is_typed. rewrite Hv. by apply bool_decide_eq_true_2. Qed.

Lemma is_Const_typed st c : is_Const c = true -> exists T, type_of st c = Some T.
Proof. destruct c; try discriminate; simpl; eauto. Qed.

Lemma is_Const_unbound st fr c : is_Const c = true -> resolve st fr c = None.
Proof. by destruct c. Qed.

Lemma types_of_length st values Ts : types_of st values = Ok Ts -> length Ts = length values.
Proof.
  revert Ts. induction values as [|v values IH]; intros Ts; simpl.
  - by intros [= <-].
  - destruct (get_type st v); try discriminate. simpl.
    destruct (types_of st values) as [Ts'| | |]; try discriminate.
    intros [= <-]. simpl. f_equal. by apply IH.
Qed.

Lemma types_of_lookup st values Ts i v :
  types_of st values = Ok Ts -> values !! i = Some v ->
  exists T, Ts !! i = Some T /\ type_of st v = Some T.
Proof.
  revert Ts i. induction values as [|x values IH]; intros Ts i; simpl; [done|].
  unfold get_type. destruct (type_of st x) as [Tx|] eqn:Hx; try discriminate. simpl.
  destruct (types_of st values) as [Ts'| | |]; try discriminate.
  intros [= <-]. destruct i as [|i]; simpl.
  - intros [= <-]. eauto.
  - by apply IH.
Qed.

(** ** The dispatcher on nodes that are not bound *)

(** An untyped node that is not bound goes to the rule of its kind; outside
    the return target the result of the rule is the result. *)
Lemma specialize_untyped_unbound `{Externals} fuel ctx fr node st :
  frame ctx = Some fr ->
  resolve st fr node = None ->
  type_of st node = None ->
  target ctx <> EvalTarget_Return ->
  specialize (S fuel) ctx node st = specialize_kind (specialize fuel) fuel ctx node st.
Proof.
  intros Hfr Hres Hty Htarget. simpl. unfold specialize_node, frame_resolve. rewrite Hfr.
  rewrite bind_Ok with (a := resolve st fr node) (st' := st) by reflexivity.
  rewrite bind_get_state, Hres, (is_typed_false _ _ Hty).
  rewrite bool_decide_eq_false_2 by exact Htarget.
  apply bind_ret_r.
Qed.

(** When the rule gives a value that does not return, the target does not
    matter. *)
Lemma specialize_noreturn_rule `{Externals} fuel ctx fr node st r st' :
  frame ctx = Some fr ->
  resolve st fr node = None ->
  type_of st node = None ->
  specialize_kind (specialize fuel) fuel ctx node st = (Ok r, st') ->
  type_of st' r = Some TYPE_NoReturn ->
  specialize (S fuel) ctx node st = (Ok r, st').
Proof.
  intros Hfr Hres Hty Hrule Hr. simpl. unfold specialize_node, frame_resolve. rewrite Hfr.
  rewrite bind_Ok with (a := resolve st fr node) (st' := st) by reflexivity.
  rewrite bind_get_state, Hres, (is_typed_false _ _ Hty).
  rewrite (bind_Ok _ _ _ _ _ Hrule).
  case_bool_decide; [|reflexivity].
  rewrite bind_Ok with (a := TYPE_NoReturn) (st' := st')
    by (unfold get_type_of, get_type; by rewrite Hr).
  reflexivity.
Qed.

(** A constant specializes to itself. *)
Lemma specialize_constant `{Externals} fuel ctx fr c st :
  frame ctx = Some fr -> is_Const c = true ->
  specialize (S fuel) ctx c st = (Ok c, st).
Proof.
  intros Hfr Hc. destruct (is_Const_typed st c Hc) as [T HT].
  apply specialize_typed_unbound with (fr := fr); auto.
  - by apply is_Const_unbound.
  - by apply is_typed_true with T.
Qed.

(** A symbol that is bound specializes to its binding. *)
Lemma specialize_bound_symbol `{Externals} fuel ctx fr s v st :
  frame ctx = Some fr ->
  target ctx <> EvalTarget_Return ->
  resolve st fr (VSymbolValue s) = Some v ->
  specialize (S fuel) ctx (VSymbolValue s) st = (Ok v, st).
Proof.
  intros Hfr Htarget Hres. simpl. unfold specialize_node, frame_resolve. rewrite Hfr.
  rewrite bind_Ok with (a := Some v) (st' := st) by (by rewrite Hres).
  rewrite bind_get_state.
  rewrite bool_decide_eq_false_2 by exact Htarget.
  by destruct (is_typed st (VSymbolValue s)).
Qed.

(** ** The scheduler *)

Section Scheduler.
Context `{Externals}.
Variable self : ASTContext -> Value -> M Value.
Variable fuel : nat.

Lemma specialize_coroutine_not_Fail job st e st' :
  specialize_coroutine self job st <> (Fail e, st').
Proof.
  unfold specialize_coroutine, bind.
  destruct (catch (self (job_ctx job) (job_node job)) st) as [[r | e' | w |] st1] eqn:Hc;
    try discriminate.
  by apply catch_not_Fail in Hc.
Qed.

(** The loop of [process_jobs] reports no error of its own and, when it
    comes back, has left no job in the queue. *)
Lemma process_jobs_loop_outcome n st :
  (forall e st', process_jobs_loop self n st <> (Fail e, st'))
  /\ (forall k st', process_jobs_loop self n st = (Ok k, st') -> jobs st' = []).
Proof.
  revert st. induction n as [|n IH]; intros st.
  - cbn [process_jobs_loop]. rewrite bind_get_state. destruct (jobs st) eqn:Hj.
    + split; [discriminate|]. intros k st' Heq. inversion Heq; subst; exact Hj.
    + split; discriminate.
  - cbn [process_jobs_loop]. rewrite bind_get_state.
    destruct (jobs st) as [|job rest] eqn:Hj.
    + split; [discriminate|]. intros k st' Heq. inversion Heq; subst; exact Hj.
    + rewrite bind_Ok with (a := tt) (st' := with_jobs rest st) by reflexivity.
      destruct (specialize_coroutine self job (with_jobs rest st))
        as [[[] | e1 | w |] st1] eqn:Hco.
      * rewrite (bind_Ok _ _ _ _ _ Hco).
        destruct (process_jobs_loop self n st1) as [[k1 | e2 | w |] st2] eqn:Hp.
        -- rewrite (bind_Ok _ _ _ _ _ Hp). split; [discriminate|].
           intros k st' Heq. inversion Heq; subst.
           exact (proj2 (IH st1) _ _ Hp).
        -- by destruct (proj1 (IH st1) e2 st2).
        -- unfold bind. rewrite Hp. split; discriminate.
        -- unfold bind. rewrite Hp. split; discriminate.
      * by apply specialize_coroutine_not_Fail in Hco.
      * unfold bind. rewrite Hco. split; discriminate.
      * unfold bind. rewrite Hco. split; discriminate.
Qed.

(** X1: [process_jobs] itself never reports an error, and when it returns
    every job has been taken out of the queue, those added while it ran
    included.  When the jobs of the queue run one after the other, each
    leaving the queue and the slots it finds as they are, [process_jobs] runs
    them all, in order, and returns their number; afterwards the slot of every
    job holds the outcome of that job: the value it gave, or the error it
    reported, after which the jobs behind it are run all the same. *)
Theorem process_jobs_runs_every_job st :
  (forall e st', process_jobs self fuel st <> (Fail e, st'))
  /\ (forall k st', process_jobs self fuel st = (Ok k, st') -> jobs st' = [])
  /\ (forall q rs st',
        jobs_run self q st rs st' ->
        length q <= fuel ->
        NoDup (job_slot <$> q) ->
        (forall job, job ∈ q -> job_slot job < length (slots st)) ->
        process_jobs self fuel st = (Ok (length q), st')
        /\ forall i job r, q !! i = Some job -> rs !! i = Some r ->
             slots st' !! job_slot job = Some (Some r)).
Proof.
  split; [apply process_jobs_loop_outcome|].
  split; [apply process_jobs_loop_outcome|].
  intros q rs st' Hrun Hfuel Hnd Hin. split.
  - by apply (jobs_run_loop self q st rs).
  - by apply (jobs_run_slots self q st rs st').
Qed.

Lemma collect_jobs_length count :
  forall slot st vs st',
    collect_jobs slot count st = (Ok vs, st') -> length vs = count /\ st' = st.
Proof.
  induction count as [|count IH]; intros slot st vs st'; simpl.
  - by intros [= <- <-].
  - rewrite bind_get_state. destruct (slots st !! slot) as [[r|]|]; try discriminate.
    intros Hrun.
    apply bind_Ok_inv in Hrun as (v & st1 & Hv & Hrun).
    destruct r as [v'|e]; [|discriminate]. injection Hv as -> <-.
    apply bind_Ok_inv in Hrun as (vs' & st2 & Hvs & Hrun).
    apply IH in Hvs as [<- ->]. by injection Hrun as <- <-.
Qed.

(** X2: when [specialize_jobs] succeeds it hands back exactly one
    specialized value per node, and the queue is empty again.  When the jobs
    queued for the nodes run one after the other, [specialize_jobs] hands back
    what [self] gave for each node, in the order of the nodes; if [self]
    reported an error for a node, the first such error is the result, the
    jobs of all the nodes having been run. *)
Theorem specialize_jobs_one_value_per_node ctx nodes st :
  (forall vs st', specialize_jobs self fuel ctx nodes st = (Ok vs, st') ->
     length vs = length nodes /\ jobs st' = [])
  /\ (forall rs st',
        length nodes <= fuel ->
        jobs_run self (branch_jobs ctx (length (slots st)) nodes) (queued ctx nodes st) rs st' ->
        specialize_jobs self fuel ctx nodes st = (gathered rs, st')
        /\ length rs = length nodes
        /\ (forall i r, rs !! i = Some r ->
              exists node sa sb,
                nodes !! i = Some node /\ catch (self ctx node) sa = (Ok r, sb))
        /\ (forall vs, gathered rs = Ok vs -> rs = inl <$> vs)).
Proof.
  split.
  - intros vs st'. unfold specialize_jobs. rewrite bind_get_state. intros Hrun.
    apply bind_Ok_inv in Hrun as ([] & st1 & _ & Hrun).
    apply bind_Ok_inv in Hrun as (k & st2 & Hp & Hrun).
    rewrite bind_get_state in Hrun.
    destruct (all_done st2 (length (slots st)) (length nodes)); [|discriminate].
    apply collect_jobs_length in Hrun as [Hlen ->].
    split; [exact Hlen|].
    by apply (proj2 (process_jobs_loop_outcome fuel st1) k).
  - intros rs st' Hfuel Hrun.
    pose proof (jobs_run_length _ _ _ _ _ Hrun) as Hlen.
    rewrite branch_jobs_length in Hlen.
    split; [by apply specialize_jobs_run|]. split; [exact Hlen|]. split.
    + intros i r Hr.
      destruct (lookup_lt_is_Some_2 (branch_jobs ctx (length (slots st)) nodes) i)
        as [job Hjob].
      { rewrite branch_jobs_length, <- Hlen. by apply lookup_lt_Some in Hr. }
      destruct (jobs_run_outcome _ _ _ _ _ _ _ _ Hrun Hjob Hr) as (sa & sb & Hc).
      apply branch_jobs_lookup in Hjob as (node & Hnode & ->). eauto.
    + clear. induction rs as [|[v|e] rs IH]; intros vs Hvs.
      * by injection Hvs as <-.
      * cbn [gathered] in Hvs. destruct (gathered rs) as [vs' | | |]; try discriminate.
        injection Hvs as <-. rewrite fmap_cons. f_equal. by apply IH.
      * discriminate.
Qed.
End Scheduler.

Lemma process_jobs_runs_every_job_witness :
  process_jobs (specialize (H := plain_externals) 1) 2 two_jobs_state
  = (Ok 2, with_slots [Some (inr unbound_error); Some (inl const_one)]
             (with_jobs [] two_jobs_state))
  /\ forall i job r,
       [unbound_job; constant_job] !! i = Some job ->
       [inr unbound_error; inl const_one] !! i = Some r ->
       [Some (inr unbound_error); Some (inl const_one)] !! job_slot job = Some (Some r).
Proof.
  apply (proj2 (proj2 (process_jobs_runs_every_job (specialize (H := plain_externals) 1) 2
                         two_jobs_state))
           [unbound_job; constant_job] [inr unbound_error; inl const_one]
           (with_slots [Some (inr unbound_error); Some (inl const_one)]
              (with_jobs [] two_jobs_state))).
  - eapply jobs_run_cons; [reflexivity|reflexivity|reflexivity|by exists []|].
    eapply jobs_run_cons; [reflexivity|reflexivity|reflexivity|by exists []|].
    by apply jobs_run_nil.
  - simpl. lia.
  - apply (NoDup_seq 0 2).
  - intros job Hjob.
    apply elem_of_cons in Hjob as [->|Hjob]; [simpl; lia|].
    apply list_elem_of_singleton in Hjob as ->. simpl. lia.
Defined.

Lemma specialize_jobs_one_value_per_node_witness :
  specialize_jobs (specialize (H := plain_externals) 1) 2 symbol_ctx
    [const_one; VSymbolValue let_symbol] top_state
  = (Fail unbound_error,
     with_slots [Some (inl const_one); Some (inr unbound_error)] top_state)
  /\ length [inl const_one; @inr Value Error unbound_error] = 2
  /\ (forall i r, [inl const_one; inr unbound_error] !! i = Some r ->
        exists node sa sb,
          [const_one; VSymbolValue let_symbol] !! i = Some node
          /\ catch (specialize (H := plain_externals) 1 symbol_ctx node) sa = (Ok r, sb))
  /\ (forall vs, gathered [inl const_one; inr unbound_error] = Ok vs ->
        [inl const_one; inr unbound_error] = inl <$> vs).
Proof.
  apply (proj2 (specialize_jobs_one_value_per_node (specialize (H := plain_externals) 1) 2
                  symbol_ctx [const_one; VSymbolValue let_symbol] top_state)
           [inl const_one; inr unbound_error]
           (with_slots [Some (inl const_one); Some (inr unbound_error)] top_state)).
  - simpl. lia.
  - eapply jobs_run_cons; [reflexivity|reflexivity|reflexivity|by exists []|].
    eapply jobs_run_cons; [reflexivity|reflexivity|reflexivity|by exists []|].
    by apply jobs_run_nil.
Defined.

(** ** Joining the types of branches *)

Lemma merge_value_type_void ctx (acc : bool) T :
  is_target_void ctx = true ->
  merge_value_type ctx (Some (if acc then empty_arguments_type else TYPE_NoReturn)) (Some T)
  = Ok (if acc || is_returning T then empty_arguments_type else TYPE_NoReturn).
Proof.
  intros Hvoid. unfold merge_value_type, transform_return_type. rewrite Hvoid.
  destruct (is_returning T) eqn:HT; destruct acc; simpl; try reflexivity.
  all: apply is_returning_false in HT; subst T; reflexivity.
Qed.

Lemma merge_branch_types_void_from ctx st values :
  is_target_void ctx = true ->
  forall Ts (acc : bool),
    types_of st values = Ok Ts ->
    merge_branch_types ctx st (Some (if acc then empty_arguments_type else TYPE_NoReturn))
      values
    = Ok (Some (if acc || existsb is_returning Ts
                then empty_arguments_type else TYPE_NoReturn)).
Proof.
  intros Hvoid. induction values as [|v values IH]; intros Ts acc HTs.
  - injection HTs as <-. simpl. by rewrite orb_false_r.
  - simpl in HTs. destruct (get_type st v) as [T| | |] eqn:HT; try discriminate.
    simpl in HTs. destruct (types_of st values) as [Ts'| | |]; try discriminate.
    injection HTs as <-. cbn [merge_branch_types]. rewrite HT. cbn [result_bind].
    rewrite merge_value_type_void by exact Hvoid. cbn [result_bind].
    rewrite (IH Ts' (acc || is_returning T)) by reflexivity.
    cbn [existsb]. by rewrite orb_assoc.
Qed.

(** X3: under the void target the types of the branches of a conditional
    never conflict, however different they are: joining them gives the empty
    arguments type when some branch returns, and [NoReturn] when none
    does. *)
Theorem merge_branch_types_void ctx st values Ts :
  is_target_void ctx = true ->
  values <> [] ->
  types_of st values = Ok Ts ->
  merge_branch_types ctx st None values
  = Ok (Some (if existsb is_returning Ts then empty_arguments_type else TYPE_NoReturn)).
Proof.
  intros Hvoid Hne HTs. destruct values as [|v values]; [done|].
  simpl in HTs. destruct (get_type st v) as [T| | |] eqn:HT; try discriminate.
  simpl in HTs. destruct (types_of st values) as [Ts'| | |] eqn:HTs'; try discriminate.
  injection HTs as <-. cbn [merge_branch_types]. rewrite HT. cbn [result_bind].
  unfold merge_value_type at 1. unfold transform_return_type. rewrite Hvoid.
  cbn [existsb]. destruct (is_returning T) eqn:Hr; cbn [andb orb result_bind].
  - by rewrite (merge_branch_types_void_from ctx st values Hvoid Ts' true).
  - apply is_returning_false in Hr. subst T.
    by rewrite (merge_branch_types_void_from ctx st values Hvoid Ts' false).
Qed.

Lemma merge_branch_types_void_witness :
  merge_branch_types void_ctx top_state None [const_one; const_string]
  = Ok (Some empty_arguments_type).
Proof.
  apply (merge_branch_types_void void_ctx top_state [const_one; const_string]
           [TYPE_I32; TYPE_String]).
  - reflexivity.
  - discriminate.
  - reflexivity.
Defined.

(** ** Blocks *)

Section Blocks.
Context `{Externals}.
Variable self : ASTContext -> Value -> M Value.

Lemma specialize_Block_body_kept subctx body :
  forall newbody st r st',
    specialize_Block_body self subctx body newbody st = (Ok r, st') ->
    Forall (fun s => is_useless s = false) newbody ->
    Forall (fun s => is_useless s = false) r /\ length r <= length newbody + length body.
Proof.
  induction body as [|src rest IH]; intros newbody st r st' Hrun Hkept.
  - injection Hrun as <- <-. split; [exact Hkept | simpl; lia].
  - simpl in Hrun.
    apply bind_Ok_inv in Hrun as (newsrc & st1 & _ & Hrun).
    apply bind_Ok_inv in Hrun as (T & st2 & _ & Hrun).
    apply bind_Ok_inv in Hrun as ([] & st3 & _ & Hrun).
    apply IH in Hrun as [Hr Hlen].
    + split; [exact Hr|]. simpl.
      destruct (negb (is_useless newsrc)); [rewrite length_app in Hlen; simpl in Hlen|]; lia.
    + destruct (is_useless newsrc) eqn:Hu; simpl; [exact Hkept|].
      apply Forall_app. split; [exact Hkept|]. by constructor.
Qed.

(** X4: the block [specialize_Block] builds, before it is canonicalized,
    holds no statement that is useless (a constant, a symbol, a template, a
    function or a let without parameters), has no more statements than the
    source block, and has the type of its value as the target transforms
    it. *)
Theorem specialize_Block_keeps_only_effects ctx anchor body value st v st' :
  specialize_Block self ctx anchor body value st = (Ok v, st') ->
  exists newbody newvalue T,
    v = Block_canonicalize
          (Block anchor (Some (transform_return_type ctx T)) newbody newvalue)
    /\ type_of st' newvalue = Some T
    /\ Forall (fun s => is_useless s = false) newbody
    /\ length newbody <= length body.
Proof.
  unfold specialize_Block. intros Hrun.
  apply bind_Ok_inv in Hrun as (newbody & st1 & Hbody & Hrun).
  apply bind_Ok_inv in Hrun as (newvalue & st2 & _ & Hrun).
  apply bind_Ok_inv in Hrun as (T & st3 & HT & Hrun).
  injection Hrun as <- <-.
  unfold get_type_of, get_type in HT.
  destruct (type_of st2 newvalue) as [T'|] eqn:Hty; [|discriminate].
  injection HT as -> <-.
  apply specialize_Block_body_kept in Hbody as [Hkept Hlen]; [|constructor].
  exists newbody, newvalue, T. repeat split; auto.
Qed.
End Blocks.

Lemma specialize_Block_keeps_only_effects_witness :
  exists newbody newvalue T,
    Call 3 (Some TYPE_I32) add_callee [const_one; ConstInt 0 TYPE_I32 2]
    = @Block_canonicalize plain_externals
        (Block 1 (Some (transform_return_type symbol_ctx T)) newbody newvalue)
    /\ type_of (snd (specialize_Block (H := plain_externals)
                       (specialize (H := plain_externals) 5) symbol_ctx 1
                       [Let 2 None [let_symbol] [const_one]]
                       (Call 3 None add_callee
                          [VSymbolValue let_symbol; ConstInt 0 TYPE_I32 2]) top_state))
         newvalue = Some T
    /\ Forall (fun s => is_useless s = false) newbody
    /\ length newbody <= 1.
Proof.
  apply (specialize_Block_keeps_only_effects (H := plain_externals)
           (specialize (H := plain_externals) 5) symbol_ctx 1
           [Let 2 None [let_symbol] [const_one]]
           (Call 3 None add_callee [VSymbolValue let_symbol; ConstInt 0 TYPE_I32 2])
           top_state).
  vm_compute. reflexivity.
Defined.

(** ** Argument lists of any length *)

(** X5: for a list of typed values that does not have exactly one element,
    argument [i] of the list [build_argument_list] builds is element [i]
    itself when there is one and its type is not [Nothing]; past the end of
    the list, and for an element of type [Nothing], it is the [none] constant
    at the anchor of the list. *)
Theorem extract_argument_of_built_list st anchor values Ts i :
  length values <> 1 ->
  types_of st values = Ok Ts ->
  (let+ l := build_argument_list st anchor values in extract_argument st l i)
  = Ok (match values !! i, Ts !! i with
        | Some v, Some T =>
            if bool_decide (T = TYPE_Nothing) then ConstTuple_none_from anchor else v
        | _, _ => ConstTuple_none_from anchor
        end).
Proof.
  intros Hlen HTs.
  assert (build_argument_list st anchor values
          = Ok (ArgumentList anchor (Some (TArguments Ts)) values)) as ->.
  { pose proof (types_of_length _ _ _ HTs) as Hl.
    unfold build_argument_list, arguments_type_from_arguments. rewrite HTs.
    destruct values as [|x [|y values]]; [| done |];
      destruct Ts as [|Tx [|Ty Ts]]; try discriminate; reflexivity. }
  cbn [result_bind]. unfold extract_argument, get_type. cbn [type_of result_bind].
  cbn [is_returning is_arguments_type value_anchor].
  change (negb (is_returning (TArguments Ts))) with false. cbv iota.
  unfold tuple_storage. cbn [storage_type result_bind]. unfold type_at_index_or_nothing.
  destruct (values !! i) as [v|] eqn:Hv.
  - destruct (types_of_lookup _ _ _ _ _ HTs Hv) as (T & HT & _). rewrite HT. simpl.
    by case_bool_decide.
  - assert (Ts !! i = None) as ->.
    { apply lookup_ge_None. rewrite (types_of_length _ _ _ HTs). by apply lookup_ge_None. }
    simpl. reflexivity.
Qed.

Lemma extract_argument_of_built_list_witness :
  (let+ l := build_argument_list top_state 7 [const_one; const_string] in
   extract_argument top_state l 1) = Ok const_string.
Proof.
  apply (extract_argument_of_built_list top_state 7 [const_one; const_string]
           [TYPE_I32; TYPE_String] 1).
  - discriminate.
  - reflexivity.
Defined.

(** ** Let and Loop *)

Lemma update_Ok_keeps_types a g st st' :
  update a g st = (Ok tt, st') ->
  (forall f, fn_type (g f) = fn_type f) ->
  keeps_types st st'.
Proof.
  intros Hu Hg.
  assert (a < length (heap st)) as Hlt.
  { unfold update in Hu. destruct (heap st !! a) eqn:Hf; [|discriminate].
    by eapply lookup_lt_Some. }
  destruct (update_keeps_types a g st Hlt Hg) as (st'' & Hu' & Hk). congruence.
Qed.

Lemma frame_bind_Ok_keeps_types ctx oldsym v st st' :
  frame_bind ctx oldsym v st = (Ok tt, st') -> keeps_types st st'.
Proof.
  unfold frame_bind. destruct (frame ctx) as [fr|]; [|discriminate].
  intros Hu. by apply update_Ok_keeps_types in Hu.
Qed.

Section BoundParameters.
Context `{Externals}.
Variable self : ASTContext -> Value -> M Value.

(** What the binding loop adds to the lists it is given: as many new
    parameters as arguments, each parameter typed like its argument, one per
    source parameter when constants are not inlined, and no symbolic argument
    when they are. *)
Lemma bind_loop_aligned ctx inline_constants tmpargs params :
  forall i outparams outargs st ps args st',
    specialize_bind_specialized_arguments_loop ctx i params tmpargs inline_constants
      outparams outargs st = (Ok (ps, args), st') ->
    keeps_types st st'
    /\ exists ps' args',
         ps = outparams ++ ps' /\ args = outargs ++ args'
         /\ length ps' = length args'
         /\ length ps' <= length params
         /\ (inline_constants = false -> length ps' = length params)
         /\ (inline_constants = true -> Forall (fun a => is_symbolic a = false) args')
         /\ Forall2 (typed_like st') ps' args'.
Proof.
  induction params as [|oldsym rest IH]; intros i outparams outargs st ps args st' Hrun.
  { apply ret_Ok_inv in Hrun as [[= -> ->] ->]. split; [apply keeps_types_refl|].
    exists [], []. rewrite !app_nil_r. repeat split; auto; constructor. }
  cbn [specialize_bind_specialized_arguments_loop] in Hrun.
  apply bind_Ok_inv in Hrun as (newval & st0 & Hnew & Hrun).
  assert (st0 = st) as ->.
  { destruct (is_variadic oldsym).
    - destruct rest; [|discriminate]. case_bool_decide.
      + destruct (tmpargs !! i); [|discriminate]. by apply ret_Ok_inv in Hnew as [_ ->].
      + cbv zeta in Hnew. rewrite bind_get_state in Hnew.
        apply bind_Ok_inv in Hnew as (T & st1 & HT & Hnew).
        apply lift_Ok_inv in HT as [_ ->]. by apply ret_Ok_inv in Hnew as [_ ->].
    - destruct (tmpargs !! i); by apply ret_Ok_inv in Hnew as [_ ->]. }
  clear Hnew.
  destruct (inline_constants && is_symbolic newval) eqn:Hinl.
  - apply bind_Ok_inv in Hrun as ([] & st1 & Hb & Hrun).
    apply frame_bind_Ok_keeps_types in Hb.
    apply IH in Hrun as (Hk & ps' & args' & -> & -> & Hlen & Hle & Hall & Hsym & Hty).
    split; [by apply keeps_types_trans with st1|].
    exists ps', args'. repeat split; auto.
    + simpl. lia.
    + intros ->. discriminate Hinl.
  - apply bind_Ok_inv in Hrun as (T & st1 & HT & Hrun).
    unfold get_type_of, get_type in HT.
    destruct (type_of st newval) as [T'|] eqn:Hty'; [|discriminate].
    injection HT as -> <-.
    apply bind_Ok_inv in Hrun as (newsym & st1 & Hs & Hrun).
    destruct (SymbolValue_from_keeps_types (sym_anchor oldsym) (sym_name oldsym) T st)
      as (newsym' & st1' & Hs' & Hk1 & Hsty).
    rewrite Hs in Hs'. injection Hs' as <- <-.
    apply bind_Ok_inv in Hrun as ([] & st2 & Hb & Hrun).
    apply frame_bind_Ok_keeps_types in Hb.
    apply IH in Hrun as (Hk & ps' & args' & -> & -> & Hlen & Hle & Hall & Hsym & Hty).
    assert (keeps_types st st') as Hkeep
      by (apply keeps_types_trans with st1; [done|]; by apply keeps_types_trans with st2).
    split; [exact Hkeep|].
    exists (newsym :: ps'), (newval :: args'). rewrite <- !app_assoc.
    repeat split; auto.
    + simpl. lia.
    + simpl. lia.
    + intros Hf. simpl. f_equal. by apply Hall.
    + intros ->. constructor; [|by apply Hsym]. exact Hinl.
    + constructor; [|exact Hty]. unfold typed_like. rewrite Hsty.
      symmetry. by apply Hkeep.
Qed.

(** X6: the let [specialize_Let] builds has the empty arguments type, as
    many parameters as arguments and no more parameters than the source let;
    every parameter has the type of its argument, and no argument is symbolic
    (a constant, a symbol, a template or a function): those are bound in the
    frame instead. *)
Theorem specialize_Let_is_aligned ctx anchor params args st v st' :
  specialize_Let self ctx anchor params args st = (Ok v, st') ->
  exists newparams newargs,
    v = Let anchor (Some empty_arguments_type) newparams newargs
    /\ length newparams = length newargs
    /\ length newparams <= length params
    /\ Forall (fun a => is_symbolic a = false) newargs
    /\ Forall2 (typed_like st') newparams newargs.
Proof.
  unfold specialize_Let, specialize_bind_arguments, specialize_bind_specialized_arguments.
  intros Hrun.
  apply bind_Ok_inv in Hrun as ([ps newargs] & st1 & Hbind & Hrun).
  apply ret_Ok_inv in Hrun as [-> ->].
  apply bind_Ok_inv in Hbind as (tmpargs & st0 & _ & Hbind).
  apply bind_loop_aligned in Hbind
    as (_ & ps' & args' & -> & -> & Hlen & Hle & _ & Hsym & Hty).
  exists ps', args'. repeat split; auto.
Qed.

(** X7: the loop [specialize_Loop] builds has exactly one parameter and one
    initial argument for every parameter of the source loop, whatever the
    arguments are: constants are not inlined into a loop, and a parameter
    without an argument gets one. *)
Theorem specialize_Loop_keeps_parameters ctx anchor params args value st v st' :
  specialize_Loop self ctx anchor params args value st = (Ok v, st') ->
  exists newparams newargs newvalue T,
    v = Loop anchor (Some T) newparams newargs newvalue (Some T)
    /\ length newparams = length params
    /\ length newargs = length params.
Proof.
  unfold specialize_Loop, specialize_bind_arguments, specialize_bind_specialized_arguments.
  intros Hrun.
  apply bind_Ok_inv in Hrun as (newloop & st1 & _ & Hrun).
  apply bind_Ok_inv in Hrun as ([ps newargs] & st2 & Hbind & Hrun).
  apply bind_Ok_inv in Hrun as (newvalue & st3 & _ & Hrun).
  apply bind_Ok_inv in Hrun as (rtype & st4 & _ & Hrun).
  apply bind_Ok_inv in Hrun as (T1 & st5 & _ & Hrun).
  apply bind_Ok_inv in Hrun as (T & st6 & _ & Hrun).
  apply bind_Ok_inv in Hrun as ([] & st7 & _ & Hrun).
  apply ret_Ok_inv in Hrun as [-> ->].
  apply bind_Ok_inv in Hbind as (tmpargs & st0 & _ & Hbind).
  apply bind_loop_aligned in Hbind
    as (_ & ps' & args' & -> & -> & Hlen & _ & Hall & _ & _).
  exists ps', args', newvalue, T. simpl. repeat split; auto.
  rewrite <- Hlen. auto.
Qed.
End BoundParameters.

Lemma specialize_Let_is_aligned_witness :
  exists newparams newargs,
    Let 2 (Some empty_arguments_type) [] []
    = Let 2 (Some empty_arguments_type) newparams newargs
    /\ length newparams = length newargs
    /\ length newparams <= 1
    /\ Forall (fun a => is_symbolic a = false) newargs
    /\ Forall2 (typed_like (snd (specialize_Let (specialize (H := plain_externals) 1)
                                  symbol_ctx 2 [let_symbol] [const_one] top_state)))
         newparams newargs.
Proof.
  apply (specialize_Let_is_aligned (specialize (H := plain_externals) 1) symbol_ctx 2
           [let_symbol] [const_one] top_state).
  vm_compute. reflexivity.
Defined.

Lemma specialize_Loop_keeps_parameters_witness :
  exists newparams newargs newvalue T,
    fst (specialize_Loop (specialize (H := plain_externals) 2) symbol_ctx 2 [let_symbol]
           [const_one] (Break 3 None (VSymbolValue let_symbol)) top_state)
    = Ok (Loop 2 (Some T) newparams newargs newvalue (Some T))
    /\ length newparams = 1
    /\ length newargs = 1.
Proof.
  destruct (specialize_Loop (specialize (H := plain_externals) 2) symbol_ctx 2 [let_symbol]
              [const_one] (Break 3 None (VSymbolValue let_symbol)) top_state)
    as [r st'] eqn:Hrun.
  assert (exists v, r = Ok v) as [v ->].
  { revert Hrun. vm_compute. intros [= <- _]. eauto. }
  destruct (specialize_Loop_keeps_parameters (specialize (H := plain_externals) 2)
              symbol_ctx 2 [let_symbol] [const_one] (Break 3 None (VSymbolValue let_symbol))
              top_state v st' Hrun) as (ps & newargs & newvalue & T & -> & Hp & Ha).
  exists ps, newargs, newvalue, T. auto.
Defined.

Lemma resolve_bound st fr f x c :
  heap st !! fr = Some f ->
  resolve (with_heap (<[fr := bind_in (sym_addr x) c f]> (heap st)) st) fr (VSymbolValue x)
  = Some c.
Proof.
  intros Hf. assert (fr < length (heap st)) as Hlt by (by eapply lookup_lt_Some).
  unfold resolve. cbn [heap with_heap]. rewrite length_insert.
  destruct (length (heap st)) as [|n] eqn:Hn; [lia|].
  cbn [resolve_in sym_addr].
  rewrite list_lookup_insert_eq by lia. cbn [fn_map bind_in].
  by rewrite lookup_insert_eq.
Qed.

(** X8: a let of one parameter that is not variadic, bound to a constant
    of a returning type that is not an arguments tuple, leaves nothing to
    emit: outside the return target it specializes to a let without
    parameters, which a block drops as useless; the only change is that the
    parameter is bound to the constant in the frame, and the parameter then
    specializes to that constant. *)
Theorem let_propagates_constant `{Externals} fuel ctx fr f anchor x c T st :
  frame ctx = Some fr ->
  heap st !! fr = Some f ->
  target ctx <> EvalTarget_Return ->
  is_variadic x = false ->
  is_Const c = true ->
  type_of st c = Some T ->
  is_returning T = true ->
  is_arguments_type T = false ->
  let st' := with_heap (<[fr := bind_in (sym_addr x) c f]> (heap st)) st in
  specialize (S (S fuel)) ctx (Let anchor None [x] [c]) st
    = (Ok (Let anchor (Some empty_arguments_type) [] []), st')
  /\ is_useless (Let anchor (Some empty_arguments_type) [] []) = true
  /\ specialize (S fuel) ctx (VSymbolValue x) st' = (Ok c, st').
Proof.
  intros Hfr Hf Htarget Hvar Hc HT Hret Harg st'. split; [|split].
  - rewrite (specialize_untyped_unbound (S fuel) ctx fr) by auto.
    cbn [specialize_kind].
    unfold specialize_Let, specialize_bind_arguments, specialize_arguments.
    cbn [specialize_arguments_loop].
    rewrite !bind_assoc.
    rewrite bind_Ok with (a := c) (st' := st)
      by (by apply specialize_constant with (fr := fr)).
    rewrite bind_assoc.
    rewrite bind_Ok with (a := T) (st' := st)
      by (unfold get_type_of, get_type; by rewrite HT).
    rewrite Hret, Harg. cbn [negb]. rewrite bind_ret.
    unfold specialize_bind_specialized_arguments.
    cbn [specialize_bind_specialized_arguments_loop app].
    rewrite Hvar. change ([c] !! 0) with (Some c). rewrite ?bind_assoc, bind_ret.
    assert (is_symbolic c = true) as -> by (unfold is_symbolic; by rewrite Hc).
    cbn [andb]. rewrite ?bind_assoc.
    rewrite bind_Ok with (a := tt) (st' := st').
    2:{ unfold frame_bind. rewrite Hfr. unfold update. by rewrite Hf. }
    rewrite bind_ret. reflexivity.
  - reflexivity.
  - apply specialize_bound_symbol with (fr := fr); auto.
    unfold st'. by apply resolve_bound.
Qed.

Lemma let_propagates_constant_witness :
  let st' := with_heap [bind_in 70 const_one top_frame] top_state in
  specialize (H := plain_externals) 2 symbol_ctx (Let 2 None [let_symbol] [const_one]) top_state
    = (Ok (Let 2 (Some empty_arguments_type) [] []), st')
  /\ is_useless (Let 2 (Some empty_arguments_type) [] []) = true
  /\ specialize (H := plain_externals) 1 symbol_ctx (VSymbolValue let_symbol) st'
     = (Ok const_one, st').
Proof.
  apply (let_propagates_constant (H := plain_externals) 0 symbol_ctx 0 top_frame 2
           let_symbol const_one TYPE_I32 top_state); try reflexivity.
  discriminate.
Defined.

(** X9: a loop whose body breaks with a constant has the type of that
    constant, under the void target too: outside the return target
    [loop () (break c)] specializes to a loop of the type of [c] around a
    break of type [NoReturn], and the one change to the store is the new loop
    with that return type. *)
Theorem loop_takes_type_of_break `{Externals} fuel ctx fr a b c T st :
  frame ctx = Some fr ->
  target ctx <> EvalTarget_Return ->
  is_Const c = true ->
  type_of st c = Some T ->
  specialize (S (S (S fuel))) ctx (Loop a None [] [] (Break b None c) None) st
  = (Ok (Loop a (Some T) [] [] (Break b (Some TYPE_NoReturn) c) (Some T)),
     with_loops (loops st ++ [Some T]) st).
Proof.
  intros Hfr Htarget Hc HT.
  rewrite (specialize_untyped_unbound (S (S fuel)) ctx fr) by auto.
  cbn [specialize_kind]. unfold specialize_Loop.
  set (l := length (loops st)).
  set (st1 := with_loops (loops st ++ [None]) st).
  rewrite bind_Ok with (a := l) (st' := st1) by reflexivity.
  rewrite bind_Ok with (a := ([], [])) (st' := st1) by reflexivity.
  cbv beta iota.
  set (st2 := with_loops (<[l := Some T]> (loops st1)) st1).
  assert (type_of st1 c = Some T) as HT1 by (destruct c; try discriminate; exact HT).
  assert (loops st1 !! l = Some None) as Hl1.
  { unfold st1, l. cbn [loops with_loops]. by rewrite lookup_app_r, Nat.sub_diag. }
  assert (specialize (S (S fuel)) (for_loop ctx l) (Break b None c) st1
          = (Ok (Break b (Some TYPE_NoReturn) c), st2)) as Hbreak.
  { rewrite (specialize_untyped_unbound (S fuel) (for_loop ctx l) fr) by (auto; discriminate).
    cbn [specialize_kind]. unfold specialize_Break. cbn [loop for_loop].
    rewrite bind_Ok with (a := c) (st' := st1)
      by (by apply specialize_constant with (fr := fr)).
    rewrite bind_Ok with (a := T) (st' := st1)
      by (unfold get_type_of, get_type; by rewrite HT1).
    rewrite bind_Ok with (a := None) (st' := st1)
      by (unfold loop_return_type; by rewrite Hl1).
    rewrite bind_Ok with (a := T) (st' := st1).
    2:{ unfold lift, merge_value_type, transform_return_type, is_target_void.
        cbn [target with_symbol_target with_target].
        rewrite bool_decide_eq_false_2 by discriminate. by rewrite andb_false_r. }
    reflexivity. }
  rewrite (bind_Ok _ _ _ _ _ Hbreak).
  rewrite bind_Ok with (a := TYPE_NoReturn) (st' := st2) by reflexivity.
  assert (loops st2 !! l = Some (Some T)) as Hl2.
  { unfold st2. cbn [loops with_loops]. apply list_lookup_insert_eq.
    by eapply lookup_lt_Some. }
  rewrite bind_Ok with (a := Some T) (st' := st2)
    by (unfold loop_return_type; by rewrite Hl2).
  assert (merge_value_type ctx (Some T) (Some TYPE_NoReturn) = Ok T) as Hm.
  { unfold merge_value_type, transform_return_type. cbn [is_returning].
    change (is_returning TYPE_NoReturn) with false. cbn [andb negb].
    case_bool_decide as HTn; [reflexivity|]. unfold is_returning.
    rewrite bool_decide_eq_false_2 by exact HTn. reflexivity. }
  rewrite bind_Ok with (a := T) (st' := st2) by (unfold lift; by rewrite Hm).
  unfold set_loop_return_type, modify.
  rewrite bind_Ok with (a := tt) (st' := with_loops (<[l := Some T]> (loops st2)) st2)
    by reflexivity.
  unfold ret. f_equal. unfold st2, st1, l. unfold with_loops. cbn. f_equal.
  rewrite list_insert_insert_eq.
  rewrite insert_app_r_alt by lia. by rewrite Nat.sub_diag.
Qed.

Lemma loop_takes_type_of_break_witness :
  specialize (H := plain_externals) 3 void_ctx (Loop 1 None [] [] (Break 2 None const_one) None)
    top_state
  = (Ok (Loop 1 (Some TYPE_I32) [] [] (Break 2 (Some TYPE_NoReturn) const_one)
           (Some TYPE_I32)),
     with_loops [Some TYPE_I32] top_state).
Proof.
  apply (loop_takes_type_of_break (H := plain_externals) 0 void_ctx 0 1 2 const_one TYPE_I32
           top_state); try reflexivity.
  discriminate.
Defined.

(** ** Control transfers *)

(** X10: outside a loop a break and a repeat are rejected at once, with
    [illegal_break_outside_loop] and [illegal_repeat_outside_loop]: their
    operands are not specialized and the store is left as it was. *)
Theorem break_and_repeat_need_a_loop `{Externals} fuel ctx fr anchor value args st :
  frame ctx = Some fr ->
  loop ctx = None ->
  specialize (S fuel) ctx (Break anchor None value) st
    = (Fail (mkError error_illegal_break_outside_loop []), st)
  /\ specialize (S fuel) ctx (Repeat anchor None args) st
     = (Fail (mkError error_illegal_repeat_outside_loop []), st).
Proof.
  intros Hfr Hloop. split; simpl; unfold specialize_node, frame_resolve; rewrite Hfr;
    rewrite bind_ret || (rewrite bind_Ok with (a := None) (st' := st) by reflexivity);
    rewrite bind_get_state; cbn [resolve is_typed type_of];
    unfold is_typed; cbn [type_of]; rewrite bool_decide_eq_false_2 by (by intros [? ?]);
    cbn [specialize_kind]; unfold specialize_Break, specialize_Repeat; rewrite Hloop;
    reflexivity.
Qed.

Lemma break_and_repeat_need_a_loop_witness :
  specialize (H := plain_externals) 1 symbol_ctx (Break 1 None const_one) top_state
    = (Fail (mkError error_illegal_break_outside_loop []), top_state)
  /\ specialize (H := plain_externals) 1 symbol_ctx (Repeat 1 None [const_one]) top_state
     = (Fail (mkError error_illegal_repeat_outside_loop []), top_state).
Proof.
  apply (break_and_repeat_need_a_loop (H := plain_externals) 0 symbol_ctx 0); reflexivity.
Defined.

Lemma return_frame_not_inline n h fr a :
  return_frame n h fr = Ok a ->
  exists f, h !! a = Some f /\ from_option is_inline false (fn_original f) = false.
Proof.
  revert fr. induction n as [|n IH]; intros fr; simpl;
    destruct (h !! fr) as [f|] eqn:Hf; try discriminate;
    destruct (from_option is_inline false (fn_original f)) eqn:Hi; try discriminate.
  - intros [= <-]. eauto.
  - destruct (fn_frame f) as [up|]; [apply IH | discriminate].
  - intros [= <-]. eauto.
Qed.

Lemma return_frame_insert n h a f f1 fr :
  h !! a = Some f ->
  fn_original f1 = fn_original f ->
  fn_frame f1 = fn_frame f ->
  return_frame n (<[a := f1]> h) fr = return_frame n h fr.
Proof.
  intros Ha Ho Hf. revert fr. induction n as [|n IH]; intros fr; simpl.
  - destruct (decide (a = fr)) as [<- | Hne].
    + rewrite list_lookup_insert_eq by (by eapply lookup_lt_Some). rewrite Ha, Ho. reflexivity.
    + rewrite list_lookup_insert_ne by exact Hne. reflexivity.
  - destruct (decide (a = fr)) as [<- | Hne].
    + rewrite list_lookup_insert_eq by (by eapply lookup_lt_Some). rewrite Ha, Ho, Hf.
      destruct (from_option is_inline false (fn_original f)); [|reflexivity].
      destruct (fn_frame f); [apply IH | reflexivity].
    + rewrite list_lookup_insert_ne by exact Hne.
      destruct (h !! fr) as [f'|]; [|reflexivity].
      destruct (from_option is_inline false (fn_original f')); [|reflexivity].
      destruct (fn_frame f'); [apply IH | reflexivity].
Qed.

(** What a successful [make_return] did. *)
Lemma make_return_Ok_inv ctx anchor value st r st' :
  make_return ctx anchor value st = (Ok r, st') ->
  exists fr0 fr f T2 T,
    frame ctx = Some fr0
    /\ return_frame (length (heap st)) (heap st) fr0 = Ok fr
    /\ heap st !! fr = Some f
    /\ type_of st value = Some T2
    /\ merge_return_type (fn_return_type f) (Some T2) = Ok T
    /\ st' = with_heap (<[fr := set_return_type (Some T) f]> (heap st)) st
    /\ r = Return anchor (Some TYPE_NoReturn) value.
Proof.
  unfold make_return. destruct (frame ctx) as [fr0|]; [|discriminate].
  rewrite bind_get_state. intros Hrun.
  apply bind_Ok_inv in Hrun as (fr & st1 & Hfr & Hrun).
  apply lift_Ok_inv in Hfr as [Hfr ->].
  apply bind_Ok_inv in Hrun as (f & st1 & Hf & Hrun).
  unfold deref in Hf. destruct (heap st !! fr) as [f'|] eqn:Hlook; [|discriminate].
  injection Hf as -> <-.
  apply bind_Ok_inv in Hrun as (T2 & st1 & HT2 & Hrun).
  unfold get_type_of, get_type in HT2.
  destruct (type_of st value) as [T2'|] eqn:Hty; [|discriminate].
  injection HT2 as -> <-.
  apply bind_Ok_inv in Hrun as (T & st1 & HT & Hrun).
  apply lift_Ok_inv in HT as [HT ->].
  apply bind_Ok_inv in Hrun as ([] & st1 & Hu & Hrun).
  unfold update in Hu. rewrite Hlook in Hu. injection Hu as <-.
  injection Hrun as <- <-.
  exists fr0, fr, f, T2, T. repeat split; auto.
Qed.

(** [make_return] in a frame that is not inline. *)
Lemma make_return_here ctx fr f anchor v T T' st :
  frame ctx = Some fr ->
  heap st !! fr = Some f ->
  from_option is_inline false (fn_original f) = false ->
  type_of st v = Some T ->
  merge_return_type (fn_return_type f) (Some T) = Ok T' ->
  make_return ctx anchor v st
  = (Ok (Return anchor (Some TYPE_NoReturn) v),
     with_heap (<[fr := set_return_type (Some T') f]> (heap st)) st).
Proof.
  intros Hfr Hf Hi HT Hm. unfold make_return. rewrite Hfr, bind_get_state.
  rewrite bind_Ok with (a := fr) (st' := st).
  2:{ unfold lift. destruct (length (heap st)); simpl; by rewrite Hf, Hi. }
  rewrite bind_Ok with (a := f) (st' := st) by (unfold deref; by rewrite Hf).
  rewrite bind_Ok with (a := T) (st' := st)
    by (unfold get_type_of, get_type; by rewrite HT).
  rewrite bind_Ok with (a := T') (st' := st) by (unfold lift; by rewrite Hm).
  rewrite bind_Ok with (a := tt)
    (st' := with_heap (<[fr := set_return_type (Some T') f]> (heap st)) st)
    by (unfold update; by rewrite Hf).
  reflexivity.
Qed.

Lemma return_frame_walk n h fr0 fr :
  return_frame n h fr0 = Ok fr -> leaves_inline h fr0 fr.
Proof.
  revert fr0. induction n as [|n IH]; intros fr0; simpl;
    destruct (h !! fr0) as [f|] eqn:Hf; try discriminate;
    destruct (from_option is_inline false (fn_original f)) eqn:Hi; try discriminate.
  - intros [= <-]. constructor.
  - destruct (fn_frame f) as [up|] eqn:Hup; [|discriminate].
    intros Hrun. by apply (leaves_inline_up h fr0 f up fr), IH.
  - intros [= <-]. constructor.
Qed.

(** X11: a successful [make_return] builds a return of type [NoReturn]
    around the value and changes exactly one thing in the store: the
    [return_type] of one frame, which becomes the join of what it was with the
    type of the value.  That frame is not inline; it is the frame of the
    context, or is reached from it by going up from inline frames only.
    Inline frames are passed over, never written. *)
Theorem make_return_types_enclosing_function ctx anchor value st r st' :
  make_return ctx anchor value st = (Ok r, st') ->
  r = Return anchor (Some TYPE_NoReturn) value
  /\ exists fr0 fr f T2 T,
       frame ctx = Some fr0
       /\ leaves_inline (heap st) fr0 fr
       /\ heap st !! fr = Some f
       /\ from_option is_inline false (fn_original f) = false
       /\ type_of st value = Some T2
       /\ merge_return_type (fn_return_type f) (Some T2) = Ok T
       /\ st' = with_heap (<[fr := set_return_type (Some T) f]> (heap st)) st.
Proof.
  intros Hrun.
  apply make_return_Ok_inv in Hrun
    as (fr0 & fr & f & T2 & T & Hctx & Hfr & Hf & HT2 & HT & -> & ->).
  split; [reflexivity|]. exists fr0, fr, f, T2, T. repeat split; auto.
  - by apply return_frame_walk in Hfr.
  - apply return_frame_not_inline in Hfr as (f' & Hf' & Hi). congruence.
Qed.

Lemma make_return_types_enclosing_function_witness :
  Return 1 (Some TYPE_NoReturn) const_one = Return 1 (Some TYPE_NoReturn) const_one
  /\ exists fr0 fr f T2 T,
       frame inline_ctx = Some fr0
       /\ leaves_inline (heap inline_state) fr0 fr
       /\ heap inline_state !! fr = Some f
       /\ from_option is_inline false (fn_original f) = false
       /\ type_of inline_state const_one = Some T2
       /\ merge_return_type (fn_return_type f) (Some T2) = Ok T
       /\ with_heap [set_return_type (Some TYPE_I32) top_frame; inline_frame] inline_state
          = with_heap (<[fr := set_return_type (Some T) f]> (heap inline_state)) inline_state.
Proof.
  apply (make_return_types_enclosing_function inline_ctx 1 const_one inline_state).
  vm_compute. reflexivity.
Defined.

Lemma merge_return_type_returning T1 T2 T :
  is_returning T2 = true -> merge_return_type T1 (Some T2) = Ok T -> T = T2.
Proof.
  intros Hr. destruct T1 as [T1|]; simpl; [|congruence].
  case_bool_decide; [congruence|].
  destruct (is_returning T1); simpl; [|congruence].
  rewrite Hr. simpl. discriminate.
Qed.

(** X12: all the returns of a function agree: after a return of a value of
    a returning type [T1] was accepted, a return of a value of another
    returning type [T2] in the same context fails with
    [cannot_merge_expression_types T1 T2] and leaves the store alone, while a
    further return of type [T1] is accepted and changes nothing. *)
Theorem returns_must_agree ctx a1 a2 v1 v2 T1 T2 st r st1 :
  make_return ctx a1 v1 st = (Ok r, st1) ->
  type_of st v1 = Some T1 -> is_returning T1 = true ->
  type_of st1 v2 = Some T2 -> is_returning T2 = true ->
  (T1 <> T2 ->
     make_return ctx a2 v2 st1
     = (Fail (mkError (error_cannot_merge_expression_types T1 T2) []), st1))
  /\ (T1 = T2 ->
        make_return ctx a2 v2 st1 = (Ok (Return a2 (Some TYPE_NoReturn) v2), st1)).
Proof.
  intros Hrun HT1 Hr1 HT2 Hr2.
  apply make_return_Ok_inv in Hrun
    as (fr0 & fr & f & T1' & T & Hctx & Hfr & Hf & HT1' & Hm & -> & ->).
  assert (T1' = T1) as -> by congruence.
  apply merge_return_type_returning in Hm as ->; [|exact Hr1].
  set (f1 := set_return_type (Some T1) f) in *.
  assert (fr < length (heap st)) as Hlt by (by eapply lookup_lt_Some).
  assert (make_return ctx a2 v2 (with_heap (<[fr := f1]> (heap st)) st)
          = (let* T := lift (merge_return_type (Some T1) (Some T2)) in
             update fr (set_return_type (Some T));;
             ret (Return a2 (Some TYPE_NoReturn) v2))
              (with_heap (<[fr := f1]> (heap st)) st)) as ->.
  { unfold make_return. rewrite Hctx, bind_get_state.
    cbn [heap with_heap]. rewrite length_insert.
    rewrite (return_frame_insert _ _ _ f) by (exact Hf || reflexivity). rewrite Hfr.
    rewrite bind_Ok with (a := fr) (st' := with_heap (<[fr := f1]> (heap st)) st)
      by reflexivity.
    rewrite bind_Ok with (a := f1) (st' := with_heap (<[fr := f1]> (heap st)) st).
    2:{ unfold deref. cbn [heap with_heap]. by rewrite list_lookup_insert_eq. }
    rewrite bind_Ok with (a := T2) (st' := with_heap (<[fr := f1]> (heap st)) st).
    2:{ unfold get_type_of, get_type. by rewrite HT2. }
    reflexivity. }
  split.
  - intros Hne. unfold merge_return_type.
    rewrite bool_decide_eq_false_2 by exact Hne. rewrite Hr1, Hr2. reflexivity.
  - intros <-. unfold merge_return_type. rewrite bool_decide_eq_true_2 by reflexivity.
    unfold lift. rewrite bind_Ok with (a := T1) (st' := with_heap (<[fr := f1]> (heap st)) st)
      by reflexivity.
    rewrite bind_Ok with (a := tt) (st' := with_heap (<[fr := f1]> (heap st)) st);
      [reflexivity|].
    unfold update. cbn [heap with_heap]. rewrite list_lookup_insert_eq by exact Hlt.
    f_equal. unfold with_heap. cbn. f_equal.
    rewrite list_insert_insert_eq. reflexivity.
Qed.

Lemma returns_must_agree_witness :
  make_return symbol_ctx 2 const_string
    (snd (make_return symbol_ctx 1 const_one top_state))
  = (Fail (mkError (error_cannot_merge_expression_types TYPE_I32 TYPE_String) []),
     snd (make_return symbol_ctx 1 const_one top_state)).
Proof.
  refine (proj1 (returns_must_agree symbol_ctx 1 2 const_one const_string
                   TYPE_I32 TYPE_String top_state
                   (Return 1 (Some TYPE_NoReturn) const_one)
                   (snd (make_return symbol_ctx 1 const_one top_state)) _ _ _ _ _) _);
    try (vm_compute; reflexivity).
  discriminate.
Defined.

(** X13: a return in a frame that specializes an inline template is
    rejected with [illegal_return_in_inline] before its value is looked at,
    and the store is left as it was. *)
Theorem return_in_inline_is_rejected `{Externals} fuel ctx fr f t anchor value st :
  frame ctx = Some fr ->
  heap st !! fr = Some f ->
  fn_original f = Some t ->
  is_inline t = true ->
  specialize (S fuel) ctx (Return anchor None value) st
  = (Fail (mkError error_illegal_return_in_inline []), st).
Proof.
  intros Hfr Hf Ho Hi. simpl. unfold specialize_node, frame_resolve. rewrite Hfr.
  rewrite bind_Ok with (a := None) (st' := st) by reflexivity.
  rewrite bind_get_state. unfold is_typed. cbn [type_of].
  rewrite bool_decide_eq_false_2 by (by intros [? ?]).
  cbn [specialize_kind]. unfold specialize_Return. rewrite Hfr.
  rewrite bind_assoc.
  rewrite bind_Ok with (a := f) (st' := st) by (unfold deref; by rewrite Hf).
  rewrite Ho. cbn [from_option]. rewrite Hi. reflexivity.
Qed.

Lemma return_in_inline_is_rejected_witness :
  specialize (H := plain_externals) 1 inline_ctx (Return 5 None const_one) inline_state
  = (Fail (mkError error_illegal_return_in_inline []), inline_state).
Proof.
  apply (return_in_inline_is_rejected (H := plain_externals) 0 inline_ctx 1 inline_frame
           inline_template); reflexivity.
Defined.

(** X14: a return of a constant of a returning type, in a frame that is not
    inline, specializes to a return of type [NoReturn] around the constant and
    joins the type of the constant into the [return_type] of the frame,
    whatever the target.  Under the return target the return node itself is
    dropped and the value is wrapped afresh, so the new return carries the
    anchor of the value; under the other targets it carries the anchor of the
    source return. *)
Theorem return_in_tail_position `{Externals} fuel ctx fr f a c T T' st :
  frame ctx = Some fr ->
  heap st !! fr = Some f ->
  from_option is_inline false (fn_original f) = false ->
  is_Const c = true ->
  type_of st c = Some T ->
  is_returning T = true ->
  merge_return_type (fn_return_type f) (Some T) = Ok T' ->
  specialize (S (S fuel)) ctx (Return a None c) st
  = (Ok (Return (if bool_decide (target ctx = EvalTarget_Return)
                 then value_anchor st c else a)
           (Some TYPE_NoReturn) c),
     with_heap (<[fr := set_return_type (Some T') f]> (heap st)) st).
Proof.
  intros Hfr Hf Hi Hc HT Hret Hm.
  assert (specialize (S fuel) (with_symbol_target ctx) c st = (Ok c, st)) as Hself
    by (by apply specialize_constant with (fr := fr)).
  case_bool_decide as Htarget.
  - simpl. unfold specialize_node, frame_resolve. rewrite Hfr.
    rewrite bind_Ok with (a := None) (st' := st) by reflexivity.
    rewrite bind_get_state. unfold is_typed. cbn [type_of].
    rewrite bool_decide_eq_false_2 by (by intros [? ?]).
    rewrite bool_decide_eq_true_2 by exact Htarget.
    rewrite bind_Ok with (a := c) (st' := st).
    2:{ cbn [specialize_kind]. unfold specialize_Return. rewrite Hfr.
        rewrite bind_Ok with (a := f) (st' := st) by (unfold deref; by rewrite Hf).
        rewrite Hi. rewrite (bind_Ok _ _ _ _ _ Hself).
        by rewrite bool_decide_eq_true_2. }
    rewrite bind_Ok with (a := T) (st' := st)
      by (unfold get_type_of, get_type; by rewrite HT).
    rewrite Hret.
    rewrite bind_Ok with (a := value_anchor st c) (st' := st) by reflexivity.
    by apply make_return_here with (T := T).
  - rewrite (specialize_untyped_unbound (S fuel) ctx fr) by auto.
    cbn [specialize_kind]. unfold specialize_Return. rewrite Hfr.
    rewrite bind_Ok with (a := f) (st' := st) by (unfold deref; by rewrite Hf).
    rewrite Hi. rewrite (bind_Ok _ _ _ _ _ Hself).
    rewrite bool_decide_eq_false_2 by exact Htarget.
    by apply make_return_here with (T := T).
Qed.

Lemma return_in_tail_position_witness :
  specialize (H := plain_externals) 2 return_ctx (Return 5 None const_one) top_state
  = (Ok (Return 0 (Some TYPE_NoReturn) const_one),
     with_heap [set_return_type (Some TYPE_I32) top_frame] top_state).
Proof.
  apply (return_in_tail_position (H := plain_externals) 0 return_ctx 0 top_frame 5 const_one
           TYPE_I32 TYPE_I32 top_state); reflexivity.
Defined.

(** X15: a raise of a constant specializes, under every target, to a raise
    of type [NoReturn] around the constant, and joins the type of the constant
    into the [except_type] of the frame of the context itself, inline or not:
    unlike a return, a raise does not look for the enclosing frame that is
    not inline. *)
Theorem raise_marks_its_own_frame `{Externals} fuel ctx fr f a c T E st :
  frame ctx = Some fr ->
  heap st !! fr = Some f ->
  is_Const c = true ->
  type_of st c = Some T ->
  merge_return_type (fn_except_type f) (Some T) = Ok E ->
  specialize (S (S fuel)) ctx (Raise a None c) st
  = (Ok (Raise a (Some TYPE_NoReturn) c),
     with_heap (<[fr := set_except_type (Some E) f]> (heap st)) st).
Proof.
  intros Hfr Hf Hc HT Hm.
  apply specialize_noreturn_rule with (fr := fr); auto.
  cbn [specialize_kind]. unfold specialize_Raise. rewrite Hfr.
  rewrite bind_Ok with (a := c) (st' := st)
    by (by apply specialize_constant with (fr := fr)).
  rewrite bind_Ok with (a := f) (st' := st) by (unfold deref; by rewrite Hf).
  rewrite bind_Ok with (a := T) (st' := st)
    by (unfold get_type_of, get_type; by rewrite HT).
  rewrite bind_Ok with (a := E) (st' := st) by (unfold lift; by rewrite Hm).
  rewrite bind_Ok with (a := tt)
    (st' := with_heap (<[fr := set_except_type (Some E) f]> (heap st)) st)
    by (unfold update; by rewrite Hf).
  reflexivity.
Qed.

Lemma raise_marks_its_own_frame_witness :
  specialize (H := plain_externals) 2 inline_ctx (Raise 4 None const_one) inline_state
  = (Ok (Raise 4 (Some TYPE_NoReturn) const_one),
     with_heap [top_frame; set_except_type (Some TYPE_I32) inline_frame] inline_state).
Proof.
  apply (raise_marks_its_own_frame (H := plain_externals) 0 inline_ctx 1 inline_frame 4
           const_one TYPE_I32 TYPE_I32 inline_state); reflexivity.
Defined.

(** ** More builtins *)

Lemma checkargs_Ok lo hi n : checkargs lo (Some hi) n = Ok tt -> lo <= n <= hi.
Proof. unfold checkargs. repeat case_bool_decide; (discriminate || lia). Qed.

Lemma two_values (values : list Value) :
  2 <= length values <= 2 -> exists a b, values = [a; b].
Proof. destruct values as [|a [|b [|c values]]]; simpl; try lia. eauto. Qed.

Lemma verify_Ok a b : verify a b = Ok tt -> a = b.
Proof. unfold verify. case_bool_decide; [done | discriminate]. Qed.

Section MoreBuiltins.
Context `{Externals}.

Lemma binary_operands st values A B a b :
  READ_TYPEOF st values 0 = Ok A -> READ_TYPEOF st values 1 = Ok B ->
  values = [a; b] -> type_of st a = Some A /\ type_of st b = Some B.
Proof.
  intros HA HB ->. unfold READ_TYPEOF in *. simpl in *.
  split; by apply get_type_Ok.
Qed.

(** X16: [TypeOf] is folded while specializing: on a typed value it gives
    a constant, not a call, from which [extract_type_constant] reads the type
    of the value back; and [Undef] of that constant is a call of that
    type. *)
Theorem typeof_is_folded st anchor callee v T :
  type_of st v = Some T ->
  exists tc,
    specialize_builtin_call st anchor callee [v] FN_TypeOf = Ok tc
    /\ is_Const tc = true
    /\ extract_type_constant tc = Ok T
    /\ forall a c, specialize_builtin_call st a c [tc] FN_Undef
                   = Ok (Call a (Some T) c [tc]).
Proof.
  intros HT. exists (ConstPointer anchor TYPE_Type (PtrType T)).
  unfold specialize_builtin_call, READ_TYPEOF, get_type. simpl. rewrite HT. simpl.
  repeat split.
Qed.

(** X17: [Bitcast] of a value to a type other than its own succeeds, with
    a call of the destination type, exactly when the storage types of source
    and destination are of compatible kinds (real counts as integer) and
    either are the same type or the destination storage is not an array, a
    tuple or a union; sizes are never compared. *)
Theorem bitcast_succeeds_iff st anchor callee v tc SrcT DestT SSrcT SDestT :
  type_of st v = Some SrcT ->
  extract_type_constant tc = Ok DestT ->
  SrcT <> DestT ->
  storage_type SrcT = Ok SSrcT ->
  storage_type DestT = Ok SDestT ->
  (specialize_builtin_call st anchor callee [v; tc] FN_Bitcast
     = Ok (Call anchor (Some DestT) callee [v; tc])
   <-> canonical_typekind (kind SSrcT) = canonical_typekind (kind SDestT)
       /\ (SSrcT = SDestT
           \/ (kind SDestT <> TK_Array /\ kind SDestT <> TK_Tuple
               /\ kind SDestT <> TK_Union)))
  /\ (forall r, specialize_builtin_call st anchor callee [v; tc] FN_Bitcast = Ok r ->
        r = Call anchor (Some DestT) callee [v; tc]).
Proof.
  intros HT Htc Hne HS HD.
  unfold specialize_builtin_call, READ_TYPE_CONST, get_type. simpl.
  rewrite HT, Htc. simpl. rewrite bool_decide_eq_false_2 by exact Hne.
  rewrite HS, HD. simpl.
  case_bool_decide as Hk; simpl.
  - split; [|discriminate]. split; [discriminate | intros [? _]; done].
  - case_bool_decide as Hst; simpl.
    + destruct (kind SDestT) eqn:Hkind; simpl;
        (split;
         [split;
          [first [discriminate
                 | intros _; split; [exact Hk | right; repeat split; discriminate]]
          | first [reflexivity | intros [_ [? | (? & ? & ?)]]; done]]
         | first [discriminate | by intros r [= <-]]]).
    + split; [split; [intros _; split; [exact Hk | by left] | reflexivity]
             | by intros r [= <-]].
Qed.

(** X18: between real types [FPTrunc] succeeds exactly when the
    destination is not wider than the source and [FPExt] exactly when it is
    not narrower, so both accept a conversion to the same width; the other
    way round each fails with [invalid_operands]. *)
Theorem real_conversions_by_width st anchor callee v tc w dw :
  type_of st v = Some (TReal w) ->
  extract_type_constant tc = Ok (TReal dw) ->
  (specialize_builtin_call st anchor callee [v; tc] FN_FPTrunc
     = Ok (Call anchor (Some (TReal dw)) callee [v; tc]) <-> (dw <= w)%N)
  /\ (specialize_builtin_call st anchor callee [v; tc] FN_FPExt
        = Ok (Call anchor (Some (TReal dw)) callee [v; tc]) <-> (w <= dw)%N)
  /\ ((w < dw)%N ->
        specialize_builtin_call st anchor callee [v; tc] FN_FPTrunc
        = raise_error (error_invalid_operands (TReal w) (TReal dw)))
  /\ ((dw < w)%N ->
        specialize_builtin_call st anchor callee [v; tc] FN_FPExt
        = raise_error (error_invalid_operands (TReal w) (TReal dw))).
Proof.
  intros HT Htc.
  unfold specialize_builtin_call, READ_STORAGETYPEOF, READ_TYPEOF, READ_TYPE_CONST, get_type.
  simpl. rewrite HT, Htc. simpl.
  repeat split; repeat case_bool_decide; intros; try done; try lia.
Qed.

(** The loop of [GetElementPtr] follows the indices as [element_path]
    says. *)
Lemma GetElementPtr_loop_path st n :
  forall pre args T T' values',
    length args = n ->
    GetElementPtr_loop st n (length pre) T (pre ++ args) = Ok (T', values') ->
    exists args', values' = pre ++ args' /\ element_path st T args T' args'.
Proof.
  induction n as [|n IH]; intros pre args T T' values' Hlen Hrun.
  { destruct args; [|discriminate]. injection Hrun as <- <-.
    exists []. split; [reflexivity | constructor]. }
  destruct args as [|arg args]; [discriminate|]. injection Hlen as Hlen.
  assert ((pre ++ arg :: args) !! length pre = Some arg) as Hlook
    by (by rewrite lookup_app_r, Nat.sub_diag by lia).
  assert (forall c, S (length pre) = length (pre ++ [c])) as Hnext
    by (intros c; rewrite length_app; simpl; lia).
  cbn [GetElementPtr_loop] in Hrun.
  apply result_bind_Ok_inv in Hrun as (ST & HST & Hrun).
  destruct ST; try discriminate.
  - unfold READ_STORAGETYPEOF, READ_TYPEOF, READ_VALUE in Hrun.
    rewrite Hlook in Hrun. cbn [result_bind] in Hrun.
    apply result_bind_Ok_inv in Hrun as (SA & HSA & Hrun).
    apply result_bind_Ok_inv in HSA as (A & HA & HSA).
    apply get_type_Ok in HA.
    apply result_bind_Ok_inv in Hrun as ([] & Hint & Hrun).
    unfold verify_integer, verify_kind in Hint.
    case_bool_decide as Hk; [|discriminate].
    rewrite (Hnext arg) in Hrun.
    replace (pre ++ arg :: args) with ((pre ++ [arg]) ++ args) in Hrun
      by (by rewrite <- app_assoc).
    apply IH in Hrun as (args' & -> & Hpath); [|exact Hlen].
    exists (arg :: args'). split; [by rewrite <- app_assoc|].
    by eapply element_path_array.
  - unfold READ_VALUE in Hrun. rewrite Hlook in Hrun. cbn [result_bind] in Hrun.
    apply result_bind_Ok_inv in Hrun as (idx & Hidx & Hrun).
    destruct arg; try discriminate Hidx. injection Hidx as ->.
    unfold get_type in Hrun. cbn [type_of result_bind] in Hrun.
    case_bool_decide as HT.
    + subst type. destruct (field_index names (Symbol_wrap idx)) as [i|] eqn:Hfield;
        [|discriminate].
      apply result_bind_Ok_inv in Hrun as (E & HE & Hrun).
      unfold type_at_index in HE. rewrite Nat2N.id in HE.
      destruct (values !! i) as [E'|] eqn:HEi; [|discriminate]. injection HE as ->.
      rewrite insert_app_r_alt, Nat.sub_diag in Hrun by lia.
      cbn [insert list_insert value_anchor] in Hrun.
      rewrite (Hnext (ConstInt anchor TYPE_I32 (N.of_nat i))) in Hrun.
      replace (pre ++ ConstInt anchor TYPE_I32 (N.of_nat i) :: args)
        with ((pre ++ [ConstInt anchor TYPE_I32 (N.of_nat i)]) ++ args) in Hrun
        by (by rewrite <- app_assoc).
      apply IH in Hrun as (args' & -> & Hpath); [|exact Hlen].
      exists (ConstInt anchor TYPE_I32 (N.of_nat i) :: args').
      split; [by rewrite <- app_assoc|].
      by eapply element_path_field_name.
    + apply result_bind_Ok_inv in Hrun as (E & HE & Hrun).
      unfold type_at_index in HE.
      destruct (values !! N.to_nat idx) as [E'|] eqn:HEi; [|discriminate].
      injection HE as ->.
      rewrite (Hnext (ConstInt anchor type idx)) in Hrun.
      replace (pre ++ ConstInt anchor type idx :: args)
        with ((pre ++ [ConstInt anchor type idx]) ++ args) in Hrun
        by (by rewrite <- app_assoc).
      apply IH in Hrun as (args' & -> & Hpath); [|exact Hlen].
      exists (ConstInt anchor type idx :: args').
      split; [by rewrite <- app_assoc|].
      by eapply element_path_field_number.
Qed.

Lemma element_path_length st T args T' args' :
  element_path st T args T' args' -> length args' = length args.
Proof. induction 1; simpl; congruence. Qed.

(** X19: the call [GetElementPtr] builds is typed as a pointer, with the
    flags and the storage class of the pointer it starts from, to the element
    the indices lead to.  The pointer and the first index stay as given, and
    so does every later index, but for a field name: in its place goes, as an
    [i32] constant, the number of the field of that name in the tuple reached
    at that point, and the path goes on from the type of that field.  The
    first index is of an integer type. *)
Theorem getelementptr_keeps_pointer_flags
    st anchor callee values p P element_type flags storage_class r :
  values !! 0 = Some p ->
  type_of st p = Some P ->
  storage_type P = Ok (TPointer element_type flags storage_class) ->
  specialize_builtin_call st anchor callee values FN_GetElementPtr = Ok r ->
  exists first A SA args T args',
    values = p :: first :: args
    /\ type_of st first = Some A /\ storage_type A = Ok SA /\ kind SA = TK_Integer
    /\ element_path st element_type args T args'
    /\ length args' = length args
    /\ r = Call anchor (Some (TPointer T flags storage_class)) callee (p :: first :: args').
Proof.
  intros Hp HT HS Hrun.
  unfold specialize_builtin_call in Hrun. cbv zeta in Hrun.
  apply result_bind_Ok_inv in Hrun as ([] & Hargs & Hrun).
  unfold READ_STORAGETYPEOF at 1, READ_TYPEOF, READ_VALUE, get_type in Hrun.
  rewrite Hp in Hrun. cbn [result_bind] in Hrun. rewrite HT in Hrun.
  cbn [result_bind] in Hrun. rewrite HS in Hrun. cbn [result_bind] in Hrun.
  apply result_bind_Ok_inv in Hrun as ([] & _ & Hrun).
  apply result_bind_Ok_inv in Hrun as (SA & Hfirst & Hrun).
  apply result_bind_Ok_inv in Hrun as ([] & Hint & Hrun).
  apply result_bind_Ok_inv in Hrun as ([T values'] & Hloop & Hrun).
  injection Hrun as <-.
  destruct values as [|p' [|first args]].
  1,2: unfold checkargs in Hargs; simpl in Hargs; discriminate.
  injection Hp as ->.
  unfold READ_STORAGETYPEOF, READ_TYPEOF, READ_VALUE in Hfirst.
  cbn [lookup list_lookup result_bind] in Hfirst.
  apply result_bind_Ok_inv in Hfirst as (A & HA & HSA). apply get_type_Ok in HA.
  unfold verify_integer, verify_kind in Hint.
  case_bool_decide as Hk; [|discriminate].
  cbn [length Nat.sub] in Hloop. rewrite Nat.sub_0_r in Hloop.
  apply (GetElementPtr_loop_path st (length args) [p; first] args) in Hloop
    as (args' & -> & Hpath); [|reflexivity].
  exists first, A, SA, args, T, args'. repeat split; auto.
  by apply element_path_length in Hpath.
Qed.

Lemma verify_writable_message T e :
  verify_writable T = Fail e ->
  exists msg, err_kind e = location_error msg /\ includes "non-writable" msg.
Proof.
  destruct T; try discriminate. simpl.
  destruct (is_writable flags); simpl; [discriminate|].
  intros [= <-]. eexists. split; [reflexivity|].
  exists ("can not store value at address of type "
          +:+ type_repr (TPointer T flags storage_class)
          +:+ " because the target is "), EmptyString.
  rewrite append_empty_r, !append_assoc. reflexivity.
Qed.

(** X20: [Store] and [VolatileStore] of a value through a pointer fail,
    when the pointer lacks the writable flag, with an error whose message
    includes "non-writable"; through a writable pointer they give a call of
    the empty arguments type when the storage type of the pointee is the
    storage type of the value, and a type mismatch otherwise. *)
Theorem store_requires_writable_pointer
    st anchor callee v p b T P ElemT element_type flags storage_class :
  b = FN_Store \/ b = FN_VolatileStore ->
  type_of st v = Some T -> storage_type T = Ok ElemT ->
  type_of st p = Some P ->
  storage_type P = Ok (TPointer element_type flags storage_class) ->
  (is_writable flags = false ->
     exists e msg,
       specialize_builtin_call st anchor callee [v; p] b = Fail e
       /\ err_kind e = location_error msg /\ includes "non-writable" msg)
  /\ (is_writable flags = true ->
        forall SE, storage_type element_type = Ok SE ->
          specialize_builtin_call st anchor callee [v; p] b
          = if bool_decide (SE = ElemT)
            then Ok (Call anchor (Some empty_arguments_type) callee [v; p])
            else raise_error (error_type_mismatch SE ElemT)).
Proof.
  intros Hb HT HE HP HS.
  assert (specialize_builtin_call st anchor callee [v; p] b
          = let+ _ := verify_writable (TPointer element_type flags storage_class) in
            let+ SE := storage_type element_type in
            let+ _ := verify SE ElemT in
            Ok (Call anchor (Some empty_arguments_type) callee [v; p])) as ->.
  { assert (specialize_builtin_call st anchor callee [v; p] b
            = specialize_builtin_call st anchor callee [v; p] FN_Store) as ->
      by (destruct Hb as [-> | ->]; reflexivity).
    unfold specialize_builtin_call, READ_STORAGETYPEOF, READ_TYPEOF, get_type.
    simpl. rewrite HT, HP. simpl. rewrite HE, HS. simpl.
    destruct (is_writable flags); reflexivity. }
  split.
  - intros Hw.
    destruct (verify_writable (TPointer element_type flags storage_class))
      as [| e | |] eqn:Hv;
      try (exfalso; simpl in Hv; rewrite Hw in Hv; discriminate Hv).
    destruct (verify_writable_message _ _ Hv) as (msg & Hk & Hi).
    exists e, msg. auto.
  - intros Hw SE HSE. simpl. rewrite Hw. simpl. rewrite HSE. simpl.
    unfold verify. by case_bool_decide.
Qed.

(** X21: [Free] of a pointer succeeds, with a call of the empty arguments
    type, exactly when the pointer is writable and its storage class is
    unnamed; a writable pointer of a named storage class is refused as not
    being a heap pointer. *)
Theorem free_requires_heap_pointer st anchor callee p T element_type flags storage_class :
  type_of st p = Some T ->
  storage_type T = Ok (TPointer element_type flags storage_class) ->
  (specialize_builtin_call st anchor callee [p] FN_Free
     = Ok (Call anchor (Some empty_arguments_type) callee [p])
   <-> is_writable flags = true /\ storage_class = SYM_Unnamed)
  /\ (is_writable flags = true -> storage_class <> SYM_Unnamed ->
        specialize_builtin_call st anchor callee [p] FN_Free
        = raise_error (location_error "pointer is not a heap pointer")).
Proof.
  intros HT HS.
  assert (specialize_builtin_call st anchor callee [p] FN_Free
          = let+ _ := verify_writable (TPointer element_type flags storage_class) in
            if bool_decide (storage_class <> SYM_Unnamed) then
              raise_error (location_error "pointer is not a heap pointer")
            else Ok (Call anchor (Some empty_arguments_type) callee [p])) as ->.
  { unfold specialize_builtin_call, READ_STORAGETYPEOF, READ_TYPEOF, get_type.
    simpl. rewrite HT. simpl. rewrite HS. reflexivity. }
  simpl. destruct (is_writable flags); simpl.
  - destruct (decide (storage_class = SYM_Unnamed)) as [-> | Hne].
    + rewrite bool_decide_eq_false_2 by (intros Hc; by apply Hc).
      split; [done | intros _ Hc; by destruct Hc].
    + rewrite bool_decide_eq_true_2 by exact Hne.
      split; [split; [discriminate | intros [_ ?]; done] | reflexivity].
  - split; [|discriminate]. split; [discriminate | intros [? _]; discriminate].
Qed.

(** X22: an integer or real comparison that is accepted has exactly two
    operands, both of one and the same type, and the call built for it has
    the type that storage of the operands decides: a vector of [bool] of the
    length of the operands when it is a vector, and [bool] otherwise. *)
Theorem comparison_yields_bool st anchor callee values op v :
  is_comparison op = true ->
  specialize_builtin_call st anchor callee values op = Ok v ->
  exists a b A SA,
    values = [a; b]
    /\ type_of st a = Some A /\ type_of st b = Some A
    /\ storage_type A = Ok SA
    /\ v = Call anchor
             (Some match SA with
                   | TVector _ count => TVector TYPE_Bool count
                   | _ => TYPE_Bool
                   end) callee [a; b].
Proof.
  intros Hop Hrun.
  destruct op; try discriminate Hop; clear Hop;
    unfold specialize_builtin_call in Hrun; cbv zeta in Hrun;
    apply result_bind_Ok_inv in Hrun as ([] & Hc & Hrun);
    apply checkargs_Ok, two_values in Hc as (a & b & ->);
    apply result_bind_Ok_inv in Hrun as (A & HA & Hrun);
    apply result_bind_Ok_inv in Hrun as (B & HB & Hrun);
    apply result_bind_Ok_inv in Hrun as ([] & Hv & Hrun);
    apply result_bind_Ok_inv in Hrun as (R & HR & Hrun);
    destruct (binary_operands _ _ _ _ _ _ HA HB eq_refl) as [Ha Hb];
    unfold verify_integer_ops, verify_real_ops in Hv;
    apply result_bind_Ok_inv in Hv as (ST & _ & Hv);
    apply result_bind_Ok_inv in Hv as ([] & _ & Hv);
    apply verify_Ok in Hv as <-;
    injection Hrun as <-;
    unfold bool_op_return_type in HR;
    apply result_bind_Ok_inv in HR as (SA & HSA & HR);
    exists a, b, A, SA; repeat split; auto;
    destruct SA; injection HR as <-; reflexivity.
Qed.
(** X23: a binary arithmetic builtin that is accepted has exactly two
    operands, both of one and the same type, and the call built for it has
    that type: no operand is ever converted. *)
Theorem binary_arithmetic_operands_agree st anchor callee values op v :
  is_binary_arithmetic op = true ->
  specialize_builtin_call st anchor callee values op = Ok v ->
  exists a b A,
    values = [a; b]
    /\ type_of st a = Some A /\ type_of st b = Some A
    /\ v = Call anchor (Some A) callee [a; b].
Proof.
  intros Hop Hrun.
  destruct op; try discriminate Hop; clear Hop;
    unfold specialize_builtin_call in Hrun; cbv zeta in Hrun;
    apply result_bind_Ok_inv in Hrun as ([] & Hc & Hrun);
    apply checkargs_Ok, two_values in Hc as (a & b & ->);
    apply result_bind_Ok_inv in Hrun as (A & HA & Hrun);
    apply result_bind_Ok_inv in Hrun as (B & HB & Hrun);
    apply result_bind_Ok_inv in Hrun as ([] & Hv & Hrun);
    destruct (binary_operands _ _ _ _ _ _ HA HB eq_refl) as [Ha Hb];
    unfold verify_integer_ops, verify_real_ops in Hv;
    apply result_bind_Ok_inv in Hv as (ST & _ & Hv);
    apply result_bind_Ok_inv in Hv as ([] & _ & Hv);
    apply verify_Ok in Hv as <-;
    injection Hrun as <-; exists a, b, A; auto.
Qed.
End MoreBuiltins.

Lemma typeof_is_folded_witness :
  exists tc,
    specialize_builtin_call (H := plain_externals) top_state 0 add_callee [const_one] FN_TypeOf
      = Ok tc
    /\ is_Const tc = true
    /\ extract_type_constant tc = Ok TYPE_I32
    /\ forall a c, specialize_builtin_call (H := plain_externals) top_state a c [tc] FN_Undef
                   = Ok (Call a (Some TYPE_I32) c [tc]).
Proof.
  apply (typeof_is_folded (H := plain_externals) top_state 0 add_callee const_one TYPE_I32).
  reflexivity.
Defined.

Lemma bitcast_succeeds_iff_witness :
  specialize_builtin_call (H := plain_externals) top_state 0 bitcast_callee
    [const_one; f64_constant] FN_Bitcast
  = Ok (Call 0 (Some TYPE_F64) bitcast_callee [const_one; f64_constant]).
Proof.
  refine (proj2 (proj1 (bitcast_succeeds_iff (H := plain_externals) top_state 0
                          bitcast_callee const_one f64_constant TYPE_I32 TYPE_F64
                          TYPE_I32 TYPE_F64 _ _ _ _ _)) _);
    try reflexivity.
  - discriminate.
  - split; [reflexivity|]. right. repeat split; discriminate.
Defined.

Lemma real_conversions_by_width_witness :
  specialize_builtin_call (H := plain_externals) top_state 0 add_callee
    [const_f32; f64_constant] FN_FPTrunc
  = raise_error (error_invalid_operands TYPE_F32 TYPE_F64).
Proof.
  refine (proj1 (proj2 (proj2 (real_conversions_by_width (H := plain_externals) top_state 0
                                 add_callee const_f32 f64_constant 32 64 _ _))) _);
    try reflexivity.
Defined.

Lemma getelementptr_keeps_pointer_flags_witness :
  exists first A SA args T args',
    [pair_pointer; const_one; field_name] = pair_pointer :: first :: args
    /\ type_of top_state first = Some A /\ storage_type A = Ok SA /\ kind SA = TK_Integer
    /\ element_path (H := plain_externals) top_state pair_type args T args'
    /\ length args' = length args
    /\ Call 0 (Some (TPointer TYPE_F32 PTF_NonWritable SYM_Unnamed)) add_callee
         [pair_pointer; const_one; ConstInt 9 TYPE_I32 1]
       = Call 0 (Some (TPointer T PTF_NonWritable SYM_Unnamed)) add_callee
           (pair_pointer :: first :: args').
Proof.
  apply (getelementptr_keeps_pointer_flags (H := plain_externals) top_state 0
           add_callee [pair_pointer; const_one; field_name] pair_pointer
           (TPointer pair_type PTF_NonWritable SYM_Unnamed) pair_type);
    reflexivity.
Defined.

Lemma store_requires_writable_pointer_witness :
  exists e msg,
    specialize_builtin_call (H := plain_externals) top_state 0 add_callee
      [const_one; readonly_pointer] FN_Store = Fail e
    /\ err_kind e = location_error msg /\ includes "non-writable" msg.
Proof.
  refine (proj1 (store_requires_writable_pointer (H := plain_externals) top_state 0
                   add_callee const_one readonly_pointer FN_Store TYPE_I32
                   (TPointer TYPE_I32 PTF_NonWritable SYM_Unnamed) TYPE_I32 TYPE_I32
                   PTF_NonWritable SYM_Unnamed _ _ _ _ _) _);
    try reflexivity.
  by left.
Defined.

Lemma free_requires_heap_pointer_witness :
  specialize_builtin_call (H := plain_externals) top_state 0 add_callee [stack_pointer] FN_Free
  = raise_error (location_error "pointer is not a heap pointer").
Proof.
  refine (proj2 (free_requires_heap_pointer (H := plain_externals) top_state 0 add_callee
                   stack_pointer (TPointer TYPE_I32 0 SYM_SPIRV_StorageClassFunction)
                   TYPE_I32 0%N SYM_SPIRV_StorageClassFunction _ _) _ _);
    try reflexivity.
  discriminate.
Defined.

Lemma comparison_yields_bool_witness :
  exists a b A SA,
    [vector_of_i32; vector_of_i32] = [a; b]
    /\ type_of top_state a = Some A /\ type_of top_state b = Some A
    /\ storage_type A = Ok SA
    /\ Call 3 (Some (TVector TYPE_Bool 4)) add_callee [vector_of_i32; vector_of_i32]
       = Call 3 (Some match SA with
                      | TVector _ count => TVector TYPE_Bool count
                      | _ => TYPE_Bool
                      end) add_callee [a; b].
Proof.
  apply (comparison_yields_bool (H := plain_externals) top_state 3 add_callee
           [vector_of_i32; vector_of_i32] OP_ICmpEQ); reflexivity.
Defined.

Lemma binary_arithmetic_operands_agree_witness :
  exists a b A,
    [const_one; const_one] = [a; b]
    /\ type_of top_state a = Some A /\ type_of top_state b = Some A
    /\ Call 3 (Some TYPE_I32) add_callee [const_one; const_one]
       = Call 3 (Some A) add_callee [a; b].
Proof.
  apply (binary_arithmetic_operands_agree (H := plain_externals) top_state 3 add_callee
           [const_one; const_one] OP_Add); reflexivity.
Defined.

(** ** Calls through function pointers *)

Lemma verify_function_argument_signature_exact `{Externals} st values Ts :
  types_of st values = Ok Ts ->
  verify_function_argument_signature st values Ts = Ok tt.
Proof.
  revert Ts. induction values as [|v values IH]; intros Ts; simpl.
  - by intros [= <-].
  - destruct (get_type st v) as [T| | |]; try discriminate. simpl.
    destruct (types_of st values) as [Ts'| | |]; try discriminate.
    intros [= <-]. simpl. rewrite bool_decide_eq_true_2 by reflexivity. simpl.
    by apply IH.
Qed.

Section PointerCalls.
Context `{Externals}.
Variable self : ASTContext -> Value -> M Value.
Variable fuel : nat.

(** A call whose callee is not a closure, a macro or a builtin is a call
    through a function pointer. *)
Lemma specialize_call_interior_pointer ctx anchor callee args st st1 st2 c T values :
  self (with_symbol_target ctx) callee st = (Ok c, st1) ->
  specialize_arguments self ctx [] args st1 = (Ok values, st2) ->
  type_of st2 c = Some T ->
  called_by_pointer T ->
  specialize_call_interior self fuel ctx anchor callee args st
  = specialize_call_pointer ctx anchor c values T st2.
Proof.
  intros Hcallee Hargs HT (Hc & Hm & Hb).
  unfold specialize_call_interior.
  rewrite (bind_Ok _ _ _ _ _ Hcallee), (bind_Ok _ _ _ _ _ Hargs).
  rewrite bind_Ok with (a := T) (st' := st2) by (unfold get_type_of, get_type; by rewrite HT).
  by rewrite !bool_decide_eq_false_2.
Qed.

(** X24: a call whose callee is neither a closure, a macro nor a builtin
    fails with [invalid_call_type] on the specialized callee when the type of
    the callee is not a function pointer, and with [argument_count_mismatch]
    when it is one but the number of specialized arguments is not the number
    of its parameters; the store is the one after the arguments in both
    cases. *)
Theorem call_needs_function_pointer_and_arity ctx anchor callee args st st1 st2 c T values :
  self (with_symbol_target ctx) callee st = (Ok c, st1) ->
  specialize_arguments self ctx [] args st1 = (Ok values, st2) ->
  type_of st2 c = Some T ->
  called_by_pointer T ->
  (is_function_pointer T = false ->
     specialize_call_interior self fuel ctx anchor callee args st
     = (Fail (mkError (error_invalid_call_type c) []), st2))
  /\ (forall E R Ts flags sc,
        T = TPointer (TFunction E R Ts) flags sc ->
        length values <> length Ts ->
        specialize_call_interior self fuel ctx anchor callee args st
        = (Fail (mkError (error_argument_count_mismatch (length Ts) (length values)) []),
           st2)).
Proof.
  intros Hcallee Hargs HT Hptr.
  rewrite (specialize_call_interior_pointer _ _ _ _ _ _ _ _ _ _ Hcallee Hargs HT Hptr).
  split.
  - intros Hfp. unfold specialize_call_pointer. rewrite Hfp. reflexivity.
  - intros E R Ts flags sc -> Hlen. unfold specialize_call_pointer.
    cbn [is_function_pointer negb extract_function_type].
    rewrite bind_Ok with (a := (E, R, Ts)) (st' := st2) by reflexivity.
    cbv beta iota.
    rewrite bool_decide_eq_true_2 by exact Hlen. reflexivity.
Qed.

(** X25: a call through a function pointer whose parameter types are the
    types of the specialized arguments is accepted as a call of the return
    type of the function; when the function does not raise nothing else
    happens, and when it raises, its exception type is joined into the
    [except_type] of the calling frame. *)
Theorem call_with_exact_signature ctx anchor callee args st st1 st2 c values E R Ts flags sc :
  self (with_symbol_target ctx) callee st = (Ok c, st1) ->
  specialize_arguments self ctx [] args st1 = (Ok values, st2) ->
  type_of st2 c = Some (TPointer (TFunction E R Ts) flags sc) ->
  types_of st2 values = Ok Ts ->
  (has_exception E = false ->
     specialize_call_interior self fuel ctx anchor callee args st
     = (Ok (Call anchor (Some R) c values), st2))
  /\ (has_exception E = true ->
        forall fr f E',
          frame ctx = Some fr -> heap st2 !! fr = Some f ->
          merge_return_type (fn_except_type f) (Some E) = Ok E' ->
          specialize_call_interior self fuel ctx anchor callee args st
          = (Ok (Call anchor (Some R) c values),
             with_heap (<[fr := set_except_type (Some E') f]> (heap st2)) st2)).
Proof.
  intros Hcallee Hargs HT HTs.
  rewrite (specialize_call_interior_pointer _ _ _ _ _ _ _ _ _ _ Hcallee Hargs HT)
    by (repeat split; discriminate).
  pose proof (types_of_length _ _ _ HTs) as Hlen.
  unfold specialize_call_pointer.
  cbn [is_function_pointer negb extract_function_type].
  rewrite bind_Ok with (a := (E, R, Ts)) (st' := st2) by reflexivity.
  cbv beta iota.
  rewrite bool_decide_eq_false_2 by (intros Hne; apply Hne; by symmetry).
  rewrite bind_get_state.
  rewrite bind_Ok with (a := tt) (st' := st2)
    by (unfold lift; by rewrite verify_function_argument_signature_exact).
  split.
  - intros ->. reflexivity.
  - intros -> fr f E' Hfr Hf Hm. rewrite Hfr.
    rewrite bind_assoc.
    rewrite bind_Ok with (a := f) (st' := st2) by (unfold deref; by rewrite Hf).
    rewrite bind_assoc. unfold lift at 1. rewrite Hm.
    rewrite bind_Ok with (a := E') (st' := st2) by reflexivity.
    unfold update. rewrite bind_Ok with (a := tt)
      (st' := with_heap (<[fr := set_except_type (Some E') f]> (heap st2)) st2)
      by (by rewrite Hf).
    reflexivity.
Qed.
End PointerCalls.

Lemma call_needs_function_pointer_and_arity_witness :
  specialize_call_interior (H := plain_externals)
    (specialize (H := plain_externals) 1) 1 symbol_ctx 0 const_one [] top_state
  = (Fail (mkError (error_invalid_call_type const_one) []), top_state).
Proof.
  refine (proj1 (call_needs_function_pointer_and_arity (H := plain_externals)
                   (specialize (H := plain_externals) 1) 1 symbol_ctx 0 const_one []
                   top_state top_state top_state const_one TYPE_I32 [] _ _ _ _) _);
    try reflexivity.
  repeat split; discriminate.
Defined.

Lemma call_with_exact_signature_witness :
  specialize_call_interior (H := plain_externals)
    (specialize (H := plain_externals) 1) 1 symbol_ctx 7 raising_callee [const_one] top_state
  = (Ok (Call 7 (Some TYPE_I32) raising_callee [const_one]),
     with_heap [set_except_type (Some TYPE_Error) top_frame] top_state).
Proof.
  refine (proj2 (call_with_exact_signature (H := plain_externals)
                   (specialize (H := plain_externals) 1) 1 symbol_ctx 7 raising_callee
                   [const_one] top_state top_state top_state raising_callee [const_one]
                   TYPE_Error TYPE_I32 [TYPE_I32] PTF_NonWritable SYM_Unnamed _ _ _ _)
            _ 0 top_frame TYPE_Error _ _ _);
    reflexivity.
Defined.

(** ** Symbols, conditions, templates *)

(** X26: outside the return target a symbol specializes to what it is
    bound to in its frame or in an enclosing one; a symbol that is bound
    nowhere comes back as it is when it is typed, and is reported with
    [unbound_symbol] when it is not; the store is never changed. *)
Theorem symbol_is_replaced_by_its_binding `{Externals} fuel ctx fr s st :
  frame ctx = Some fr ->
  target ctx <> EvalTarget_Return ->
  specialize (S fuel) ctx (VSymbolValue s) st
  = match resolve st fr (VSymbolValue s), sym_type s with
    | Some v, _ => (Ok v, st)
    | None, Some _ => (Ok (VSymbolValue s), st)
    | None, None => (Fail (mkError (error_unbound_symbol s) []), st)
    end.
Proof.
  intros Hfr Htarget.
  destruct (resolve st fr (VSymbolValue s)) as [v|] eqn:Hres.
  - by apply specialize_bound_symbol with (fr := fr).
  - destruct (sym_type s) as [T|] eqn:HT.
    + apply specialize_typed_unbound with (fr := fr); auto.
      by apply is_typed_true with T.
    + rewrite (specialize_untyped_unbound fuel ctx fr) by auto.
      cbn [specialize_kind]. unfold specialize_SymbolValue, frame_resolve. rewrite Hfr.
      rewrite bind_Ok with (a := None) (st' := st) by (by rewrite Hres).
      reflexivity.
Qed.

Lemma symbol_is_replaced_by_its_binding_witness :
  specialize (H := plain_externals) 1 symbol_ctx (VSymbolValue let_symbol) top_state
  = (Fail (mkError (error_unbound_symbol let_symbol) []), top_state).
Proof.
  apply (symbol_is_replaced_by_its_binding (H := plain_externals) 0 symbol_ctx 0 let_symbol
           top_state).
  - reflexivity.
  - discriminate.
Defined.

Section Conditions.
Context `{Externals}.
Variable self : ASTContext -> Value -> M Value.
Variable fuel : nat.

(** X27: a conditional whose first condition specializes to a value of a
    type other than [bool] fails with [invalid_condition_type] on that value;
    no branch is specialized, and the store is the one after the
    condition. *)
Theorem condition_must_be_bool ctx anchor clause cond rest els st st1 v T :
  clause_cond clause = Some cond ->
  self (with_symbol_target ctx) cond st = (Ok v, st1) ->
  type_of st1 v = Some T ->
  T <> TYPE_Bool ->
  specialize_If self fuel ctx anchor (clause :: rest) els st
  = (Fail (mkError (error_invalid_condition_type v) []), st1).
Proof.
  intros Hcond Hself HT Hne. unfold specialize_If.
  apply bind_Fail. cbn [specialize_If_clauses]. rewrite Hcond.
  rewrite (bind_Ok _ _ _ _ _ Hself).
  rewrite bind_Ok with (a := T) (st' := st1)
    by (unfold get_type_of, get_type; by rewrite HT).
  by rewrite bool_decide_eq_true_2.
Qed.
End Conditions.

Lemma condition_must_be_bool_witness :
  specialize_If (specialize (H := plain_externals) 1) 1 symbol_ctx 1 [non_bool_clause]
    string_else top_state
  = (Fail (mkError (error_invalid_condition_type const_one) []), top_state).
Proof.
  apply (condition_must_be_bool (specialize (H := plain_externals) 1) 1 symbol_ctx 1
           non_bool_clause const_one [] string_else top_state top_state const_one TYPE_I32).
  - reflexivity.
  - reflexivity.
  - reflexivity.
  - discriminate.
Defined.

(** X28: outside the return target a template with a scope specializes,
    without changing the store, to a constant of type [Closure] from which
    [extract_closure_constant] reads back the template and the frame found for
    its scope; when no frame of the chain specializes that scope it fails with
    [cannot_find_frame]. *)
Theorem template_becomes_closure `{Externals} fuel ctx fr t scope st :
  frame ctx = Some fr ->
  target ctx <> EvalTarget_Return ->
  template_scope t = Some scope ->
  match find_frame_in (length (heap st)) (heap st) (Some fr) scope with
  | Some up =>
      exists cl,
        specialize (S fuel) ctx (VTemplate t) st = (Ok cl, st)
        /\ type_of st cl = Some TYPE_Closure
        /\ extract_closure_constant cl = Ok (t, Some up)
  | None =>
      specialize (S fuel) ctx (VTemplate t) st
      = (Fail (mkError (error_cannot_find_frame t) []), st)
  end.
Proof.
  intros Hfr Htarget Hscope.
  rewrite (specialize_untyped_unbound fuel ctx fr) by auto.
  cbn [specialize_kind]. unfold specialize_Template. rewrite Hscope.
  unfold find_frame. rewrite Hfr.
  destruct (find_frame_in (length (heap st)) (heap st) (Some fr) scope) as [up|] eqn:Hup.
  - eexists. split; [|split].
    + rewrite bind_Ok with (a := Some up) (st' := st) by (by rewrite Hup). reflexivity.
    + reflexivity.
    + reflexivity.
  - rewrite bind_Ok with (a := None) (st' := st) by (by rewrite Hup). reflexivity.
Qed.

Lemma template_becomes_closure_witness :
  exists cl,
    specialize (H := plain_externals) 1 symbol_ctx (VTemplate nested_template) scope_state
    = (Ok cl, scope_state)
    /\ type_of scope_state cl = Some TYPE_Closure
    /\ extract_closure_constant cl = Ok (nested_template, Some 0).
Proof.
  apply (template_becomes_closure (H := plain_externals) 0 symbol_ctx 0 nested_template 100
           scope_state).
  - reflexivity.
  - discriminate.
  - reflexivity.
Defined.

(** ** The cache of function instances *)

Lemma find_Some_elem {A} (P : A -> bool) (l : list A) x :
  List.find P l = Some x -> x ∈ l /\ P x = true.
Proof.
  induction l as [|y l IH]; simpl; [done|].
  destruct (P y) eqn:Hy.
  - intros [= <-]. split; [left | exact Hy].
  - intros Hf. destruct (IH Hf). split; [by right | done].
Qed.

(** X29: when the cache holds an instance for the key, specializing the
    template for these argument types returns that instance and does nothing
    else: nothing is specialized and the store stays as it is; and the
    instance returned is one that was registered for the same frame, the same
    template and the same argument types. *)
Theorem cached_instance_is_reused self fr func types st fn :
  find_function st fr func types = Some fn ->
  specialize_instance self fr func types st = (Ok fn, st)
  /\ fn ∈ functions st
  /\ exists f,
       heap st !! fn = Some f
       /\ fn_frame f = fr
       /\ (template_addr <$> fn_original f) = Some (template_addr func)
       /\ fn_instance_args f = types.
Proof.
  intros Hfind. split.
  - unfold specialize_instance. rewrite bind_get_state, Hfind. reflexivity.
  - unfold find_function in Hfind. apply find_Some_elem in Hfind as [Hin Hkey].
    split; [exact Hin|].
    destruct (heap st !! fn) as [f|]; [|discriminate]. exists f.
    simpl in Hkey. unfold KeyEqual in Hkey.
    apply andb_true_iff in Hkey as [Hkey Ht]. apply andb_true_iff in Hkey as [Hf Ho].
    apply bool_decide_eq_true in Ht, Hf, Ho. auto.
Qed.

Lemma cached_instance_is_reused_witness :
  specialize_instance (specialize (H := plain_externals) 0) (Some 0) recursive_template
    [TYPE_Bool] waiting_state = (Ok 1, waiting_state)
  /\ 1 ∈ functions waiting_state
  /\ exists f,
       heap waiting_state !! 1 = Some f
       /\ fn_frame f = Some 0
       /\ (template_addr <$> fn_original f) = Some (template_addr recursive_template)
       /\ fn_instance_args f = [TYPE_Bool].
Proof.
  apply (cached_instance_is_reused (specialize (H := plain_externals) 0) (Some 0)
           recursive_template [TYPE_Bool] waiting_state 1).
  reflexivity.
Defined.

(** ** Inline calls *)

(** Writing the frame that was allocated last. *)
Lemma update_last a g f st h :
  heap st = h ++ [f] -> a = length h ->
  update a g st = (Ok tt, with_heap (h ++ [g f]) st).
Proof.
  intros Hh ->. unfold update. rewrite Hh.
  rewrite lookup_app_r, Nat.sub_diag by lia. cbn [lookup list_lookup].
  rewrite insert_app_r_alt, Nat.sub_diag by lia. reflexivity.
Qed.

(** X30: outside the return target, a call without arguments of the
    closure of an inline template without parameters whose body is a constant
    specializes to that constant: no call node is built.  The frame allocated
    for the inlining is all that is added to the store; it is not entered
    into the cache of function instances, and its return type and exception
    type are still the [NoReturn] a fresh frame starts with: inlining sets
    neither. *)
Theorem inline_call_leaves_no_call `{Externals} fuel ctx fr t up c ca a st :
  frame ctx = Some fr ->
  target ctx <> EvalTarget_Return ->
  is_inline t = true ->
  template_params t = [] ->
  template_value t = c ->
  is_Const c = true ->
  specialize (S (S (S fuel))) ctx
    (Call a None (ConstPointer ca TYPE_Closure (PtrClosure t up)) []) st
  = (Ok c,
     with_heap (heap st ++ [mkFunction (template_anchor t) (template_name t) [] c (Some t) up
                              (Some TYPE_NoReturn) (Some TYPE_NoReturn)
                              [] false None ∅]) st).
Proof.
  intros Hfr Htarget Hinl Hparams Hvalue Hc.
  set (cl := ConstPointer ca TYPE_Closure (PtrClosure t up)).
  rewrite (specialize_untyped_unbound (S (S fuel)) ctx fr) by auto.
  cbn [specialize_kind]. unfold specialize_Call.
  set (fn := length (heap st)).
  set (f0 := mkFunction (template_anchor t) (template_name t) [] (template_value t)
               None None (Some TYPE_NoReturn) (Some TYPE_NoReturn) [] false None ∅).
  set (st1 := with_heap (heap st ++ [f0]) st).
  set (st2 := with_heap (heap st ++ [set_origin t up f0]) st).
  set (st3 := with_heap (heap st ++ [set_value c (set_origin t up f0)]) st).
  assert (specialize_call_interior (specialize (S (S fuel))) (S (S fuel)) ctx a cl [] st
          = (Ok c, st3)) as Hcall.
  { unfold specialize_call_interior.
    rewrite bind_Ok with (a := cl) (st' := st)
      by (by apply specialize_constant with (fr := fr)).
    rewrite bind_Ok with (a := []) (st' := st) by reflexivity.
    rewrite bind_Ok with (a := TYPE_Closure) (st' := st) by reflexivity.
    rewrite bool_decide_eq_true_2 by reflexivity.
    rewrite bind_Ok with (a := (t, up)) (st' := st) by reflexivity.
    cbv beta iota. rewrite Hinl. unfold specialize_inline.
    rewrite bind_Ok with (a := fn) (st' := st1) by reflexivity.
    rewrite bind_Ok with (a := tt) (st' := st2)
      by (by rewrite (update_last fn (set_origin t up) f0 st1 (heap st))).
    rewrite Hparams.
    rewrite bind_Ok with (a := ([], [])) (st' := st2) by reflexivity.
    cbv beta iota.
    rewrite bind_Ok with (a := set_origin t up f0) (st' := st2).
    2:{ unfold deref, st2, fn. cbn [heap with_heap].
        by rewrite lookup_app_r, Nat.sub_diag by lia. }
    cbn [fn_value set_origin f0]. rewrite Hvalue.
    rewrite bind_Ok with (a := inl c) (st' := st2).
    2:{ unfold catch. by rewrite (specialize_constant (S fuel) _ fn). }
    rewrite bind_Ok with (a := tt) (st' := st3)
      by (by rewrite (update_last fn (set_value c) (set_origin t up f0) st2 (heap st))).
    reflexivity. }
  unfold catch. rewrite bind_Ok with (a := inl c) (st' := st3) by (by rewrite Hcall).
  unfold ret, st3, f0. rewrite Hvalue. reflexivity.
Qed.

Lemma inline_call_leaves_no_call_witness :
  specialize (H := plain_externals) 3 void_ctx
    (Call 7 None (ConstPointer 0 TYPE_Closure (PtrClosure constant_inline_template (Some 0))) [])
    top_state
  = (Ok const_one,
     with_heap [top_frame;
                mkFunction 0 "one" [] const_one (Some constant_inline_template) (Some 0)
                  (Some TYPE_NoReturn) (Some TYPE_NoReturn) [] false None ∅] top_state).
Proof.
  apply (inline_call_leaves_no_call (H := plain_externals) 0 void_ctx 0
           constant_inline_template (Some 0) const_one 0 7 top_state); try reflexivity.
  discriminate.
Defined.
